(** * Automatic CPU offload of pipeline components: a shallow embedding

    Source: [src/diffusers/pipelines/model_manager.py].

    The development follows the source file top to bottom:
    - [get_memory_footprint];
    - [AutoOffloadStrategy.__call__] with its nested [search_best_candidate];
    - [CustomOffloadHook] / [UserCustomOffloadHook] and [pre_forward];
    - [ModelManager] ([add], [remove], [enable_auto_cpu_offload],
      [disable_auto_cpu_offload], [__repr__]).

    Modelling conventions.
    - Python objects with identity (modules, hooks) live in a store and are
      named by their index in it; [module.to(dev)] and attribute assignments
      are in-place updates of the store.
    - Python [int]s are [N] (byte counts) or [nat] (lengths).  Python [float]s
      are rationals [Q]: every finite binary64 value is a rational, and the
      comparisons [int < float] and [float < int] of the source are exact.  An
      arithmetic operation with a float result is the exact operation followed
      by the rounding [fl : Q -> Q], a parameter of which nothing is assumed:
      what is proved holds however the operations round.  Overflow of the
      binary64 range is not modelled.  The concrete inputs used below (margin
      1/4, sizes of a few bytes or multiples of 2^30) are ones on which no
      operation rounds, so [fl] is the identity there.
    - A [torch.device] is a type and an optional index, compared by [==] on
      both.  A module or tensor reports the device its data is on
      ([placed_on]), which is not always the device named in [.to]: [cpu]
      for [cpu:0], the current device for an accelerator named without index.
      The comparisons of lines 93, 95 and 265 are between such values as
      they are.
    - An exception leaves the state as it was when it was raised: operations
      that may raise return an outcome together with the state.
    - [logger] calls are kept as a list of records, in program order; they are
      how a run shows which path it took. *)

From Stdlib Require Import QArith.
From stdpp Require Import list strings pretty sorting.

Open Scope N_scope.

(** ** Devices, modules, footprints *)

(** [torch.device]: a type and an optional index; [cuda] and [cuda:0] are
    different values for [==], as in torch. *)
Record Device := mkDevice { dev_type : string; dev_index : option nat }.

#[global] Instance Device_eq_dec : EqDecision Device.
Proof. solve_decision. Defined.

Definition cpu : Device := mkDevice "cpu" None.

(** The device a module or a tensor reports after [.to(d)].  Torch reports
    where the data is, not the device that was named: on the CPU that is
    [cpu], without index, whatever index was named; on an accelerator named
    without index it is the current device of the process.  So after
    [.to("cpu:0")] the device is [cpu], and after [.to("cuda")] it is
    [cuda:0] when device 0 is the current one. *)
Definition placed_on (current : nat) (d : Device) : Device :=
  if bool_decide (dev_type d = "cpu") then cpu
  else match dev_index d with
       | Some _ => d
       | None => mkDevice (dev_type d) (Some current)
       end.

(** A parameter or buffer tensor of a module, as far as the footprint looks at
    it: [nelement()] and [element_size()]. *)
Record TensorMeta := mkTensorMeta { nelement : N; element_size : N }.

(** What is attached as [module._hf_hook]: a hook put there by someone else,
    or the [CustomOffloadHook] owned by the handle at the given index of the
    hook store. *)
Inductive HfHook :=
| ForeignHook
| OffloadHook (h : nat).

#[global] Instance HfHook_eq_dec : EqDecision HfHook.
Proof. solve_decision. Defined.

(** A [torch.nn.Module], as far as this file reads or writes it. *)
Record Module := mkModule {
  class_name : string;
  device : Device;
  dtype : string;
  parameters : list TensorMeta;
  buffers : list TensorMeta;
  _hf_hook : option HfHook
}.

Definition sumN (l : list N) : N := foldr N.add 0 l.

(** [get_memory_footprint(self, return_buffers=True)], lines 37-53. *)
Definition get_memory_footprint (self : Module) (return_buffers : bool) : N :=
  let mem := sumN (map (fun param => nelement param * element_size param) (parameters self)) in
  if return_buffers then
    let mem_bufs := sumN (map (fun buf => nelement buf * element_size buf) (buffers self)) in
    mem + mem_bufs
  else mem.

(** ** Log records *)

Inductive LogRecord :=
| InfoSearch (min_memory_offload : Q)                     (* line 184 *)
| WarnOffloadAll                                          (* line 222 *)
| InfoStrategyTime (model_id : option string)             (* line 109 *)
| InfoMoving (model_id : option string) (dev : Device) (offloaded : string). (* line 114 *)

(** ** Python containers used by the strategy *)

(** An insertion-ordered [dict] with string keys. *)
Abbreviation dict V := (list (string * V)).

Fixpoint dict_get {V} (d : dict V) (k : string) : option V :=
  match d with
  | [] => None
  | (k', v) :: d' => if decide (k' = k) then Some v else dict_get d' k
  end.

(** [d[k] = v]: an existing key keeps its position and takes the new value, a
    new key goes to the end. *)
Fixpoint dict_set {V} (d : dict V) (k : string) (v : V) : dict V :=
  match d with
  | [] => [(k, v)]
  | (k', v') :: d' =>
      if decide (k' = k) then (k', v) :: d' else (k', v') :: dict_set d' k v
  end.

(** [dict(items)] and the dict comprehension [{k: v for ...}]. *)
Definition dict_of_items {V} (items : list (string * V)) : dict V :=
  foldl (fun d kv => dict_set d kv.1 kv.2) [] items.

Definition keys {V} (d : dict V) : list string := map fst d.
Definition values {V} (d : dict V) : list V := map snd d.

(** [sorted(items, key=lambda x: x[1], reverse=True)]: descending in the
    value, stable (equal values keep their original order). *)
Fixpoint insert_desc (x : string * N) (l : list (string * N)) : list (string * N) :=
  match l with
  | [] => [x]
  | y :: l' => if x.2 <? y.2 then y :: insert_desc x l' else x :: l
  end.

Definition sorted_desc (items : list (string * N)) : list (string * N) :=
  foldr insert_desc [] items.

(** [itertools.combinations(l, r)]: the [r]-element subsequences of [l], in
    lexicographic order of positions. *)
Fixpoint combinations {A} (l : list A) (r : nat) : list (list A) :=
  match r, l with
  | O, _ => [[]]
  | S _, [] => []
  | S r', x :: l' => map (cons x) (combinations l' r') ++ combinations l' r
  end.

(** ** AutoOffloadStrategy *)

Record AutoOffloadStrategy := mkStrategy { size_estimation_margin : Q }.

(** The default of [__init__] and of [enable_auto_cpu_offload]: the binary64
    value of the literal [0.1], which is [3602879701896397 / 2^55]. *)
Definition default_margin : Q := 3602879701896397 # 36028797018963968.

Definition QofN (n : N) : Q := inject_Z (Z.of_N n).

(** [x < y] on floats and ints. *)
Definition Qltb (x y : Q) : bool :=
  match Qcompare x y with Lt => true | _ => false end.

(** [best_size] starts as [float("inf")]. *)
Inductive SizeOrInf :=
| Inf
| Fin (n : N).

Definition lt_size (n : N) (s : SizeOrInf) : bool :=
  match s with
  | Inf => true
  | Fin m => n <? m
  end.

(** The two variables of the search loop. *)
Record SearchState := mkSearch {
  best_candidate : option (list string);
  best_size : SizeOrInf
}.

(** [sum(module_sizes[id] for id in candidate_model_ids)], lines 206-208.
    The ids are keys of [module_sizes], so no lookup fails (lemma
    [candidate_lookup] below); [0] stands in the unreachable branch. *)
Definition candidate_size_of (module_sizes : dict N) (candidate_model_ids : list string) : N :=
  sumN (map (fun candidate_model_id => default 0 (dict_get module_sizes candidate_model_id))
            candidate_model_ids).

(** The body of the inner loop, lines 206-214. *)
Definition search_step (module_sizes : dict N) (min_memory_offload : Q)
    (st : SearchState) (candidate_model_ids : list string) : SearchState :=
  let candidate_size := candidate_size_of module_sizes candidate_model_ids in
  if Qltb (QofN candidate_size) min_memory_offload then st
  else
    if bool_decide (best_candidate st = None) || lt_size candidate_size (best_size st)
    then mkSearch (Some candidate_model_ids) (Fin candidate_size)
    else st.

(** [search_best_candidate(module_sizes, min_memory_offload)], lines 195-216. *)
Definition search_best_candidate (module_sizes : dict N) (min_memory_offload : Q)
    : option (list string) :=
  let model_ids := keys module_sizes in
  best_candidate
    (foldl (fun st r =>
              foldl (search_step module_sizes min_memory_offload) st (combinations model_ids r))
           (mkSearch None Inf)
           (seq 1 (length model_ids))).

(** All candidates of the two nested loops, in the order they are tried. *)
Definition all_candidates {A} (l : list A) : list (list A) :=
  concat (map (combinations l) (seq 1 (length l))).

(** What the two variables of the search loop say about the candidates tried
    so far. *)
Definition search_inv (module_sizes : dict N) (min_memory_offload : Q)
    (seen : list (list string)) (st : SearchState) : Prop :=
  match best_candidate st with
  | None =>
      best_size st = Inf /\
      forall c, c ∈ seen ->
                ~ (min_memory_offload <= QofN (candidate_size_of module_sizes c))%Q
  | Some b =>
      best_size st = Fin (candidate_size_of module_sizes b) /\ b ∈ seen /\
      (min_memory_offload <= QofN (candidate_size_of module_sizes b))%Q /\
      forall c, c ∈ seen ->
                (min_memory_offload <= QofN (candidate_size_of module_sizes c))%Q ->
                candidate_size_of module_sizes b <= candidate_size_of module_sizes c
  end.

(** The total footprint of a list of hooks. *)
Definition total_footprint {Hook} (hook_footprint : Hook -> N) (hooks : list Hook) : N :=
  sumN (map hook_footprint hooks).

Section Strategy.
(** The strategy reads two things of a hook: [hook.model_id] and
    [get_memory_footprint(hook.model)].  [fl] is the rounding of float
    results.  [mem_get_info idx] is the free memory
    [torch.cuda.mem_get_info(idx)[0]] reports at the time of the call. *)
Context {Hook : Type}.
Variable hook_model_id : Hook -> string.
Variable hook_footprint : Hook -> N.
Variable fl : Q -> Q.
Variable mem_get_info : option nat -> N.

(** Lines 187-193. *)
Definition build_module_sizes (hooks : list Hook) : dict N :=
  dict_of_items
    (sorted_desc
       (dict_of_items (map (fun hook => (hook_model_id hook, hook_footprint hook)) hooks))).

(** Lines 184-227: what [__call__] does once [min_memory_offload] is known. *)
Definition select_hooks_to_offload (hooks : list Hook) (min_memory_offload : Q)
    : list Hook * list LogRecord :=
  let module_sizes := build_module_sizes hooks in
  match search_best_candidate module_sizes min_memory_offload with
  | None => (hooks, [InfoSearch min_memory_offload; WarnOffloadAll])
  | Some best_offload_model_ids =>
      (filter (fun hook => hook_model_id hook ∈ best_offload_model_ids) hooks,
       [InfoSearch min_memory_offload])
  end.

(** [current_module_size] after line 177: the footprint, an [int], times the
    float [1 + margin]. *)
Definition current_module_size (self : AutoOffloadStrategy) (model : Module) : Q :=
  fl (fl (QofN (get_memory_footprint model true)) * fl (1 + size_estimation_margin self)).

(** [min_memory_offload], line 183: a float minus the [int] free memory. *)
Definition min_memory_offload_of (self : AutoOffloadStrategy) (model : Module)
    (execution_device : Device) : Q :=
  fl (current_module_size self model
      - fl (QofN (mem_get_info (dev_index execution_device)))).

(** [AutoOffloadStrategy.__call__(hooks, model_id, model, execution_device)],
    lines 172-227.  [model_id] is not read. *)
Definition AutoOffloadStrategy_call (self : AutoOffloadStrategy) (hooks : list Hook)
    (model_id : option string) (model : Module) (execution_device : Device)
    : list Hook * list LogRecord :=
  if bool_decide (length hooks = O) then ([], [])
  else
    let mem_on_device := mem_get_info (dev_index execution_device) in
    if Qltb (current_module_size self model) (QofN mem_on_device) then ([], [])
    else
      let min_memory_offload := min_memory_offload_of self model execution_device in
      select_hooks_to_offload hooks min_memory_offload.
End Strategy.

(** ** Hooks and the object store *)

(** [CustomOffloadHook], lines 67-76.  [other_hooks] holds references to
    [UserCustomOffloadHook] objects; [owner_model_id] is [self.model_id]. *)
Record CustomOffloadHook := mkHook {
  execution_device : Device;
  other_hooks : option (list nat);
  offload_strategy : option AutoOffloadStrategy;
  owner_model_id : option string
}.

(** [UserCustomOffloadHook], lines 131-134.  [model] is a reference into the
    module store.  A handle and the [CustomOffloadHook] it is built with are
    created together (line 157-158) and nothing else refers to that hook but
    [model._hf_hook], so the two objects share one cell of the store. *)
Record UserCustomOffloadHook := mkUserHook {
  model_id : string;
  model : nat;
  hook : CustomOffloadHook
}.

(** The objects a process holds: modules and handles by reference,
    [PartialState().default_device], the index of the current accelerator
    device ([torch.cuda.current_device()], which this file never sets), the
    number of calls of [clear_device_cache] so far and the log. *)
Record World := mkWorld {
  modules : list Module;
  user_hooks : list UserCustomOffloadHook;
  default_device : Device;
  current_device : nat;
  cache_clears : nat;
  log : list LogRecord
}.

Definition with_modules (f : list Module -> list Module) (w : World) : World :=
  mkWorld (f (modules w)) (user_hooks w) (default_device w) (current_device w)
          (cache_clears w) (log w).

Definition with_user_hooks (f : list UserCustomOffloadHook -> list UserCustomOffloadHook)
    (w : World) : World :=
  mkWorld (modules w) (f (user_hooks w)) (default_device w) (current_device w)
          (cache_clears w) (log w).

Definition with_hook (f : CustomOffloadHook -> CustomOffloadHook)
    (uh : UserCustomOffloadHook) : UserCustomOffloadHook :=
  mkUserHook (model_id uh) (model uh) (f (hook uh)).

Definition logger (records : list LogRecord) (w : World) : World :=
  mkWorld (modules w) (user_hooks w) (default_device w) (current_device w)
          (cache_clears w) (log w ++ records).

(** [clear_device_cache()] of accelerate: only counted. *)
Definition clear_device_cache (w : World) : World :=
  mkWorld (modules w) (user_hooks w) (default_device w) (current_device w)
          (S (cache_clears w)) (log w).

(** [module.to(dev)]: moves the module in place; [module.device] is then the
    device torch reports for [dev]. *)
Definition module_to (module : nat) (dev : Device) (w : World) : World :=
  with_modules
    (alter (fun m => mkModule (class_name m) (placed_on (current_device w) dev) (dtype m)
                              (parameters m) (buffers m) (_hf_hook m)) module) w.

Definition set_hf_hook (module : nat) (h : option HfHook) (w : World) : World :=
  with_modules
    (alter (fun m => mkModule (class_name m) (device m) (dtype m) (parameters m) (buffers m) h)
           module) w.

(** [remove_hook_from_module(module)] of accelerate: [detach_hook] of a
    [ModelHook] does nothing and the attribute [_hf_hook] is deleted; nothing
    happens on a module without hook.  Submodules ([recurse=True]) are not
    part of the model. *)
Definition remove_hook_from_module (module : nat) (w : World) : World :=
  set_hf_hook module None w.

(** [CustomOffloadHook.init_hook], lines 89-90. *)
Definition init_hook (module : nat) (w : World) : World :=
  module_to module cpu w.

(** [add_hook_to_module(module, hook)] of accelerate: runs
    [hook.init_hook(module)] and sets [module._hf_hook = hook], replacing a
    hook that is already there. *)
Definition add_hook_to_module (module : nat) (h : nat) (w : World) : World :=
  set_hf_hook module (Some (OffloadHook h)) (init_hook module w).

Definition set_owner_model_id (h : nat) (id : option string) (w : World) : World :=
  with_user_hooks
    (alter (with_hook (fun hk => mkHook (execution_device hk) (other_hooks hk)
                                        (offload_strategy hk) id)) h) w.

(** [CustomOffloadHook.add_other_hook], lines 81-87, reached through
    [UserCustomOffloadHook.add_other_hook], lines 147-148. *)
Definition add_other_hook (h : nat) (other : nat) (w : World) : World :=
  with_user_hooks
    (alter (with_hook (fun hk =>
              mkHook (execution_device hk)
                     (Some (match other_hooks hk with
                            | None => []
                            | Some l => l
                            end ++ [other]))
                     (offload_strategy hk) (owner_model_id hk))) h) w.

(** The methods [offload], [attach] and [remove] of [UserCustomOffloadHook],
    lines 136-145 ([remove_hook] is the method [remove]).  A reference that
    names no object does not exist in Python; the model does nothing on it. *)
Definition offload (h : nat) (w : World) : World :=
  match user_hooks w !! h with
  | Some uh => init_hook (model uh) w
  | None => w
  end.

Definition attach (h : nat) (w : World) : World :=
  match user_hooks w !! h with
  | Some uh => set_owner_model_id h (Some (model_id uh)) (add_hook_to_module (model uh) h w)
  | None => w
  end.

Definition remove_hook (h : nat) (w : World) : World :=
  match user_hooks w !! h with
  | Some uh => set_owner_model_id h None (remove_hook_from_module (model uh) w)
  | None => w
  end.

(** [custom_offload_with_hook], lines 151-160, with [CustomOffloadHook.__init__],
    lines 67-76.  Returns the reference of the new handle. *)
Definition custom_offload_with_hook (id : string) (module : nat)
    (exec_device : option Device) (strategy : option AutoOffloadStrategy) (w : World)
    : nat * World :=
  let hk := mkHook (match exec_device with
                    | Some d => d
                    | None => default_device w
                    end) None strategy None in
  let user_hook := length (user_hooks w) in
  let w := with_user_hooks (fun l => l ++ [mkUserHook id module hk]) w in
  (user_hook, attach user_hook w).

(** ** Arguments of a forward call *)

(** A positional or keyword argument: a tensor, on some device, or a value
    that has no device. *)
Inductive Arg :=
| Tensor (data : N) (dev : Device)
| Plain (data : N).

(** [send_to_device(x, dev)] of accelerate: tensors are moved with
    [tensor.to(dev)], so that they report the device of [placed_on]; other
    values are passed on.  [current] is the current accelerator device. *)
Definition arg_to (current : nat) (dev : Device) (a : Arg) : Arg :=
  match a with
  | Tensor data _ => Tensor data (placed_on current dev)
  | Plain data => Plain data
  end.

Definition send_to_device (current : nat) (args : list Arg) (dev : Device) : list Arg :=
  map (arg_to current dev) args.

Definition send_kwargs_to_device (current : nat) (kwargs : list (string * Arg))
    (dev : Device) : list (string * Arg) :=
  map (fun kv => (kv.1, arg_to current dev kv.2)) kwargs.

(** ** CustomOffloadHook.pre_forward *)

(** A peer, resolved through the store: its reference, the handle and the
    module the handle points to. *)
Definition Peer : Type := nat * UserCustomOffloadHook * Module.

Definition peer_ref (p : Peer) : nat := p.1.1.
Definition peer_model_id (p : Peer) : string := model_id p.1.2.
Definition peer_footprint (p : Peer) : N := get_memory_footprint p.2 true.

Definition resolve_peer (w : World) (h : nat) : option Peer :=
  match user_hooks w !! h with
  | Some uh =>
      match modules w !! model uh with
      | Some m => Some (h, uh, m)
      | None => None
      end
  | None => None
  end.

Fixpoint resolve_peers (w : World) (hs : list nat) : option (list Peer) :=
  match hs with
  | [] => Some []
  | h :: hs' =>
      match resolve_peer w h, resolve_peers w hs' with
      | Some p, Some ps => Some (p :: ps)
      | _, _ => None
      end
  end.

(** The loop of lines 113-117. *)
Definition offload_all (self_model_id : option string) (exec_device : Device)
    (hooks_to_offload : list Peer) (w : World) : World :=
  foldl (fun w p =>
           offload (peer_ref p)
                   (logger [InfoMoving self_model_id exec_device (peer_model_id p)] w))
        w hooks_to_offload.

Section PreForward.
Variable fl : Q -> Q.
Variable mem_get_info : option nat -> N.

(** [pre_forward(self, module, *args, **kwargs)], lines 92-122.  [self] is
    the reference of the handle that owns the hook.  The result is [None]
    only when a reference names no object of the store. *)
Definition pre_forward (self : nat) (module : nat) (args : list Arg)
    (kwargs : list (string * Arg)) (w : World)
    : option ((list Arg * list (string * Arg)) * World) :=
  match user_hooks w !! self, modules w !! module with
  | Some uh, Some m =>
      let hk := hook uh in
      let moved :=
        if decide (device m <> execution_device hk) then
          match other_hooks hk with
          | Some others =>
              match resolve_peers w others with
              | Some peers =>
                  let hooks_to_offload :=
                    filter (fun p => device p.2 = execution_device hk) peers in
                  let '(hooks_to_offload, records) :=
                    match offload_strategy hk with
                    | Some strategy =>
                        AutoOffloadStrategy_call peer_model_id peer_footprint fl mem_get_info
                          strategy hooks_to_offload (owner_model_id hk) m
                          (execution_device hk)
                    | None => (hooks_to_offload, [])
                    end in
                  let w := logger (records ++ [InfoStrategyTime (owner_model_id hk)]) w in
                  let w := offload_all (owner_model_id hk) (execution_device hk)
                                       hooks_to_offload w in
                  let w := if bool_decide (hooks_to_offload <> [])
                           then clear_device_cache w else w in
                  Some (module_to module (execution_device hk) w)
              | None => None
              end
          | None => Some (module_to module (execution_device hk) w)
          end
        else Some w in
      match moved with
      | Some w' =>
          Some ((send_to_device (current_device w) args (execution_device hk),
                 send_kwargs_to_device (current_device w) kwargs (execution_device hk)), w')
      | None => None
      end
  | _, _ => None
  end.
End PreForward.

(** ** ModelManager *)

Inductive Exception :=
| KeyError (key : string)
| AttributeError (name : string)
| ValueError (msg : string).

Inductive Outcome (A : Type) :=
| Return (a : A)
| Raise (e : Exception).
Arguments Return {A} a.
Arguments Raise {A} e.

(** Lines 231-234; [_auto_offload_device] does not exist until
    [enable_auto_cpu_offload] sets it. *)
Record ModelManager := mkManager {
  models : list (string * nat);
  model_hooks : option (list nat);
  _auto_offload_enabled : bool;
  _auto_offload_device : option Device
}.

Definition ModelManager_init : ModelManager := mkManager [] None false None.

(** [disable_auto_cpu_offload], lines 272-283. *)
Definition disable_auto_cpu_offload (self : ModelManager) (w : World)
    : ModelManager * World :=
  match model_hooks self with
  | None => (mkManager (models self) (model_hooks self) false (_auto_offload_device self), w)
  | Some hooks =>
      let w := foldl (fun w h => remove_hook h (offload h w)) w hooks in
      let w := if bool_decide (hooks <> []) then clear_device_cache w else w in
      (mkManager (models self) None false (_auto_offload_device self), w)
  end.

Definition has_hf_hook (w : World) (module : nat) : bool :=
  match modules w !! module with
  | Some m => bool_decide (_hf_hook m <> None)
  | None => false
  end.

Definition hook_execution_device (w : World) (h : nat) : option Device :=
  match user_hooks w !! h with
  | Some uh => Some (execution_device (hook uh))
  | None => None
  end.

(** The inner loop of lines 264-266, for one handle. *)
Definition wire_one (h : nat) (others : list nat) (w : World) : World :=
  foldl (fun w other =>
           if bool_decide (hook_execution_device w other = hook_execution_device w h)
           then add_other_hook h other w else w)
        w others.

(** Lines 262-266. *)
Definition wire_peers (all_hooks : list nat) (w : World) : World :=
  foldl (fun w h => wire_one h (filter (fun h' => h' <> h) all_hooks) w) w all_hooks.

(** Lines 254-256. *)
Definition normalize_device (dev : Device) : Device :=
  match dev_index dev with
  | None => mkDevice (dev_type dev) (Some O)
  | Some _ => dev
  end.

(** The loop of lines 257-260. *)
Definition create_hooks (dev : Device) (strategy : AutoOffloadStrategy)
    (entries : list (string * nat)) (acc : list nat * World) : list nat * World :=
  foldl (fun '(all_hooks, w) entry =>
           let '(h, w) := custom_offload_with_hook entry.1 entry.2 (Some dev)
                                                   (Some strategy) w in
           (all_hooks ++ [h], w))
        acc entries.

(** [enable_auto_cpu_offload(device, size_estimation_margin=0.1)], lines
    247-270.  [device] is the argument after [torch.device(device)]. *)
Definition enable_auto_cpu_offload (self : ModelManager) (dev : Device)
    (margin : Q) (w : World) : ModelManager * World :=
  let w := foldl (fun w entry =>
                    if has_hf_hook w entry.2 then remove_hook_from_module entry.2 w else w)
                 w (models self) in
  let '(self, w) := disable_auto_cpu_offload self w in
  let strategy := mkStrategy margin in
  let dev := normalize_device dev in
  let '(all_hooks, w) := create_hooks dev strategy (models self) ([], w) in
  let w := wire_peers all_hooks w in
  (mkManager (models self) (Some all_hooks) true (Some dev), w).

(** The re-enabling call of [add] and [remove], lines 239-240 and 244-245:
    only the device is passed on. *)
Definition reenable (self : ModelManager) (w : World)
    : Outcome unit * (ModelManager * World) :=
  if _auto_offload_enabled self then
    match _auto_offload_device self with
    | Some dev => (Return tt, enable_auto_cpu_offload self dev default_margin w)
    | None => (Raise (AttributeError "_auto_offload_device"), (self, w))
    end
  else (Return tt, (self, w)).

(** [add(model_id, model)], lines 236-240. *)
Definition add (self : ModelManager) (id : string) (module : nat) (w : World)
    : Outcome unit * (ModelManager * World) :=
  if bool_decide (id ∉ keys (models self)) then
    let self := mkManager (models self ++ [(id, module)]) (model_hooks self)
                          (_auto_offload_enabled self) (_auto_offload_device self) in
    reenable self w
  else (Return tt, (self, w)).

(** [OrderedDict.pop(key)] without default. *)
Definition dict_pop {V} (d : dict V) (k : string) : Outcome (V * dict V) :=
  match dict_get d k with
  | Some v => Return (v, filter (fun kv => kv.1 <> k) d)
  | None => Raise (KeyError k)
  end.

(** [remove(model_id)], lines 242-245. *)
Definition remove (self : ModelManager) (id : string) (w : World)
    : Outcome unit * (ModelManager * World) :=
  match dict_pop (models self) id with
  | Return (_, models') =>
      let self := mkManager models' (model_hooks self)
                            (_auto_offload_enabled self) (_auto_offload_device self) in
      reenable self w
  | Raise e => (Raise e, (self, w))
  end.

(** ** ModelManager.__repr__ *)

(** [max(iterable)]: raises [ValueError] on an empty iterable. *)
Definition py_max (l : list nat) : Outcome nat :=
  match l with
  | [] => Raise (ValueError "max() arg is an empty sequence")
  | x :: l' => Return (foldl Nat.max x l')
  end.

(** [c * n] for a one-character string. *)
Fixpoint str_repeat (c : string) (n : nat) : string :=
  match n with
  | O => EmptyString
  | S n' => c +:+ str_repeat c n'
  end.

(** The format [{s:<{width}}]: left-justified, padded with spaces. *)
Definition ljust (s : string) (width : nat) : string :=
  s +:+ str_repeat " " (width - String.length s).

(** [str(torch.device)]. *)
Definition str_device (d : Device) : string :=
  match dev_index d with
  | None => dev_type d
  | Some i => dev_type d +:+ ":" +:+ pretty i
  end.

(** The binary64 value nearest to an integer, ties to even.  An integer of
    at most 53 binary digits is kept; a longer one keeps its 53 leading
    digits, rounded. *)
Definition round_binary64 (n : N) : N :=
  let digits := N.size n in
  if digits <=? 53 then n
  else
    let s := digits - 53 in
    let q := N.shiftr n s in
    let r := n mod 2 ^ s in
    let half := 2 ^ (s - 1) in
    let q := if (half <? r) || ((r =? half) && N.odd q) then q + 1 else q in
    q * 2 ^ s.

(** [f"{size_bytes / (1024**3):.2f}"].  The true division of two integers is
    correctly rounded, and dividing by a power of two does not round, so the
    quotient is [round_binary64 size_bytes / 2^30]; the format prints its
    exact value with two decimals, ties to even. *)
Definition format_size_gb (size_bytes : N) : string :=
  let scaled := round_binary64 size_bytes * 100 in
  let q := scaled / 1024 ^ 3 in
  let r := scaled mod 1024 ^ 3 in
  let hundredths :=
    if (1024 ^ 3 <? 2 * r) || ((2 * r =? 1024 ^ 3) && N.odd q) then q + 1 else q in
  let frac := hundredths mod 100 in
  pretty (hundredths / 100) +:+ "." +:+ (if frac <? 10 then "0" else "") +:+ pretty frac.

Record ColWidths := mkColWidths {
  col_id : nat; col_class : nat; col_device : nat; col_dtype : nat; col_size : nat
}.

(** Lines 286-292. *)
Definition col_widths_of (entries : list (string * Module)) : Outcome ColWidths :=
  match py_max (map (fun e => String.length e.1) entries) with
  | Raise e => Raise e
  | Return max_id =>
      match py_max (map (fun e => String.length (class_name e.2)) entries) with
      | Raise e => Raise e
      | Return max_class =>
          Return (mkColWidths (Nat.max 15 max_id) (Nat.max 25 max_class) 10 15 10)
      end
  end.

(** Lines 306-313, one table row. *)
Definition repr_row (cw : ColWidths) (e : string * Module) : string :=
  ljust e.1 (col_id cw) +:+ " | " +:+ ljust (class_name e.2) (col_class cw) +:+ " | "
  +:+ ljust (str_device (device e.2)) (col_device cw) +:+ " | "
  +:+ ljust (dtype e.2) (col_dtype cw) +:+ " | "
  +:+ format_size_gb (get_memory_footprint e.2 true) +:+ "
".

(** [__repr__] on the entries of [self.models], lines 285-316. *)
Definition repr_entries (entries : list (string * Module)) : Outcome string :=
  match col_widths_of entries with
  | Raise e => Raise e
  | Return cw =>
      let width :=
        (col_id cw + col_class cw + col_device cw + col_dtype cw + col_size cw + 5 * 3 - 1)%nat in
      let sep_line := str_repeat "=" width +:+ "
" in
      let dash_line := str_repeat "-" width +:+ "
" in
      let output := "ModelManager:
" +:+ sep_line in
      let output := output +:+ ljust "Model ID" (col_id cw) +:+ " | "
                    +:+ ljust "Class" (col_class cw) +:+ " | " in
      let output := output +:+ ljust "Device" (col_device cw) +:+ " | "
                    +:+ ljust "Dtype" (col_dtype cw) +:+ " | Size (GB) 
" in
      let output := output +:+ dash_line in
      let output := foldl (fun output e => output +:+ repr_row cw e) output entries in
      Return (output +:+ sep_line)
  end.

Fixpoint resolve_models (w : World) (entries : list (string * nat))
    : option (list (string * Module)) :=
  match entries with
  | [] => Some []
  | (id, module) :: entries' =>
      match modules w !! module, resolve_models w entries' with
      | Some m, Some ms => Some ((id, m) :: ms)
      | _, _ => None
      end
  end.

(** [ModelManager.__repr__]; [None] only for a reference that names no
    module of the store. *)
Definition ModelManager_repr (self : ModelManager) (w : World) : option (Outcome string) :=
  match resolve_models w (models self) with
  | Some entries => Some (repr_entries entries)
  | None => None
  end.

(** ** Views of the state used in the statements *)

(** The peers of a handle: [other_hooks], with [None] read as no peer. *)
Definition peer_handles (w : World) (h : nat) : list nat :=
  match user_hooks w !! h with
  | Some uh => match other_hooks (hook uh) with Some l => l | None => [] end
  | None => []
  end.

(** The handle [custom_offload_with_hook] leaves in the store for an entry. *)
Definition fresh_handle (dev : Device) (strategy : AutoOffloadStrategy)
    (entry : string * nat) : UserCustomOffloadHook :=
  mkUserHook entry.1 entry.2 (mkHook dev None (Some strategy) (Some entry.1)).

(** A handle without its peers. *)
Definition strip_peers (uh : UserCustomOffloadHook) : UserCustomOffloadHook :=
  with_hook (fun hk => mkHook (execution_device hk) None (offload_strategy hk)
                              (owner_model_id hk)) uh.

(** The handles of an enabled manager are wired: there is one handle per
    model, all handles target the device of the manager, and the peers of a
    handle are the other handles, each once. *)
Definition peers_wired (self : ModelManager) (w : World) : Prop :=
  exists hs dev,
    model_hooks self = Some hs /\
    _auto_offload_device self = Some dev /\
    length hs = length (models self) /\
    NoDup hs /\
    forall h, h ∈ hs ->
      hook_execution_device w h = Some dev /\
      peer_handles w h = filter (fun h' => h' <> h) hs /\
      length (peer_handles w h) = (length (models self) - 1)%nat.





(** The search loop again, with the place of the best candidate among those
    tried: the candidates before it that reach [min_memory_offload] are all
    strictly larger, those after it are not smaller. *)
Definition search_inv_first (module_sizes : dict N) (min_memory_offload : Q)
    (seen : list (list string)) (st : SearchState) : Prop :=
  match best_candidate st with
  | None =>
      forall c, c ∈ seen ->
                ~ (min_memory_offload <= QofN (candidate_size_of module_sizes c))%Q
  | Some b =>
      exists pre post,
        seen = pre ++ b :: post /\
        best_size st = Fin (candidate_size_of module_sizes b) /\
        (min_memory_offload <= QofN (candidate_size_of module_sizes b))%Q /\
        (forall c, c ∈ pre ->
                   (min_memory_offload <= QofN (candidate_size_of module_sizes c))%Q ->
                   candidate_size_of module_sizes b < candidate_size_of module_sizes c) /\
        (forall c, c ∈ post ->
                   (min_memory_offload <= QofN (candidate_size_of module_sizes c))%Q ->
                   candidate_size_of module_sizes b <= candidate_size_of module_sizes c)
  end.

(** Descending in the value: the order of [sorted(..., reverse=True)]. *)
Definition size_desc (a b : string * N) : Prop := b.2 <= a.2.

(** The selection of [pre_forward], lines 95-107: the peers that are on the
    execution device, passed through the strategy when there is one. *)
Definition hooks_to_offload_of (fl : Q -> Q) (mem_get_info : option nat -> N)
    (hk : CustomOffloadHook) (m : Module) (peers : list Peer)
    : list Peer * list LogRecord :=
  let hooks_to_offload := filter (fun p => device p.2 = execution_device hk) peers in
  match offload_strategy hk with
  | Some strategy =>
      AutoOffloadStrategy_call peer_model_id peer_footprint fl mem_get_info
        strategy hooks_to_offload (owner_model_id hk) m (execution_device hk)
  | None => (hooks_to_offload, [])
  end.

(** A module after [module.to(dev)]. *)
Definition module_on (dev : Device) (m : Module) : Module :=
  mkModule (class_name m) dev (dtype m) (parameters m) (buffers m) (_hf_hook m).

(** [m'] is [m] after some moves of a call that places on [dev]: it is the
    same module on the same device, on the CPU or on [dev]. *)
Definition moved_only (dev : Device) (m m' : Module) : Prop :=
  m' = m \/ m' = module_on cpu m \/ m' = module_on dev m.

(** Every module of the store reports a device that torch reports: [cpu]
    without index, an accelerator with its index. *)
Definition devices_as_reported (w : World) : Prop :=
  Forall (fun m => placed_on (current_device w) (device m) = device m) (modules w).

(** What every manager built through [add], [remove],
    [enable_auto_cpu_offload] and [disable_auto_cpu_offload] satisfies: ids
    are distinct; the manager is enabled exactly when it holds handles, then
    one per model and with the device recorded. *)
Definition manager_inv (self : ModelManager) : Prop :=
  NoDup (keys (models self)) /\
  (_auto_offload_enabled self = true <-> is_Some (model_hooks self)) /\
  (_auto_offload_enabled self = true -> is_Some (_auto_offload_device self)) /\
  (forall hs, model_hooks self = Some hs -> length hs = length (models self)).

(** What of a module is never written: class, dtype and tensors. *)
Definition module_contents (m : Module)
    : string * string * list TensorMeta * list TensorMeta :=
  (class_name m, dtype m, parameters m, buffers m).

(** A module as [disable_auto_cpu_offload] leaves it: on the CPU, without
    hook. *)
Definition detached (m : Module) : Prop := device m = cpu /\ _hf_hook m = None.

(** The table of [__repr__] in parts: the lines before the rows, lines
    295-303, and the closing line, line 315. *)
Definition repr_width (cw : ColWidths) : nat :=
  (col_id cw + col_class cw + col_device cw + col_dtype cw + col_size cw + 5 * 3 - 1)%nat.

Definition repr_sep_line (cw : ColWidths) : string :=
  str_repeat "=" (repr_width cw) +:+ "
".

Definition repr_dash_line (cw : ColWidths) : string :=
  str_repeat "-" (repr_width cw) +:+ "
".

Definition repr_header_line (cw : ColWidths) : string :=
  ljust "Model ID" (col_id cw) +:+ " | " +:+ ljust "Class" (col_class cw) +:+ " | "
  +:+ ljust "Device" (col_device cw) +:+ " | " +:+ ljust "Dtype" (col_dtype cw)
  +:+ " | Size (GB) 
".

Definition repr_header (cw : ColWidths) : string :=
  "ModelManager:
" +:+ repr_sep_line cw +:+ repr_header_line cw +:+ repr_dash_line cw.

Definition join_lines (lines : list string) : string := foldr String.append "" lines.

(** A client of the manager: a sequence of calls of its four methods on a
    manager and a store.  An exception of a call is caught by the client,
    the state is as the call left it. *)
Inductive Call :=
| CallAdd (model_id : string) (model : nat)
| CallRemove (model_id : string)
| CallEnable (device : Device) (size_estimation_margin : Q)
| CallDisable.

Definition call (c : Call) (s : ModelManager * World) : ModelManager * World :=
  match c with
  | CallAdd model_id model => (add s.1 model_id model s.2).2
  | CallRemove model_id => (remove s.1 model_id s.2).2
  | CallEnable device margin => enable_auto_cpu_offload s.1 device margin s.2
  | CallDisable => disable_auto_cpu_offload s.1 s.2
  end.

Definition calls (cs : list Call) (s : ModelManager * World) : ModelManager * World :=
  foldl (fun s c => call c s) s cs.

(** ** Example data *)

Definition GiB : N := 1024 ^ 3.

Definition cuda0 : Device := mkDevice "cuda" (Some O).

(** A module with one parameter tensor of [bytes] one-byte elements. *)
Definition module_of_size (name : string) (dev : Device) (bytes : N) : Module :=
  mkModule name dev "torch.uint8" [mkTensorMeta bytes 1] [] None.

(** No rounding: the operations on the example inputs are exact in binary64. *)
Definition no_rounding : Q -> Q := fun q => q.

(** Margin [0.25]: [1 + 0.25] and the products below are exact in binary64. *)
Definition quarter_margin : AutoOffloadStrategy := mkStrategy (1 # 4).

(** Three candidates of 5, 3 and 2 GiB, as pairs of id and footprint. *)
Definition candidates_532 : list (string * N) :=
  [("unet", 5 * GiB); ("text_encoder", 3 * GiB); ("vae", 2 * GiB)].

(** Two candidates of one byte each. *)
Definition candidates_11 : list (string * N) := [("vae", 1); ("text_encoder", 1)].

(** A manager with three modules, all on the CPU, enabled for [cuda] with
    margin [0.25]. *)
Definition example_world : World :=
  mkWorld [module_of_size "UNet2DConditionModel" cpu 8;
           module_of_size "AutoencoderKL" cpu 1;
           module_of_size "CLIPTextModel" cpu 2]
          [] cpu 0 0 [].

Definition example_manager : ModelManager :=
  mkManager [("unet", 0%nat); ("vae", 1%nat); ("text_encoder", 2%nat)] None false None.

Definition example_enabled : ModelManager * World :=
  enable_auto_cpu_offload example_manager (mkDevice "cuda" None) (1 # 4) example_world.

(** The example manager enabled for ["cpu"]: the execution device of its
    hooks is [cpu:0], by lines 255-256. *)
Definition example_enabled_on_cpu : ModelManager * World :=
  enable_auto_cpu_offload example_manager cpu (1 # 4) example_world.

(** The same after the VAE has run: it is on [cuda:0]. *)
Definition world_vae_on_device : World := module_to 1 cuda0 example_enabled.2.

(** The same after the UNet has run. *)
Definition world_unet_on_device : World := module_to 0 cuda0 example_enabled.2.

(** Two modules hooked by hand, without strategy: the UNet, on the CPU, with
    the VAE, on [cuda:0], as its only peer. *)
Definition world_without_strategy : World :=
  let '(unet, w) := custom_offload_with_hook "unet" 0 (Some cuda0) None example_world in
  let '(vae, w) := custom_offload_with_hook "vae" 1 (Some cuda0) None w in
  module_to 1 cuda0 (add_other_hook unet vae w).

(** The handle and the module of the UNet in these worlds. *)
Definition unet_handle : UserCustomOffloadHook :=
  mkUserHook "unet" 0 (mkHook cuda0 (Some [1%nat; 2%nat]) (Some quarter_margin) (Some "unet")).

Definition unet_module (dev : Device) : Module :=
  mkModule "UNet2DConditionModel" dev "torch.uint8" [mkTensorMeta 8 1] []
           (Some (OffloadHook 0)).

(* ===================================================================== *)
(** * Facts *)

(** ** Sums, floats *)

Lemma sumN_Permutation l1 l2 : l1 ≡ₚ l2 -> sumN l1 = sumN l2.
Proof. induction 1; simpl; lia. Qed.

#[global] Instance sumN_Proper : Proper ((≡ₚ) ==> (=)) sumN.
Proof. intros l1 l2. apply sumN_Permutation. Qed.

Lemma sumN_sublist l1 l2 : sublist l1 l2 -> sumN l1 <= sumN l2.
Proof. induction 1; simpl; lia. Qed.

Lemma Qltb_lt x y : Qltb x y = true <-> (x < y)%Q.
Proof.
  unfold Qltb. rewrite Qlt_alt. destruct (x ?= y)%Q; split; congruence.
Qed.

Lemma Qltb_ge x y : Qltb x y = false <-> (y <= x)%Q.
Proof.
  rewrite <- not_true_iff_false, Qltb_lt. split.
  - apply Qnot_lt_le.
  - intros ? ?. by eapply Qlt_not_le.
Qed.

Lemma QofN_le n m : n <= m <-> (QofN n <= QofN m)%Q.
Proof. unfold QofN. rewrite <- Zle_Qle. lia. Qed.

(** ** Dictionaries *)

Lemma dict_get_None {V} (d : dict V) k : dict_get d k = None <-> k ∉ keys d.
Proof.
  induction d as [|[k' v] d IH]; simpl.
  - split; [intros _; apply not_elem_of_nil | done].
  - rewrite not_elem_of_cons. case_decide as Hk.
    + split; [done|]. intros [? _]. congruence.
    + rewrite IH. split; [done|]. by intros [_ ?].
Qed.

Lemma dict_get_is_Some {V} (d : dict V) k : k ∈ keys d -> is_Some (dict_get d k).
Proof.
  intros Hk. destruct (dict_get d k) eqn:E; [eauto|].
  by apply dict_get_None in E.
Qed.

(** The lookups of [candidate_size_of] on a combination of keys succeed. *)
Lemma candidate_lookup {V} (d : dict V) (c : list string) id :
  sublist c (keys d) -> id ∈ c -> is_Some (dict_get d id).
Proof. intros Hc Hid. apply dict_get_is_Some. by eapply elem_of_sublist. Qed.

Lemma dict_set_fresh {V} (d : dict V) k v :
  k ∉ keys d -> dict_set d k v = d ++ [(k, v)].
Proof.
  induction d as [|[k' v'] d IH]; simpl; [done|].
  rewrite not_elem_of_cons. intros [Hne Hk].
  case_decide; [congruence|]. by rewrite IH.
Qed.

Lemma keys_dict_set_present {V} (d : dict V) k v :
  k ∈ keys d -> keys (dict_set d k v) = keys d.
Proof.
  induction d as [|[k' v'] d IH]; simpl.
  - by intros ?%elem_of_nil.
  - intros Hk. case_decide; simpl; [done|].
    f_equal. apply IH. apply elem_of_cons in Hk as [?|?]; [congruence|done].
Qed.

Lemma NoDup_keys_dict_set {V} (d : dict V) k v :
  NoDup (keys d) -> NoDup (keys (dict_set d k v)).
Proof.
  intros Hd. destruct (decide (k ∈ keys d)) as [Hk|Hk].
  - by rewrite keys_dict_set_present.
  - rewrite dict_set_fresh by done. unfold keys. rewrite map_app. simpl.
    apply NoDup_app. split_and!; [done| |apply NoDup_singleton].
    intros x Hx ->%list_elem_of_singleton. done.
Qed.

Lemma total_dict_set (d : dict N) k v :
  sumN (values (dict_set d k v)) <= sumN (values d) + v.
Proof.
  induction d as [|[k' v'] d IH]; simpl; [lia|].
  case_decide; simpl; lia.
Qed.

Lemma dict_of_items_acc {V} (acc items : list (string * V)) :
  NoDup (keys (acc ++ items)) ->
  foldl (fun d kv => dict_set d kv.1 kv.2) acc items = acc ++ items.
Proof.
  revert acc. induction items as [|[k v] items IH]; intros acc Hnd; simpl.
  - by rewrite app_nil_r.
  - rewrite dict_set_fresh.
    + rewrite IH; rewrite <- app_assoc; done.
    + unfold keys in Hnd. rewrite map_app in Hnd. simpl in Hnd.
      apply NoDup_app in Hnd as (_ & Hdisj & _).
      intros Hk. apply (Hdisj k Hk). left.
Qed.

Lemma dict_of_items_NoDup_id {V} (items : list (string * V)) :
  NoDup (keys items) -> dict_of_items items = items.
Proof. intros Hnd. unfold dict_of_items. by rewrite dict_of_items_acc. Qed.

Lemma dict_of_items_NoDup {V} (items : list (string * V)) :
  NoDup (keys (dict_of_items items)).
Proof.
  unfold dict_of_items.
  cut (forall acc : dict V, NoDup (keys acc) ->
         NoDup (keys (foldl (fun d kv => dict_set d kv.1 kv.2) acc items))).
  { intros Hc. apply Hc. constructor. }
  induction items as [|[k v] items IH]; intros acc Hacc; simpl; [done|].
  apply IH. by apply NoDup_keys_dict_set.
Qed.

Lemma dict_of_items_total (items : list (string * N)) :
  sumN (values (dict_of_items items)) <= sumN (values items).
Proof.
  unfold dict_of_items.
  cut (forall acc : dict N,
         sumN (values (foldl (fun d kv => dict_set d kv.1 kv.2) acc items))
         <= sumN (values acc) + sumN (values items)).
  { intros Hc. specialize (Hc []). simpl in Hc. lia. }
  induction items as [|[k v] items IH]; intros acc; simpl; [lia|].
  etrans; [apply IH|]. pose proof (total_dict_set acc k v). lia.
Qed.

Lemma insert_desc_Permutation x l : insert_desc x l ≡ₚ x :: l.
Proof.
  induction l as [|y l IH]; simpl; [done|].
  case_match; [|done]. rewrite IH. apply Permutation_swap.
Qed.

Lemma sorted_desc_Permutation items : sorted_desc items ≡ₚ items.
Proof.
  induction items as [|x items IH]; simpl; [done|].
  by rewrite insert_desc_Permutation, IH.
Qed.

(** ** Combinations *)

Lemma elem_of_combinations {A} (l c : list A) r :
  c ∈ combinations l r <-> sublist c l /\ length c = r.
Proof.
  revert c r. induction l as [|x l IH]; intros c r.
  - destruct r; simpl.
    + rewrite list_elem_of_singleton. split.
      * intros ->. split; [constructor|done].
      * intros [_ Hlen]. by apply nil_length_inv.
    + split; [by intros ?%elem_of_nil|].
      intros [Hs Hlen]. apply sublist_nil_r in Hs. subst. done.
  - destruct r; simpl.
    + rewrite list_elem_of_singleton. split.
      * intros ->. split; [apply sublist_nil_l|done].
      * intros [_ Hlen]. by apply nil_length_inv.
    + rewrite elem_of_app, list_elem_of_fmap. setoid_rewrite IH. split.
      * intros [(c' & -> & Hs & Hlen)|[Hs Hlen]].
        -- split; [by constructor|simpl; lia].
        -- split; [by constructor|done].
      * intros [Hs Hlen]. apply sublist_cons_r in Hs as [Hs|(c' & -> & Hs)].
        -- by right.
        -- left. exists c'. simpl in Hlen. split_and!; [done|done|lia].
Qed.

Lemma foldl_nested {A B C} (f : A -> C -> A) (g : B -> list C) (a : A) (rs : list B) :
  foldl (fun st r => foldl f st (g r)) a rs = foldl f a (concat (map g rs)).
Proof.
  revert a. induction rs as [|r rs IH]; intros a; simpl; [done|].
  by rewrite foldl_app, IH.
Qed.

Lemma elem_of_all_candidates {A} (l c : list A) :
  c ∈ all_candidates l <-> sublist c l /\ c <> [].
Proof.
  unfold all_candidates. rewrite list_elem_of_In, in_concat. split.
  - intros (cs & Hcs & Hc). apply in_map_iff in Hcs as (r & <- & Hr).
    apply in_seq in Hr. apply list_elem_of_In, elem_of_combinations in Hc as [Hs Hlen].
    split; [done|]. intros ->. simpl in Hlen. lia.
  - intros [Hs Hne]. exists (combinations l (length c)). split.
    + apply in_map_iff. exists (length c). split; [done|].
      apply in_seq. apply sublist_length in Hs.
      destruct c; [done|]. simpl in *. lia.
    + by apply list_elem_of_In, elem_of_combinations.
Qed.

(** ** The search loop *)

Lemma elem_of_snoc {A} (l : list A) x y : x ∈ l ++ [y] <-> x ∈ l \/ x = y.
Proof. by rewrite elem_of_app, list_elem_of_singleton. Qed.

Section Search.
Variable module_sizes : dict N.
Variable min_memory_offload : Q.

Lemma search_step_inv seen st c :
  search_inv module_sizes min_memory_offload seen st ->
  search_inv module_sizes min_memory_offload (seen ++ [c])
             (search_step module_sizes min_memory_offload st c).
Proof.
  unfold search_inv, search_step. intros Hinv.
  destruct (Qltb (QofN (candidate_size_of module_sizes c)) min_memory_offload) eqn:Hlt.
  - apply Qltb_lt in Hlt.
    assert (~ (min_memory_offload <= QofN (candidate_size_of module_sizes c))%Q) as Hnf
      by (by apply Qlt_not_le).
    destruct (best_candidate st) as [b|].
    + destruct Hinv as (Hsz & Hb & Hfb & Hmin). split_and!; [done| |done|].
      * apply elem_of_app. by left.
      * intros c' [?| ->]%elem_of_snoc ?; [by apply Hmin|done].
    + destruct Hinv as [Hsz Hnone]. split; [done|].
      intros c' [?| ->]%elem_of_snoc; [by apply Hnone|done].
  - apply Qltb_ge in Hlt. destruct (best_candidate st) as [b|] eqn:Hbest.
    + destruct Hinv as (Hsz & Hb & Hfb & Hmin). rewrite Hsz.
      rewrite bool_decide_eq_false_2 by done. simpl.
      destruct (candidate_size_of module_sizes c <? candidate_size_of module_sizes b)
        eqn:Hcmp; simpl.
      * apply N.ltb_lt in Hcmp. split_and!; [done| |done|].
        -- apply elem_of_app. right. by apply list_elem_of_singleton.
        -- intros c' [Hc'| ->]%elem_of_snoc Hf; [|lia].
           specialize (Hmin c' Hc' Hf). lia.
      * apply N.ltb_ge in Hcmp. rewrite Hbest. split_and!; [done| |done|].
        -- apply elem_of_app. by left.
        -- intros c' [Hc'| ->]%elem_of_snoc Hf; [by apply Hmin|done].
    + rewrite bool_decide_eq_true_2 by done. simpl. split_and!; [done| |done|].
      * apply elem_of_app. right. by apply list_elem_of_singleton.
      * destruct Hinv as [_ Hnone].
        intros c' [Hc'| ->]%elem_of_snoc Hf; [|lia].
        by destruct (Hnone c' Hc').
Qed.

Lemma search_fold_inv cands seen st :
  search_inv module_sizes min_memory_offload seen st ->
  search_inv module_sizes min_memory_offload (seen ++ cands)
             (foldl (search_step module_sizes min_memory_offload) st cands).
Proof.
  revert seen st. induction cands as [|c cands IH]; intros seen st Hinv; simpl.
  - by rewrite app_nil_r.
  - replace (seen ++ c :: cands) with ((seen ++ [c]) ++ cands)
      by (by rewrite <- app_assoc).
    apply IH. by apply search_step_inv.
Qed.

(** The result of [search_best_candidate]: [None] exactly when no non-empty
    combination of keys reaches [min_memory_offload], and otherwise a
    combination that reaches it and has the least total size among those. *)
Lemma search_best_candidate_spec :
  match search_best_candidate module_sizes min_memory_offload with
  | None =>
      forall c, sublist c (keys module_sizes) -> c <> [] ->
                ~ (min_memory_offload <= QofN (candidate_size_of module_sizes c))%Q
  | Some b =>
      sublist b (keys module_sizes) /\ b <> [] /\
      (min_memory_offload <= QofN (candidate_size_of module_sizes b))%Q /\
      forall c, sublist c (keys module_sizes) -> c <> [] ->
                (min_memory_offload <= QofN (candidate_size_of module_sizes c))%Q ->
                candidate_size_of module_sizes b <= candidate_size_of module_sizes c
  end.
Proof.
  unfold search_best_candidate. rewrite foldl_nested.
  fold (all_candidates (keys module_sizes)).
  pose proof (search_fold_inv (all_candidates (keys module_sizes)) [] (mkSearch None Inf))
    as Hinv.
  unfold search_inv at 1 in Hinv. simpl in Hinv.
  specialize (Hinv (conj eq_refl (fun c Hc => False_ind _ (proj1 (elem_of_nil c) Hc)))).
  unfold search_inv in Hinv.
  destruct (best_candidate _) as [b|].
  - destruct Hinv as (_ & Hb & Hfb & Hmin).
    apply elem_of_all_candidates in Hb as [Hs Hne]. split_and!; [done..|].
    intros c Hc Hcne. apply Hmin. by apply elem_of_all_candidates.
  - destruct Hinv as [_ Hnone]. intros c Hc Hcne. apply Hnone.
    by apply elem_of_all_candidates.
Qed.
End Search.

(** ** Sizes of candidates as sums over the dictionary *)

Lemma filter_ext_elem {A} (P Q : A -> Prop) `{!forall x, Decision (P x), !forall x, Decision (Q x)}
    (l : list A) :
  (forall x, x ∈ l -> P x <-> Q x) -> filter P l = filter Q l.
Proof.
  induction l as [|x l IH]; intros Hext; [done|].
  rewrite !filter_cons. rewrite IH by (intros y Hy; apply Hext; by right).
  apply decide_ext. apply Hext. left.
Qed.

Lemma total_filter_key_eq (d : dict N) k :
  NoDup (keys d) ->
  sumN (values (filter (fun kv => kv.1 = k) d)) = default 0 (dict_get d k).
Proof.
  induction d as [|[k' v] d IH]; [done|].
  intros [Hk' Hnd]%NoDup_cons. rewrite filter_cons. simpl.
  case_decide as Hk; simpl in *.
  - subst k'. apply dict_get_None in Hk'.
    rewrite IH, Hk' by done. simpl. lia.
  - by apply IH.
Qed.

Lemma total_filter_key_cons (d : dict N) k ks :
  k ∉ ks ->
  sumN (values (filter (fun kv => kv.1 ∈ k :: ks) d))
  = sumN (values (filter (fun kv => kv.1 = k) d))
    + sumN (values (filter (fun kv => kv.1 ∈ ks) d)).
Proof.
  intros Hk. induction d as [|[k' v] d IH]; [done|].
  rewrite !filter_cons. simpl.
  destruct (decide (k' = k)) as [->|Hne].
  - rewrite decide_True by left. rewrite (decide_False (P := k ∈ ks)) by done.
    simpl. lia.
  - destruct (decide (k' ∈ ks)) as [Hin|Hnin].
    + rewrite decide_True by (by right). simpl. lia.
    + rewrite decide_False; [done|]. by apply not_elem_of_cons.
Qed.

Lemma candidate_size_filter (d : dict N) ks :
  NoDup ks -> NoDup (keys d) ->
  candidate_size_of d ks = sumN (values (filter (fun kv => kv.1 ∈ ks) d)).
Proof.
  intros Hks Hd. induction Hks as [|k ks Hk Hks IH]; simpl.
  - symmetry.
    replace (filter (fun kv : string * N => kv.1 ∈ []) d) with (@nil (string * N)); [done|].
    symmetry. induction d as [|kv d IHd]; [done|].
    rewrite filter_cons. rewrite decide_False by apply not_elem_of_nil.
    apply IHd. by apply NoDup_cons in Hd as [_ ?].
  - unfold candidate_size_of in *. simpl.
    rewrite total_filter_key_cons, total_filter_key_eq, IH by done. done.
Qed.

Lemma candidate_size_Permutation (d : dict N) ks1 ks2 :
  ks1 ≡ₚ ks2 -> candidate_size_of d ks1 = candidate_size_of d ks2.
Proof.
  intros Hp. unfold candidate_size_of. apply sumN_Permutation.
  by apply Permutation_map.
Qed.

Lemma total_filter_Permutation (d1 d2 : dict N) (P : string * N -> Prop)
    `{!forall kv, Decision (P kv)} :
  d1 ≡ₚ d2 -> sumN (values (filter P d1)) = sumN (values (filter P d2)).
Proof.
  intros Hp. apply sumN_Permutation. unfold values. apply Permutation_map.
  by rewrite Hp.
Qed.

Lemma total_filter_le (d : dict N) (P : string * N -> Prop) `{!forall kv, Decision (P kv)} :
  sumN (values (filter P d)) <= sumN (values d).
Proof.
  apply sumN_sublist. unfold values.
  apply (fmap_sublist snd). apply sublist_filter.
Qed.

(** ** The strategy *)

Section StrategyFacts.
Context {Hook : Type}.
Variable hook_model_id : Hook -> string.
Variable hook_footprint : Hook -> N.

Let items (hooks : list Hook) : list (string * N) :=
  map (fun hook => (hook_model_id hook, hook_footprint hook)) hooks.

Lemma keys_items hooks : keys (items hooks) = map hook_model_id hooks.
Proof. unfold keys, items. rewrite map_map. done. Qed.

Lemma values_items hooks : values (items hooks) = map hook_footprint hooks.
Proof. unfold values, items. rewrite map_map. done. Qed.

Lemma build_module_sizes_NoDup hooks :
  NoDup (keys (build_module_sizes hook_model_id hook_footprint hooks)).
Proof. apply dict_of_items_NoDup. Qed.

Lemma build_module_sizes_Permutation hooks :
  build_module_sizes hook_model_id hook_footprint hooks ≡ₚ dict_of_items (items hooks).
Proof.
  unfold build_module_sizes. fold (items hooks).
  rewrite dict_of_items_NoDup_id.
  - apply sorted_desc_Permutation.
  - unfold keys. rewrite (sorted_desc_Permutation (dict_of_items (items hooks))).
    apply dict_of_items_NoDup.
Qed.

Lemma build_module_sizes_total hooks :
  sumN (values (build_module_sizes hook_model_id hook_footprint hooks))
  <= total_footprint hook_footprint hooks.
Proof.
  unfold values. rewrite (build_module_sizes_Permutation hooks).
  etrans; [apply dict_of_items_total|]. by rewrite values_items.
Qed.

Lemma total_filter_items hooks (ks : list string) :
  total_footprint hook_footprint (filter (fun hook => hook_model_id hook ∈ ks) hooks)
  = sumN (values (filter (fun kv => kv.1 ∈ ks) (items hooks))).
Proof.
  unfold total_footprint. induction hooks as [|h hooks IH]; [done|].
  cbn [items map]. rewrite !filter_cons. simpl. case_decide; simpl; by rewrite IH.
Qed.

Lemma filter_ids_sublist hooks s :
  NoDup (map hook_model_id hooks) -> sublist s hooks ->
  filter (fun hook => hook_model_id hook ∈ map hook_model_id s) hooks = s.
Proof.
  intros Hnd Hs. induction Hs as [|h s hooks Hs IH|h s hooks Hs IH].
  - done.
  - cbn [map] in *. apply NoDup_cons in Hnd as [Hh Hnd]. rewrite filter_cons.
    rewrite decide_True by left. f_equal. etrans; [|by apply IH].
    apply filter_ext_elem. intros h' Hh'. split; [|by right].
    intros [Heq|?]%elem_of_cons; [|done].
    destruct Hh. rewrite <- Heq. by apply (list_elem_of_fmap_2 hook_model_id).
  - cbn [map] in *. apply NoDup_cons in Hnd as [Hh Hnd]. rewrite filter_cons.
    rewrite decide_False; [by apply IH|].
    intros Hin. apply Hh. eapply elem_of_sublist; [exact Hin|].
    by apply (fmap_sublist hook_model_id).
Qed.

Lemma total_filter_candidate hooks ks :
  NoDup (map hook_model_id hooks) -> NoDup ks ->
  total_footprint hook_footprint (filter (fun hook => hook_model_id hook ∈ ks) hooks)
  = candidate_size_of (build_module_sizes hook_model_id hook_footprint hooks) ks.
Proof.
  intros Hnd Hks. rewrite total_filter_items.
  rewrite candidate_size_filter by (done || apply build_module_sizes_NoDup).
  symmetry. apply total_filter_Permutation.
  rewrite build_module_sizes_Permutation.
  rewrite dict_of_items_NoDup_id; [done|]. by rewrite keys_items.
Qed.

Lemma keys_build_module_sizes hooks :
  NoDup (map hook_model_id hooks) ->
  keys (build_module_sizes hook_model_id hook_footprint hooks) ≡ₚ map hook_model_id hooks.
Proof.
  intros Hnd. unfold keys. rewrite build_module_sizes_Permutation.
  rewrite dict_of_items_NoDup_id by (by rewrite keys_items).
  by rewrite <- keys_items.
Qed.

(** Every subset of the hooks is tried by the search, as a combination of
    keys of the same total size. *)
Lemma candidate_of_submseteq hooks sub :
  NoDup (map hook_model_id hooks) -> sub ⊆+ hooks -> sub <> [] ->
  exists c,
    sublist c (keys (build_module_sizes hook_model_id hook_footprint hooks)) /\
    c <> [] /\
    candidate_size_of (build_module_sizes hook_model_id hook_footprint hooks) c
    = total_footprint hook_footprint sub.
Proof.
  intros Hnd Hsub Hne.
  apply submseteq_sublist_r in Hsub as (s & Hperm & Hs).
  assert (map hook_model_id s ⊆+
            keys (build_module_sizes hook_model_id hook_footprint hooks)) as Hids.
  { rewrite keys_build_module_sizes by done.
    apply sublist_submseteq. by apply (fmap_sublist hook_model_id). }
  apply submseteq_sublist_r in Hids as (c & Hc & Hcs).
  exists c. split_and!; [done| |].
  - intros ->. apply Permutation_nil_r in Hc.
    destruct s; [|done]. by apply Permutation_nil_r in Hperm.
  - rewrite <- (candidate_size_Permutation _ _ _ Hc).
    rewrite <- total_filter_candidate; [|done|].
    + rewrite filter_ids_sublist by done. unfold total_footprint.
      apply sumN_Permutation, Permutation_map. by symmetry.
    + exact (sublist_NoDup _ _ Hnd (fmap_sublist hook_model_id _ _ Hs)).
Qed.

(** The selection for a given deficit, when ids are distinct and some
    non-empty subset reaches the deficit. *)
Lemma select_min_cover hooks (min_memory_offload : Q) :
  NoDup (map hook_model_id hooks) ->
  (exists sub, sub <> [] /\ sub ⊆+ hooks /\
               (min_memory_offload <= QofN (total_footprint hook_footprint sub))%Q) ->
  let selected :=
    (select_hooks_to_offload hook_model_id hook_footprint hooks min_memory_offload).1 in
  sublist selected hooks /\ selected <> [] /\
  (min_memory_offload <= QofN (total_footprint hook_footprint selected))%Q /\
  forall sub, sub <> [] -> sub ⊆+ hooks ->
              (min_memory_offload <= QofN (total_footprint hook_footprint sub))%Q ->
              total_footprint hook_footprint selected <= total_footprint hook_footprint sub.
Proof.
  intros Hnd (sub0 & Hne0 & Hsub0 & Hf0). unfold select_hooks_to_offload.
  set (ms := build_module_sizes hook_model_id hook_footprint hooks).
  pose proof (search_best_candidate_spec ms min_memory_offload) as Hspec.
  destruct (search_best_candidate ms min_memory_offload) as [b|]; simpl.
  - destruct Hspec as (Hb & Hbne & Hfb & Hmin).
    assert (NoDup b) as Hbnd.
    { exact (sublist_NoDup _ _ (build_module_sizes_NoDup hooks) Hb). }
    rewrite total_filter_candidate by done. fold ms. split_and!.
    + apply sublist_filter.
    + destruct b as [|k b]; [done|].
      assert (k ∈ map hook_model_id hooks) as Hk.
      { rewrite <- keys_build_module_sizes by done.
        eapply elem_of_sublist; [|exact Hb]. left. }
      apply list_elem_of_fmap in Hk as (h & -> & Hh).
      intros Hnil.
      assert (h ∈ filter (fun hook => hook_model_id hook ∈ hook_model_id h :: b) hooks)
        as Hin.
      { apply list_elem_of_filter. split; [left|done]. }
      rewrite Hnil in Hin. by apply elem_of_nil in Hin.
    + done.
    + intros sub Hne Hsub Hf.
      destruct (candidate_of_submseteq hooks sub Hnd Hsub Hne) as (c & Hc & Hcne & Hsz).
      fold ms in Hc, Hsz. rewrite <- Hsz. apply Hmin; [done..|]. by rewrite Hsz.
  - destruct (candidate_of_submseteq hooks sub0 Hnd Hsub0 Hne0) as (c & Hc & Hcne & Hsz).
    fold ms in Hc, Hsz. destruct (Hspec c Hc Hcne). by rewrite Hsz.
Qed.

(** Without any assumption on the ids: when even all hooks together stay
    below the deficit, the search finds nothing and all hooks are returned. *)
Lemma select_fallback hooks (min_memory_offload : Q) :
  (QofN (total_footprint hook_footprint hooks) < min_memory_offload)%Q ->
  select_hooks_to_offload hook_model_id hook_footprint hooks min_memory_offload
  = (hooks, [InfoSearch min_memory_offload; WarnOffloadAll]).
Proof.
  intros Hlt. unfold select_hooks_to_offload.
  set (ms := build_module_sizes hook_model_id hook_footprint hooks).
  pose proof (search_best_candidate_spec ms min_memory_offload) as Hspec.
  destruct (search_best_candidate ms min_memory_offload) as [b|]; [|done].
  destruct Hspec as (Hb & Hbne & Hfb & _). exfalso.
  apply (Qlt_not_le _ _ Hlt). eapply Qle_trans; [exact Hfb|]. apply QofN_le.
  rewrite candidate_size_filter.
  - etrans; [apply total_filter_le|]. apply build_module_sizes_total.
  - exact (sublist_NoDup _ _ (build_module_sizes_NoDup hooks) Hb).
  - apply build_module_sizes_NoDup.
Qed.
End StrategyFacts.

(* ===================================================================== *)
(** * The strategy: fast path, minimal cover, fallback *)

Section StrategyClaims.
Context {Hook : Type}.
Variable hook_model_id : Hook -> string.
Variable hook_footprint : Hook -> N.
Variable fl : Q -> Q.
Variable mem_get_info : option nat -> N.

(** Below the free memory the strategy returns at once: nothing is
    selected and no record is logged, so line 184, where the search
    starts, is not reached. *)
Lemma call_fast_path self hooks id model dev :
  (current_module_size fl self model < QofN (mem_get_info (dev_index dev)))%Q ->
  AutoOffloadStrategy_call hook_model_id hook_footprint fl mem_get_info self hooks id model dev
  = ([], []).
Proof.
  intros Hlt. unfold AutoOffloadStrategy_call.
  case_bool_decide; [done|]. apply Qltb_lt in Hlt. by rewrite Hlt.
Qed.

(** Past the two early returns the strategy is the search for the deficit
    of line 183. *)
Lemma call_search self hooks id model dev :
  hooks <> [] ->
  (QofN (mem_get_info (dev_index dev)) <= current_module_size fl self model)%Q ->
  AutoOffloadStrategy_call hook_model_id hook_footprint fl mem_get_info self hooks id model dev
  = select_hooks_to_offload hook_model_id hook_footprint hooks
      (min_memory_offload_of fl mem_get_info self model dev).
Proof.
  intros Hne Hle. unfold AutoOffloadStrategy_call.
  rewrite bool_decide_eq_false_2 by (by destruct hooks).
  apply Qltb_ge in Hle. by rewrite Hle.
Qed.

(** C1.  Take candidates with distinct ids and a call that gets past the
    fast path (the free memory is at most the footprint with margin), and let
    [deficit] be the difference the code computes on line 183.  If some
    non-empty subset of the candidates has total footprint at least
    [deficit], the selection returned by the strategy is a non-empty subset
    of the candidates, its total footprint is at least [deficit], and no
    non-empty subset of total footprint at least [deficit] has a smaller
    total. *)
Theorem strategy_selects_minimal_cover self hooks id model dev :
  hooks <> [] ->
  NoDup (map hook_model_id hooks) ->
  (QofN (mem_get_info (dev_index dev)) <= current_module_size fl self model)%Q ->
  let deficit := min_memory_offload_of fl mem_get_info self model dev in
  (exists sub, sub <> [] /\ sub ⊆+ hooks /\
               (deficit <= QofN (total_footprint hook_footprint sub))%Q) ->
  let selected :=
    (AutoOffloadStrategy_call hook_model_id hook_footprint fl mem_get_info
       self hooks id model dev).1 in
  sublist selected hooks /\ selected <> [] /\
  (deficit <= QofN (total_footprint hook_footprint selected))%Q /\
  forall sub, sub <> [] -> sub ⊆+ hooks ->
              (deficit <= QofN (total_footprint hook_footprint sub))%Q ->
              total_footprint hook_footprint selected <= total_footprint hook_footprint sub.
Proof.
  intros Hne Hnd Hpast deficit Hfeasible selected. subst selected.
  rewrite call_search by done. by apply select_min_cover.
Qed.

(** C3.  Past the fast path, when the total footprint of all candidates is
    below the deficit of line 183, the strategy returns all candidates, in
    the order it was given them. *)
Theorem strategy_falls_back_to_all self hooks id model dev :
  hooks <> [] ->
  (QofN (mem_get_info (dev_index dev)) <= current_module_size fl self model)%Q ->
  (QofN (total_footprint hook_footprint hooks)
   < min_memory_offload_of fl mem_get_info self model dev)%Q ->
  (AutoOffloadStrategy_call hook_model_id hook_footprint fl mem_get_info
     self hooks id model dev).1 = hooks.
Proof.
  intros Hne Hpast Hlt. rewrite call_search by done. by rewrite select_fallback.
Qed.
End StrategyClaims.

(* ===================================================================== *)
(** * The interceptor *)

Lemma placed_on_idemp current d :
  placed_on current (placed_on current d) = placed_on current d.
Proof.
  unfold placed_on. destruct (bool_decide (dev_type d = "cpu")) eqn:Hc; [done|].
  destruct (dev_index d) as [i|] eqn:Hi; simpl; rewrite Hc; [by rewrite Hi|done].
Qed.

Lemma placed_on_cpu current : placed_on current cpu = cpu.
Proof. done. Qed.

Lemma send_to_device_on_device current args dev :
  Forall (fun a => match a with
                   | Tensor _ d => d = placed_on current dev
                   | Plain _ => True
                   end) args ->
  send_to_device current args dev = args.
Proof.
  induction 1 as [|a args Ha _ IH]; [done|].
  unfold send_to_device in *. simpl. rewrite IH.
  destruct a; simpl; [by subst|done].
Qed.

Lemma lookup_module_to_ne module dev w j :
  j <> module -> modules (module_to module dev w) !! j = modules w !! j.
Proof. intros Hne. simpl. by apply list_lookup_alter_ne. Qed.

Section InterceptorClaims.
Variable fl : Q -> Q.
Variable mem_get_info : option nat -> N.

(** C2, amended.  When the owner's footprint with margin is strictly below
    the free memory of the target device, the strategy selects nothing and
    logs nothing (the search of line 184 onwards is not entered), and
    [pre_forward] moves the invoked module only: every other module of the
    store is left as it is and the device cache is not cleared. *)
Theorem fast_path_moves_no_peer self module args kwargs w uh m strategy others peers :
  user_hooks w !! self = Some uh ->
  modules w !! module = Some m ->
  device m <> execution_device (hook uh) ->
  offload_strategy (hook uh) = Some strategy ->
  other_hooks (hook uh) = Some others ->
  resolve_peers w others = Some peers ->
  (current_module_size fl strategy m
   < QofN (mem_get_info (dev_index (execution_device (hook uh)))))%Q ->
  let dev := execution_device (hook uh) in
  let candidates := filter (fun p => device p.2 = dev) peers in
  AutoOffloadStrategy_call peer_model_id peer_footprint fl mem_get_info strategy candidates
    (owner_model_id (hook uh)) m dev = ([], []) /\
  exists w',
    pre_forward fl mem_get_info self module args kwargs w
    = Some ((send_to_device (current_device w) args dev,
             send_kwargs_to_device (current_device w) kwargs dev), w') /\
    (forall j, j <> module -> modules w' !! j = modules w !! j) /\
    cache_clears w' = cache_clears w.
Proof.
  intros Hself Hmod Hdev Hstrat Hothers Hpeers Hlt dev candidates.
  assert (AutoOffloadStrategy_call peer_model_id peer_footprint fl mem_get_info strategy
            candidates (owner_model_id (hook uh)) m dev = ([], [])) as Hcall
    by (by apply call_fast_path).
  split; [done|].
  unfold pre_forward. rewrite Hself, Hmod.
  rewrite decide_True by done. rewrite Hothers, Hpeers, Hstrat.
  fold dev candidates. rewrite Hcall. simpl.
  eexists. split; [reflexivity|]. split; [|done].
  intros j Hj. by rewrite lookup_module_to_ne.
Qed.

(** C8, amended.  When the module is already on the execution device,
    [pre_forward] leaves the whole store as it is (no module is moved,
    nothing is logged, no cache is cleared) and forwards the arguments sent
    to the execution device; arguments that are already there (on the device
    torch reports for it), and values without a device, are forwarded
    unchanged. *)
Theorem on_device_forwards_args_on_device self module args kwargs w uh m :
  user_hooks w !! self = Some uh ->
  modules w !! module = Some m ->
  device m = execution_device (hook uh) ->
  pre_forward fl mem_get_info self module args kwargs w
  = Some ((send_to_device (current_device w) args (device m),
           send_kwargs_to_device (current_device w) kwargs (device m)), w) /\
  (Forall (fun a => match a with
                    | Tensor _ d => d = placed_on (current_device w) (device m)
                    | Plain _ => True
                    end) args ->
   send_to_device (current_device w) args (device m) = args).
Proof.
  intros Hself Hmod Hdev. split; [|apply send_to_device_on_device].
  unfold pre_forward. rewrite Hself, Hmod.
  rewrite decide_False by (by intros []). by rewrite Hdev.
Qed.
End InterceptorClaims.

(* ===================================================================== *)
(** * The registry *)

(** C5.  [remove] of an id that is not registered raises [KeyError] and
    leaves the manager and every object of the store as they were. *)
Theorem remove_unknown_id_raises self id w :
  id ∉ keys (models self) ->
  remove self id w = (Raise (KeyError id), (self, w)).
Proof.
  intros Hid. unfold remove, dict_pop.
  apply dict_get_None in Hid. by rewrite Hid.
Qed.

(** C6.  [add] with an id that is already registered returns without any
    change: the manager (so the binding of the id and the order of the
    entries) and the store (so every hook) are as before. *)
Theorem add_known_id_is_noop self id module w :
  id ∈ keys (models self) ->
  add self id module w = (Return tt, (self, w)) /\
  dict_get (models (add self id module w).2.1) id = dict_get (models self) id.
Proof.
  intros Hid. unfold add. rewrite bool_decide_eq_false_2; [done|].
  by intros Hn.
Qed.

(** C7.  After [disable_auto_cpu_offload] a second call changes nothing, no
    handle is held and the manager is inactive. *)
Theorem disable_twice_is_disable_once self w :
  let once := disable_auto_cpu_offload self w in
  disable_auto_cpu_offload once.1 once.2 = once /\
  model_hooks once.1 = None /\
  _auto_offload_enabled once.1 = false.
Proof.
  unfold disable_auto_cpu_offload.
  destruct (model_hooks self) as [hooks|]; simpl; done.
Qed.

(** C10.  [__repr__] of a manager without models raises [ValueError]: the
    inner [max] of line 287 is taken over no ids. *)
Theorem repr_of_empty_manager_raises self w :
  models self = [] ->
  ModelManager_repr self w = Some (Raise (ValueError "max() arg is an empty sequence")).
Proof. intros Hm. unfold ModelManager_repr. by rewrite Hm. Qed.

(** ** Creating and wiring the handles *)

Lemma custom_offload_with_hook_spec id module dev strategy w :
  (custom_offload_with_hook id module (Some dev) (Some strategy) w).1
  = length (user_hooks w) /\
  user_hooks (custom_offload_with_hook id module (Some dev) (Some strategy) w).2
  = user_hooks w ++ [fresh_handle dev strategy (id, module)].
Proof.
  split; [done|]. unfold custom_offload_with_hook, attach. simpl.
  rewrite list_lookup_middle by done. simpl.
  rewrite alter_app_r_alt by done. by rewrite Nat.sub_diag.
Qed.

Lemma create_hooks_spec dev strategy entries all_hooks w :
  (create_hooks dev strategy entries (all_hooks, w)).1
  = all_hooks ++ seq (length (user_hooks w)) (length entries) /\
  user_hooks (create_hooks dev strategy entries (all_hooks, w)).2
  = user_hooks w ++ map (fresh_handle dev strategy) entries.
Proof.
  revert all_hooks w. induction entries as [|[id module] entries IH]; intros all_hooks w.
  - simpl. by rewrite !app_nil_r.
  - unfold create_hooks in *. cbn [foldl].
    destruct (custom_offload_with_hook_spec id module dev strategy w) as [Hh Hw].
    destruct (custom_offload_with_hook (id, module).1 (id, module).2 (Some dev)
                (Some strategy) w) as [h w1] eqn:Hc.
    simpl in Hc. rewrite Hc in Hh, Hw. simpl in Hh, Hw. subst h.
    destruct (IH (all_hooks ++ [length (user_hooks w)]) w1) as [IH1 IH2].
    rewrite IH1, IH2, Hw. rewrite length_app. simpl.
    rewrite <- !app_assoc. simpl. by rewrite Nat.add_1_r.
Qed.

Lemma modules_custom_offload_with_hook id module dev strategy w j :
  modules (custom_offload_with_hook id module dev strategy w).2 !! j
  = if decide (j = module)
    then (fun m => mkModule (class_name m) cpu (dtype m) (parameters m) (buffers m)
                            (Some (OffloadHook (length (user_hooks w)))))
           <$> modules w !! j
    else modules w !! j.
Proof.
  unfold custom_offload_with_hook, attach. simpl.
  rewrite list_lookup_middle by done. simpl.
  case_decide as Hj.
  - subst j. rewrite !list_lookup_alter_eq. by destruct (modules w !! module).
  - by rewrite !list_lookup_alter_ne.
Qed.

Lemma create_hooks_modules_notin dev strategy entries all_hooks w j :
  j ∉ map snd entries ->
  modules (create_hooks dev strategy entries (all_hooks, w)).2 !! j = modules w !! j.
Proof.
  revert all_hooks w. induction entries as [|[id module] entries IH]; intros all_hooks w Hj.
  - done.
  - cbn [map snd] in Hj. apply not_elem_of_cons in Hj as [Hne Hj].
    unfold create_hooks in *. cbn [foldl].
    pose proof (modules_custom_offload_with_hook id module (Some dev) (Some strategy) w j)
      as Hstep.
    destruct (custom_offload_with_hook (id, module).1 (id, module).2 (Some dev)
                (Some strategy) w) as [h w1] eqn:Hc.
    simpl in Hc. rewrite Hc in Hstep. simpl in Hstep.
    rewrite IH by done. rewrite Hstep. by rewrite decide_False.
Qed.

(** After the loop of lines 257-260 every module of an entry carries the hook
    of one of the new handles. *)
Lemma create_hooks_attached dev strategy entries all_hooks w entry m :
  entry ∈ entries ->
  modules (create_hooks dev strategy entries (all_hooks, w)).2 !! entry.2 = Some m ->
  exists h, h ∈ seq (length (user_hooks w)) (length entries) /\
            _hf_hook m = Some (OffloadHook h).
Proof.
  revert all_hooks w entry.
  induction entries as [|[id module] entries IH]; intros all_hooks w entry Hin.
  - by apply elem_of_nil in Hin.
  - unfold create_hooks in *. cbn [foldl].
    pose proof (modules_custom_offload_with_hook id module (Some dev) (Some strategy) w
                  entry.2) as Hstep.
    destruct (custom_offload_with_hook_spec id module dev strategy w) as [Hh Hw].
    destruct (custom_offload_with_hook (id, module).1 (id, module).2 (Some dev)
                (Some strategy) w) as [h w1] eqn:Hc.
    simpl in Hc. rewrite Hc in Hstep, Hh, Hw. simpl in Hstep, Hh, Hw. subst h.
    intros Hm. destruct (decide (entry.2 ∈ map snd entries)) as [Hlater|Hnot].
    + apply list_elem_of_fmap in Hlater as (entry' & Heq & Hin').
      rewrite Heq in Hm. destruct (IH _ _ _ Hin' Hm) as (h & Hh & Hhook).
      exists h. split; [|done]. rewrite Hw, length_app in Hh. simpl in Hh.
      apply elem_of_seq in Hh. apply elem_of_seq. simpl. lia.
    + fold (create_hooks dev strategy entries (all_hooks ++ [length (user_hooks w)], w1)) in Hm.
      rewrite create_hooks_modules_notin in Hm by done.
      apply elem_of_cons in Hin as [->|Hin].
      * simpl in *. rewrite decide_True in Hstep by done. rewrite Hstep in Hm.
        destruct (modules w !! module); [|done]. simpl in Hm.
        injection Hm as <-. exists (length (user_hooks w)). split; [|done].
        simpl. left.
      * destruct Hnot. by apply (list_elem_of_fmap_2 snd).
Qed.

Lemma map_alter_absorb {A B} (g : A -> B) (f : A -> A) (l : list A) i :
  (forall x, g (f x) = g x) -> map g (alter f i l) = map g l.
Proof.
  intros Hgf. revert i. induction l as [|x l IH]; intros [|i]; simpl; [done..| |].
  - by rewrite Hgf.
  - f_equal. apply IH.
Qed.

Lemma hook_execution_device_strip w1 w2 h :
  map strip_peers (user_hooks w1) = map strip_peers (user_hooks w2) ->
  hook_execution_device w1 h = hook_execution_device w2 h.
Proof.
  intros Heq. unfold hook_execution_device.
  assert (map strip_peers (user_hooks w1) !! h = map strip_peers (user_hooks w2) !! h)
    as Hl by (by rewrite Heq).
  change (map strip_peers ?l) with (strip_peers <$> l) in Hl.
  rewrite !list_lookup_fmap in Hl.
  destruct (user_hooks w1 !! h), (user_hooks w2 !! h); simpl in Hl; try done.
  by inversion Hl.
Qed.

Lemma add_other_hook_strip h other w :
  map strip_peers (user_hooks (add_other_hook h other w)) = map strip_peers (user_hooks w).
Proof. simpl. by apply map_alter_absorb. Qed.

Lemma add_other_hook_peers h other w :
  is_Some (user_hooks w !! h) ->
  peer_handles (add_other_hook h other w) h = peer_handles w h ++ [other].
Proof.
  intros [uh Huh]. unfold peer_handles. simpl.
  rewrite list_lookup_alter_eq, Huh. simpl. done.
Qed.

Lemma add_other_hook_lookup_ne h other w h' :
  h' <> h -> user_hooks (add_other_hook h other w) !! h' = user_hooks w !! h'.
Proof. intros Hne. simpl. by apply list_lookup_alter_ne. Qed.

Lemma wire_one_spec h others w :
  is_Some (user_hooks w !! h) ->
  (forall o, o ∈ others -> hook_execution_device w o = hook_execution_device w h) ->
  map strip_peers (user_hooks (wire_one h others w)) = map strip_peers (user_hooks w) /\
  peer_handles (wire_one h others w) h = peer_handles w h ++ others /\
  (forall h', h' <> h -> user_hooks (wire_one h others w) !! h' = user_hooks w !! h') /\
  modules (wire_one h others w) = modules w.
Proof.
  revert w. induction others as [|o others IH]; intros w Hh Hdev.
  - simpl. by rewrite app_nil_r.
  - unfold wire_one in *. cbn [foldl].
    rewrite bool_decide_eq_true_2 by (apply Hdev; left).
    pose proof (add_other_hook_strip h o w) as Hstrip.
    destruct (IH (add_other_hook h o w)) as (IH1 & IH2 & IH3 & IH4).
    { simpl. rewrite list_lookup_alter_eq. destruct Hh as [uh ->]. by eexists. }
    { intros o' Ho'.
      rewrite (hook_execution_device_strip (add_other_hook h o w) w o') by done.
      rewrite (hook_execution_device_strip (add_other_hook h o w) w h) by done.
      apply Hdev. by right. }
    split_and!.
    + by rewrite IH1.
    + rewrite IH2, add_other_hook_peers by done. by rewrite <- app_assoc.
    + intros h' Hne. rewrite IH3 by done. by apply add_other_hook_lookup_ne.
    + by rewrite IH4.
Qed.

Lemma peer_handles_lookup w1 w2 h :
  user_hooks w1 !! h = user_hooks w2 !! h -> peer_handles w1 h = peer_handles w2 h.
Proof. unfold peer_handles. by intros ->. Qed.

Lemma wire_peers_spec all_hooks dev w :
  NoDup all_hooks ->
  (forall h, h ∈ all_hooks -> hook_execution_device w h = Some dev) ->
  map strip_peers (user_hooks (wire_peers all_hooks w)) = map strip_peers (user_hooks w) /\
  (forall h, h ∈ all_hooks ->
     peer_handles (wire_peers all_hooks w) h
     = peer_handles w h ++ filter (fun h' => h' <> h) all_hooks) /\
  modules (wire_peers all_hooks w) = modules w.
Proof.
  intros Hnd Hdev. unfold wire_peers.
  cut (forall hs w',
         NoDup hs -> (forall h, h ∈ hs -> h ∈ all_hooks) ->
         map strip_peers (user_hooks w') = map strip_peers (user_hooks w) ->
         let w'' := foldl (fun w h => wire_one h (filter (fun h' => h' <> h) all_hooks) w)
                          w' hs in
         map strip_peers (user_hooks w'') = map strip_peers (user_hooks w) /\
         (forall h, h ∈ hs ->
            peer_handles w'' h = peer_handles w' h ++ filter (fun h' => h' <> h) all_hooks) /\
         (forall h, h ∉ hs -> user_hooks w'' !! h = user_hooks w' !! h) /\
         modules w'' = modules w').
  { intros Hcut. destruct (Hcut all_hooks w Hnd) as (H1 & H2 & _ & H4); done. }
  clear Hnd. induction hs as [|h hs IH]; intros w' Hnd Hsub Hstrip; simpl.
  - split_and!; [done| |done|done]. by intros h ?%elem_of_nil.
  - apply NoDup_cons in Hnd as [Hh Hnd].
    assert (forall x, hook_execution_device w' x = hook_execution_device w x) as Hdev'
      by (intros x; by apply hook_execution_device_strip).
    assert (is_Some (user_hooks w' !! h)) as Hsome.
    { specialize (Hdev h (Hsub h ltac:(left))). rewrite <- Hdev' in Hdev.
      unfold hook_execution_device in Hdev. destruct (user_hooks w' !! h); [by eexists|done]. }
    destruct (wire_one_spec h (filter (fun h' => h' <> h) all_hooks) w' Hsome)
      as (W1 & W2 & W3 & W4).
    { intros o [_ Ho]%list_elem_of_filter. rewrite !Hdev'.
      rewrite (Hdev o Ho). symmetry. apply Hdev, Hsub. left. }
    set (w1 := wire_one h (filter (fun h' => h' <> h) all_hooks) w') in *.
    destruct (IH w1 Hnd) as (I1 & I2 & I3 & I4).
    { intros x Hx. apply Hsub. by right. }
    { by rewrite W1. }
    split_and!.
    + done.
    + intros x [->|Hx]%elem_of_cons.
      * rewrite <- W2. apply peer_handles_lookup. by apply I3.
      * rewrite I2 by done. f_equal. apply peer_handles_lookup, W3.
        intros ->. done.
    + intros x [Hne Hx]%not_elem_of_cons. rewrite I3 by done. by apply W3.
    + by rewrite I4.
Qed.

(** ** [enable_auto_cpu_offload] *)

Lemma models_disable self w :
  models (disable_auto_cpu_offload self w).1 = models self.
Proof. unfold disable_auto_cpu_offload. by destruct (model_hooks self). Qed.

Lemma lookup_created_handle (old : list UserCustomOffloadHook) dev strategy entries h :
  h ∈ seq (length old) (length entries) ->
  exists entry,
    entries !! (h - length old)%nat = Some entry /\
    (old ++ map (fresh_handle dev strategy) entries) !! h
    = Some (fresh_handle dev strategy entry).
Proof.
  intros [Hge Hlt]%elem_of_seq.
  destruct (lookup_lt_is_Some_2 entries (h - length old)%nat) as [entry Hentry]; [lia|].
  exists entry. split; [done|].
  rewrite lookup_app_r by lia.
  change (map ?f ?l) with (f <$> l). by rewrite list_lookup_fmap, Hentry.
Qed.

(** What [enable_auto_cpu_offload] leaves behind: the models are kept, there
    is one new handle per model, in the order of the models, each new handle
    is the one [custom_offload_with_hook] makes for its model, up to the
    peers, and the peers of a handle are all the other new handles. *)
Lemma enable_spec self dev margin w :
  exists base,
    let n := length (models self) in
    let r := enable_auto_cpu_offload self dev margin w in
    r.1 = mkManager (models self) (Some (seq base n)) true (Some (normalize_device dev)) /\
    (forall h, h ∈ seq base n ->
       exists entry uh,
         models self !! (h - base)%nat = Some entry /\
         user_hooks r.2 !! h = Some uh /\
         strip_peers uh = fresh_handle (normalize_device dev) (mkStrategy margin) entry /\
         peer_handles r.2 h = filter (fun h' => h' <> h) (seq base n)) /\
    (forall entry m,
       entry ∈ models self -> modules r.2 !! entry.2 = Some m ->
       exists h, h ∈ seq base n /\ _hf_hook m = Some (OffloadHook h)).
Proof.
  unfold enable_auto_cpu_offload. fold (normalize_device dev).
  set (w1 := foldl _ w (models self)).
  pose proof (models_disable self w1) as Hmodels.
  destruct (disable_auto_cpu_offload self w1) as [self1 w2]. simpl in Hmodels.
  rewrite Hmodels.
  fold (create_hooks (normalize_device dev) (mkStrategy margin) (models self) ([], w2)).
  destruct (create_hooks_spec (normalize_device dev) (mkStrategy margin) (models self) [] w2)
    as [Hall Hstore].
  pose proof (create_hooks_attached (normalize_device dev) (mkStrategy margin) (models self)
                [] w2) as Hatt.
  destruct (create_hooks _ _ _ _) as [all_hooks w3]. simpl in Hall, Hstore, Hatt.
  subst all_hooks.
  exists (length (user_hooks w2)). simpl. split; [done|].
  set (all_hooks := seq (length (user_hooks w2)) (length (models self))).
  destruct (wire_peers_spec all_hooks (normalize_device dev) w3) as (Hstrip & Hpeers & Hmods).
  { apply NoDup_seq. }
  { intros h Hh. unfold hook_execution_device. rewrite Hstore.
    destruct (lookup_created_handle (user_hooks w2) (normalize_device dev)
                (mkStrategy margin) (models self) h Hh) as (entry & _ & ->). done. }
  split; [|intros entry m Hin Hm; rewrite Hmods in Hm; by apply (Hatt entry)].
  intros h Hh.
  destruct (lookup_created_handle (user_hooks w2) (normalize_device dev)
              (mkStrategy margin) (models self) h Hh) as (entry & Hentry & Hlookup).
  rewrite <- Hstore in Hlookup.
  assert (map strip_peers (user_hooks (wire_peers all_hooks w3)) !! h
          = Some (strip_peers (fresh_handle (normalize_device dev) (mkStrategy margin) entry)))
    as Hl.
  { rewrite Hstrip. change (map ?f ?l) with (f <$> l).
    by rewrite list_lookup_fmap, Hlookup. }
  change (map ?f ?l) with (f <$> l) in Hl. rewrite list_lookup_fmap in Hl.
  destruct (user_hooks (wire_peers all_hooks w3) !! h) as [uh|] eqn:Huh; [|done].
  simpl in Hl. exists entry, uh. split_and!; [done|done| |].
  - apply (inj Some) in Hl. by rewrite Hl.
  - rewrite (Hpeers h Hh). unfold peer_handles at 1. by rewrite Hlookup.
Qed.



Lemma strip_peers_execution_device uh :
  execution_device (hook (strip_peers uh)) = execution_device (hook uh).
Proof. done. Qed.

Lemma strip_peers_offload_strategy uh :
  offload_strategy (hook (strip_peers uh)) = offload_strategy (hook uh).
Proof. done. Qed.





(** Wired peers are symmetric: a handle is a peer of another exactly when the
    other is a peer of it. *)
Lemma peers_wired_symmetric self w hs h1 h2 :
  peers_wired self w -> model_hooks self = Some hs -> h1 ∈ hs -> h2 ∈ hs ->
  h1 ∈ peer_handles w h2 <-> h2 ∈ peer_handles w h1.
Proof.
  intros (hs' & dev & Hhs & _ & _ & _ & Hall) Heq H1 H2.
  rewrite Hhs in Heq. injection Heq as ->.
  destruct (Hall h1 H1) as (_ & -> & _). destruct (Hall h2 H2) as (_ & -> & _).
  rewrite !list_elem_of_filter. split; intros [Hne _]; (split; [by intros ->|done]).
Qed.



(* ===================================================================== *)
(** * The statements on the example data *)

(** Candidates of 5, 3 and 2 GiB, an owner of 8 GiB with margin 0.25 and
    6 GiB free: the deficit is 4 GiB and the 5 GiB candidate is selected. *)
Lemma strategy_selects_minimal_cover_example :
  let model := module_of_size "UNet2DConditionModel" cpu (8 * GiB) in
  let mem_get_info := fun _ : option nat => 6 * GiB in
  let deficit := min_memory_offload_of no_rounding mem_get_info quarter_margin model cuda0 in
  let selected :=
    (AutoOffloadStrategy_call fst snd no_rounding mem_get_info quarter_margin candidates_532
       None model cuda0).1 in
  (deficit == QofN (4 * GiB))%Q /\
  selected = [("unet", 5 * GiB)] /\
  (sublist selected candidates_532 /\ selected <> [] /\
   (deficit <= QofN (total_footprint snd selected))%Q /\
   forall sub, sub <> [] -> sub ⊆+ candidates_532 ->
               (deficit <= QofN (total_footprint snd sub))%Q ->
               total_footprint snd selected <= total_footprint snd sub).
Proof.
  intros model mem_get_info deficit selected.
  split; [by vm_compute|]. split; [by vm_compute|].
  apply (strategy_selects_minimal_cover fst snd no_rounding mem_get_info quarter_margin
           candidates_532 None model cuda0).
  - done.
  - refine (bool_decide_unpack _ _). by vm_compute.
  - by vm_compute.
  - exists [("unet", 5 * GiB)]. split_and!; [done| |by vm_compute].
    apply sublist_submseteq. apply sublist_skip, sublist_nil_l.
Defined.

(** Two candidates of one byte, an owner of 8 bytes with margin 0.25 and
    nothing free: the deficit is 10 and both candidates are returned. *)
Lemma strategy_falls_back_to_all_example :
  let model := module_of_size "UNet2DConditionModel" cpu 8 in
  let mem_get_info := fun _ : option nat => 0 in
  (min_memory_offload_of no_rounding mem_get_info quarter_margin model cuda0 == QofN 10)%Q /\
  (AutoOffloadStrategy_call fst snd no_rounding mem_get_info quarter_margin candidates_11
     None model cuda0).1 = candidates_11.
Proof.
  intros model mem_get_info. split; [by vm_compute|].
  apply (strategy_falls_back_to_all fst snd no_rounding mem_get_info quarter_margin
           candidates_11 None model cuda0); by vm_compute.
Defined.

(** Distinct ids are needed for the minimal cover: two candidates that share
    an id are one key of [module_sizes], and both are returned when that key
    is selected.  Here the deficit is 4, the key ["a"] counts 5 bytes and the
    selection weighs 7, more than the candidate of 5 bytes alone. *)
Lemma shared_id_selection_example :
  (select_hooks_to_offload fst snd [("a", 2); ("b", 3); ("a", 5)] (QofN 4)).1
  = [("a", 2); ("a", 5)].
Proof. by vm_compute. Qed.

(** At the boundary, where the owner's footprint with margin equals the free
    memory (8 bytes with margin 0.25, 10 bytes free), the strategy does not
    return at once: it logs the search for a deficit of 0 and selects the
    one-byte candidate; through [pre_forward] the VAE, which was on
    [cuda:0], is moved to the CPU and the cache is cleared. *)
Lemma fast_path_boundary_counterexample :
  let model := module_of_size "UNet2DConditionModel" cpu 8 in
  let mem_get_info := fun _ : option nat => 10 in
  (current_module_size no_rounding quarter_margin model <= QofN (mem_get_info (Some O)))%Q /\
  AutoOffloadStrategy_call fst snd no_rounding mem_get_info quarter_margin [("vae", 1)]
    None model cuda0
  = ([("vae", 1)], [InfoSearch (0 # 4)]) /\
  user_hooks world_vae_on_device !! O = Some unet_handle /\
  modules world_vae_on_device !! O = Some (unet_module cpu) /\
  (current_module_size no_rounding quarter_margin (unet_module cpu)
   <= QofN (mem_get_info (Some O)))%Q /\
  device <$> modules world_vae_on_device !! 1%nat = Some cuda0 /\
  exists w',
    pre_forward no_rounding mem_get_info 0 0 [] [] world_vae_on_device
    = Some (([], []), w') /\
    device <$> modules w' !! 1%nat = Some cpu /\
    cache_clears w' = S (cache_clears world_vae_on_device).
Proof.
  intros model mem_get_info.
  split; [by vm_compute|]. split; [by vm_compute|]. split; [by vm_compute|].
  split; [by vm_compute|]. split; [by vm_compute|]. split; [by vm_compute|].
  eexists. split; [vm_compute; reflexivity|]. split; by vm_compute.
Qed.

(** Well below the free memory (8 bytes with margin 0.25, 64 bytes free)
    only the UNet moves. *)
Lemma fast_path_moves_no_peer_example :
  let mem_get_info := fun _ : option nat => 64 in
  AutoOffloadStrategy_call peer_model_id peer_footprint no_rounding mem_get_info quarter_margin
    (filter (fun p : Peer => device p.2 = cuda0)
            (default [] (resolve_peers world_vae_on_device [1%nat; 2%nat])))
    (Some "unet") (unet_module cpu) cuda0 = ([], []) /\
  exists w',
    pre_forward no_rounding mem_get_info 0 0 [Tensor 7 cpu] [] world_vae_on_device
    = Some (([Tensor 7 cuda0], []), w') /\
    (forall j, j <> O -> modules w' !! j = modules world_vae_on_device !! j) /\
    cache_clears w' = cache_clears world_vae_on_device.
Proof.
  intros mem_get_info.
  apply (fast_path_moves_no_peer no_rounding mem_get_info 0 0 [Tensor 7 cpu] [] world_vae_on_device
           unet_handle (unet_module cpu) quarter_margin [1%nat; 2%nat]
           (default [] (resolve_peers world_vae_on_device [1%nat; 2%nat])));
    by vm_compute.
Defined.

(** A tensor that is on the CPU when a module already on [cuda:0] is called
    is not forwarded unchanged: it is sent to [cuda:0]. *)
Lemma on_device_args_moved_counterexample :
  let mem_get_info := fun _ : option nat => 64 in
  user_hooks world_unet_on_device !! O = Some unet_handle /\
  modules world_unet_on_device !! O = Some (unet_module cuda0) /\
  device (unet_module cuda0) = execution_device (hook unet_handle) /\
  pre_forward no_rounding mem_get_info 0 0 [Tensor 7 cpu] [] world_unet_on_device
  = Some (([Tensor 7 cuda0], []), world_unet_on_device) /\
  [Tensor 7 cuda0] <> [Tensor 7 cpu].
Proof. intros mem_get_info. split_and!; by vm_compute. Qed.

(** A module on [cuda:0] called with a tensor on [cuda:0] and a plain value:
    nothing moves and the arguments are forwarded as they are. *)
Lemma on_device_forwards_args_on_device_example :
  let mem_get_info := fun _ : option nat => 64 in
  let args := [Tensor 7 cuda0; Plain 3] in
  pre_forward no_rounding mem_get_info 0 0 args [] world_unet_on_device
  = Some ((send_to_device 0 args cuda0, []), world_unet_on_device) /\
  (Forall (fun a => match a with Tensor _ d => d = cuda0 | Plain _ => True end) args ->
   send_to_device 0 args cuda0 = args).
Proof.
  intros mem_get_info args.
  apply (on_device_forwards_args_on_device no_rounding mem_get_info 0 0 args [] world_unet_on_device
           unet_handle (unet_module cuda0)); by vm_compute.
Defined.

(** [remove] of an id the example manager does not hold. *)
Lemma remove_unknown_id_raises_example :
  remove example_enabled.1 "scheduler" example_enabled.2
  = (Raise (KeyError "scheduler"), example_enabled).
Proof.
  rewrite (surjective_pairing example_enabled) at 3.
  apply remove_unknown_id_raises. refine (bool_decide_unpack _ _). by vm_compute.
Defined.

(** [add] of an id the example manager holds, with another module. *)
Lemma add_known_id_is_noop_example :
  add example_enabled.1 "vae" 2 example_enabled.2 = (Return tt, example_enabled) /\
  dict_get (models (add example_enabled.1 "vae" 2 example_enabled.2).2.1) "vae"
  = dict_get (models example_enabled.1) "vae".
Proof.
  rewrite (surjective_pairing example_enabled) at 3.
  apply add_known_id_is_noop. refine (bool_decide_unpack _ _). by vm_compute.
Defined.

(** [__repr__] of a new manager. *)
Lemma repr_of_empty_manager_raises_example :
  ModelManager_repr ModelManager_init example_world
  = Some (Raise (ValueError "max() arg is an empty sequence")).
Proof. by apply repr_of_empty_manager_raises. Defined.


(* ===================================================================== *)
(** * Further properties of the search *)

Lemma search_step_inv_first module_sizes min_memory_offload seen st c :
  search_inv_first module_sizes min_memory_offload seen st ->
  search_inv_first module_sizes min_memory_offload (seen ++ [c])
                   (search_step module_sizes min_memory_offload st c).
Proof.
  unfold search_inv_first, search_step. intros Hinv.
  destruct (Qltb (QofN (candidate_size_of module_sizes c)) min_memory_offload) eqn:Hlt.
  - apply Qltb_lt in Hlt.
    assert (~ (min_memory_offload <= QofN (candidate_size_of module_sizes c))%Q) as Hnf
      by (by apply Qlt_not_le).
    destruct (best_candidate st) as [b|].
    + destruct Hinv as (pre & post & -> & Hsz & Hfb & Hpre & Hpost).
      exists pre, (post ++ [c]). split_and!; [by rewrite <- app_assoc|done..|].
      intros c' [?| ->]%elem_of_snoc ?; [by apply Hpost|done].
    + intros c' [?| ->]%elem_of_snoc; [by apply Hinv|done].
  - apply Qltb_ge in Hlt. destruct (best_candidate st) as [b|] eqn:Hbest.
    + destruct Hinv as (pre & post & -> & Hsz & Hfb & Hpre & Hpost). rewrite Hsz.
      rewrite bool_decide_eq_false_2 by done. simpl.
      destruct (candidate_size_of module_sizes c <? candidate_size_of module_sizes b)
        eqn:Hcmp; simpl.
      * apply N.ltb_lt in Hcmp. exists (pre ++ b :: post), []. split_and!; [done..| |].
        -- intros c' [Hc'|[->|Hc']%elem_of_cons]%elem_of_app Hf.
           ++ specialize (Hpre c' Hc' Hf). lia.
           ++ done.
           ++ specialize (Hpost c' Hc' Hf). lia.
        -- by intros c' ?%elem_of_nil.
      * apply N.ltb_ge in Hcmp. rewrite Hbest.
        exists pre, (post ++ [c]). split_and!; [by rewrite <- app_assoc|done..|].
        intros c' [?| ->]%elem_of_snoc ?; [by apply Hpost|done].
    + rewrite bool_decide_eq_true_2 by done. simpl.
      exists seen, []. split_and!; [done..| |].
      * intros c' Hc' Hf. by destruct (Hinv c' Hc').
      * by intros c' ?%elem_of_nil.
Qed.

Lemma search_fold_inv_first module_sizes min_memory_offload cands seen st :
  search_inv_first module_sizes min_memory_offload seen st ->
  search_inv_first module_sizes min_memory_offload (seen ++ cands)
                   (foldl (search_step module_sizes min_memory_offload) st cands).
Proof.
  revert seen st. induction cands as [|c cands IH]; intros seen st Hinv; simpl.
  - by rewrite app_nil_r.
  - replace (seen ++ c :: cands) with ((seen ++ [c]) ++ cands)
      by (by rewrite <- app_assoc).
    apply IH. by apply search_step_inv_first.
Qed.

(** The combinations are tried by increasing number of elements. *)
Lemma candidates_by_length {A} (l : list A) a n :
  StronglySorted (fun x y : list A => length x <= length y)%nat
                 (concat (map (combinations l) (seq a n))).
Proof.
  revert a. induction n as [|n IH]; intros a; simpl; [constructor|].
  apply StronglySorted_app_2.
  - intros x y Hx Hy. apply elem_of_combinations in Hx as [_ ->].
    apply list_elem_of_In, in_concat in Hy as (cs & Hcs & Hy).
    apply in_map_iff in Hcs as (r & <- & Hr). apply in_seq in Hr.
    apply list_elem_of_In, elem_of_combinations in Hy as [_ ->]. lia.
  - assert (forall x, x ∈ combinations l a -> length x = a) as Hlen
      by (by intros x [_ ?]%elem_of_combinations).
    revert Hlen. generalize (combinations l a). intros cs Hlen.
    induction cs as [|c cs IHcs]; constructor.
    + apply IHcs. intros x Hx. apply Hlen. by right.
    + apply Forall_forall. intros x Hx.
      rewrite (Hlen c) by left. rewrite (Hlen x) by (by right). done.
  - apply IH.
Qed.

(** The result of the search against any other combination that reaches
    [min_memory_offload]: it is not larger, and not longer when it has the
    same size, since the update of line 212 is strict and the combinations
    are tried by increasing length. *)
Lemma search_first_of_the_least module_sizes min_memory_offload b c :
  search_best_candidate module_sizes min_memory_offload = Some b ->
  sublist c (keys module_sizes) -> c <> [] ->
  (min_memory_offload <= QofN (candidate_size_of module_sizes c))%Q ->
  candidate_size_of module_sizes b <= candidate_size_of module_sizes c /\
  (candidate_size_of module_sizes c = candidate_size_of module_sizes b ->
   (length b <= length c)%nat).
Proof.
  unfold search_best_candidate. rewrite foldl_nested.
  fold (all_candidates (keys module_sizes)).
  pose proof (search_fold_inv_first module_sizes min_memory_offload
                (all_candidates (keys module_sizes)) [] (mkSearch None Inf)) as Hinv.
  unfold search_inv_first at 1 in Hinv. simpl in Hinv.
  specialize (Hinv (fun c Hc => False_ind _ (proj1 (elem_of_nil c) Hc))).
  unfold search_inv_first in Hinv.
  destruct (best_candidate _) as [b'|]; [|done].
  destruct Hinv as (pre & post & Hsplit & _ & _ & Hpre & Hpost).
  intros [= ->] Hc Hne Hf.
  assert (c ∈ all_candidates (keys module_sizes)) as Hin
    by (by apply elem_of_all_candidates).
  pose proof (candidates_by_length (keys module_sizes) 1 (length (keys module_sizes)))
    as Hsorted.
  fold (all_candidates (keys module_sizes)) in Hsorted.
  rewrite Hsplit in Hin, Hsorted.
  apply StronglySorted_app in Hsorted as (_ & _ & Hsorted).
  apply StronglySorted_cons in Hsorted as [Hlen _].
  apply elem_of_app in Hin as [Hin|[->|Hin]%elem_of_cons].
  - specialize (Hpre c Hin Hf). split; lia.
  - done.
  - split; [by apply Hpost|]. intros _.
    by apply (proj1 (Forall_forall _ _) Hlen).
Qed.

(** X1.  [search_best_candidate] returns [None] exactly when no non-empty
    combination of keys reaches [min_memory_offload].  Otherwise it returns
    a non-empty combination of keys that reaches it, of least total size
    among those that do, and with the fewest ids among those of that least
    size. *)
Theorem search_prefers_fewest_ids module_sizes min_memory_offload :
  match search_best_candidate module_sizes min_memory_offload with
  | None =>
      forall c, sublist c (keys module_sizes) -> c <> [] ->
                ~ (min_memory_offload <= QofN (candidate_size_of module_sizes c))%Q
  | Some b =>
      sublist b (keys module_sizes) /\ b <> [] /\
      (min_memory_offload <= QofN (candidate_size_of module_sizes b))%Q /\
      forall c, sublist c (keys module_sizes) -> c <> [] ->
                (min_memory_offload <= QofN (candidate_size_of module_sizes c))%Q ->
                candidate_size_of module_sizes b <= candidate_size_of module_sizes c /\
                (candidate_size_of module_sizes c = candidate_size_of module_sizes b ->
                 (length b <= length c)%nat)
  end.
Proof.
  pose proof (search_best_candidate_spec module_sizes min_memory_offload) as Hspec.
  destruct (search_best_candidate module_sizes min_memory_offload) as [b|] eqn:Hb;
    [|exact Hspec].
  destruct Hspec as (Hsub & Hne & Hreach & _). split_and!; [done..|].
  intros c. by apply search_first_of_the_least.
Qed.

Lemma combinations_beyond {A} (l : list A) r :
  (length l < r)%nat -> combinations l r = [].
Proof.
  revert r. induction l as [|x l IH]; intros [|r] Hr; simpl in *; [lia|done|lia|].
  rewrite (IH r), (IH (S r)) by lia. done.
Qed.

Lemma list_sum_map_add {A} (f g : A -> nat) (l : list A) :
  list_sum (map (fun x => f x + g x)%nat l) = (list_sum (map f l) + list_sum (map g l))%nat.
Proof. induction l as [|x l IH]; simpl; [done|]. rewrite IH. lia. Qed.

Lemma list_sum_map_zero {A} (f : A -> nat) (l : list A) :
  (forall x, x ∈ l -> f x = O) -> list_sum (map f l) = O.
Proof.
  induction l as [|x l IH]; intros Hf; simpl; [done|].
  rewrite (Hf x) by left. rewrite IH; [done|]. intros y Hy. apply Hf. by right.
Qed.

Lemma list_sum_cons (x : nat) (l : list nat) : list_sum (x :: l) = (x + list_sum l)%nat.
Proof. done. Qed.

(** The numbers of combinations of all lengths add up to [2 ^ n]. *)
Lemma combinations_count {A} (l : list A) m :
  (length l <= m)%nat ->
  list_sum (map (fun r => length (combinations l r)) (seq 0 (S m))) = (2 ^ length l)%nat.
Proof.
  revert m. induction l as [|x l IH]; intros m Hm.
  - change (seq 0 (S m)) with (0%nat :: seq 1 m).
    rewrite map_cons, list_sum_cons, list_sum_map_zero; [done|].
    intros r Hr%elem_of_seq. rewrite combinations_beyond; [done|simpl; lia].
  - destruct m as [|m]; [simpl in Hm; lia|]. simpl in Hm.
    pose proof (IH m ltac:(lia)) as IH1. pose proof (IH (S m) ltac:(lia)) as IH2.
    change (seq 0 (S (S m))) with (0%nat :: seq 1 (S m)) in IH2 |- *.
    rewrite map_cons, list_sum_cons, <- seq_shift, map_map in IH2 |- *.
    rewrite (map_ext _ (fun r => (length (combinations l r)
                                  + length (combinations l (S r)))%nat)).
    2:{ intros r. simpl. by rewrite length_app, length_map. }
    rewrite list_sum_map_add, IH1.
    assert (length (combinations l 0) = 1%nat) as H0 by (by destruct l).
    rewrite H0 in IH2.
    change (length (combinations (x :: l) 0)) with 1%nat.
    cbn [length]. rewrite Nat.pow_succ_r'. lia.
Qed.

(** X2.  The two loops of [search_best_candidate] try every non-empty
    combination of the ids once: for [n] ids the body of the inner loop runs
    [2 ^ n - 1] times. *)
Theorem search_tries_all_combinations module_sizes min_memory_offload :
  search_best_candidate module_sizes min_memory_offload
  = best_candidate (foldl (search_step module_sizes min_memory_offload) (mkSearch None Inf)
                          (all_candidates (keys module_sizes))) /\
  length (all_candidates (keys module_sizes)) = (2 ^ length (keys module_sizes) - 1)%nat /\
  (forall c, c ∈ all_candidates (keys module_sizes) <->
             sublist c (keys module_sizes) /\ c <> []).
Proof.
  split_and!.
  - unfold search_best_candidate. by rewrite foldl_nested.
  - unfold all_candidates. rewrite length_concat, map_map.
    pose proof (combinations_count (keys module_sizes) (length (keys module_sizes))
                  ltac:(done)) as Hsum.
    change (seq 0 (S (length (keys module_sizes))))
      with (0%nat :: seq 1 (length (keys module_sizes))) in Hsum.
    rewrite map_cons, list_sum_cons in Hsum.
    assert (length (combinations (keys module_sizes) 0) = 1%nat) as H0
      by (by destruct (keys module_sizes)).
    rewrite H0 in Hsum. lia.
  - intros c. apply elem_of_all_candidates.
Qed.

(* ===================================================================== *)
(** * Further properties of the strategy *)

Lemma dict_get_dict_set {V} (d : dict V) k v k' :
  dict_get (dict_set d k v) k' = if decide (k = k') then Some v else dict_get d k'.
Proof.
  induction d as [|[k0 v0] d IH]; simpl.
  - done.
  - destruct (decide (k0 = k)) as [->|Hne]; simpl.
    + by destruct (decide (k = k')).
    + rewrite IH. destruct (decide (k0 = k')) as [->|]; [|done].
      by rewrite decide_False by (by intros ->).
Qed.

Lemma dict_get_app {V} (d1 d2 : dict V) k :
  dict_get (d1 ++ d2) k
  = match dict_get d1 k with Some v => Some v | None => dict_get d2 k end.
Proof.
  induction d1 as [|[k0 v0] d1 IH]; simpl; [done|].
  by destruct (decide (k0 = k)).
Qed.

(** In a dict built from items the last item of a key gives its value. *)
Lemma dict_get_dict_of_items {V} (items : list (string * V)) k :
  dict_get (dict_of_items items) k = dict_get (reverse items) k.
Proof.
  unfold dict_of_items.
  cut (forall acc : dict V,
         dict_get (foldl (fun d kv => dict_set d kv.1 kv.2) acc items) k
         = match dict_get (reverse items) k with
           | Some v => Some v
           | None => dict_get acc k
           end).
  { intros Hc. rewrite (Hc []). simpl. by destruct (dict_get (reverse items) k). }
  induction items as [|[k0 v0] items IH]; intros acc; simpl; [done|].
  rewrite IH, reverse_cons, dict_get_app, dict_get_dict_set. simpl.
  destruct (dict_get (reverse items) k); [done|]. by destruct (decide (k0 = k)).
Qed.

Lemma dict_get_Some_NoDup {V} (d : dict V) k v :
  NoDup (keys d) -> dict_get d k = Some v <-> (k, v) ∈ d.
Proof.
  induction d as [|[k0 v0] d IH]; simpl.
  - intros _. split; [done|]. by intros ?%elem_of_nil.
  - intros [Hk0 Hnd]%NoDup_cons. rewrite elem_of_cons.
    destruct (decide (k0 = k)) as [->|Hne].
    + split; [intros [= ->]; by left|].
      intros [[= ->]|Hin]; [done|].
      destruct Hk0. by apply (list_elem_of_fmap_2 fst) in Hin.
    + rewrite IH by done. split; [by right|]. intros [[= ? ?]|?]; [congruence|done].
Qed.

Lemma dict_get_Permutation {V} (d1 d2 : dict V) k :
  d1 ≡ₚ d2 -> NoDup (keys d1) -> dict_get d1 k = dict_get d2 k.
Proof.
  intros Hp Hnd1.
  assert (NoDup (keys d2)) as Hnd2 by (unfold keys; by rewrite <- Hp).
  destruct (dict_get d1 k) as [v|] eqn:H1.
  - symmetry. apply dict_get_Some_NoDup; [done|]. rewrite <- Hp.
    by apply dict_get_Some_NoDup.
  - destruct (dict_get d2 k) as [v|] eqn:H2; [|done].
    apply dict_get_Some_NoDup in H2; [|done]. rewrite <- Hp in H2.
    apply dict_get_Some_NoDup in H2; [|done]. congruence.
Qed.

Lemma insert_desc_sorted x l :
  StronglySorted size_desc l -> StronglySorted size_desc (insert_desc x l).
Proof.
  induction 1 as [|y l Hl IH Hy]; simpl.
  - repeat constructor.
  - destruct (x.2 <? y.2) eqn:Hcmp.
    + apply N.ltb_lt in Hcmp. constructor; [done|].
      rewrite insert_desc_Permutation. constructor; [unfold size_desc; lia|done].
    + apply N.ltb_ge in Hcmp. constructor; [by constructor|].
      constructor; [done|]. eapply Forall_impl; [exact Hy|].
      unfold size_desc. intros z ?. lia.
Qed.

Lemma sorted_desc_sorted items : StronglySorted size_desc (sorted_desc items).
Proof.
  induction items as [|x items IH]; simpl; [constructor|].
  by apply insert_desc_sorted.
Qed.

Section StrategyShape.
Context {Hook : Type}.
Variable hook_model_id : Hook -> string.
Variable hook_footprint : Hook -> N.
Variable fl : Q -> Q.
Variable mem_get_info : option nat -> N.

Lemma build_module_sizes_sorted_desc hooks :
  build_module_sizes hook_model_id hook_footprint hooks
  = sorted_desc (dict_of_items
                   (map (fun hook => (hook_model_id hook, hook_footprint hook)) hooks)).
Proof.
  unfold build_module_sizes. apply dict_of_items_NoDup_id.
  unfold keys. rewrite sorted_desc_Permutation. apply dict_of_items_NoDup.
Qed.

(** X3.  [module_sizes], lines 187-193: one entry per id, in descending
    order of size, and an id carried by several hooks is weighed by the
    footprint of the last of them. *)
Theorem module_sizes_shape hooks :
  let module_sizes := build_module_sizes hook_model_id hook_footprint hooks in
  NoDup (keys module_sizes) /\
  StronglySorted size_desc module_sizes /\
  forall id,
    dict_get module_sizes id
    = dict_get (reverse (map (fun hook => (hook_model_id hook, hook_footprint hook)) hooks))
               id.
Proof.
  simpl. split_and!.
  - apply dict_of_items_NoDup.
  - rewrite build_module_sizes_sorted_desc. apply sorted_desc_sorted.
  - intros id. rewrite build_module_sizes_sorted_desc.
    rewrite (dict_get_Permutation _ _ _ (sorted_desc_Permutation _)).
    + apply dict_get_dict_of_items.
    + unfold keys. rewrite sorted_desc_Permutation. apply dict_of_items_NoDup.
Qed.

Lemma keys_build_module_sizes_elem hooks id :
  id ∈ keys (build_module_sizes hook_model_id hook_footprint hooks) ->
  id ∈ map hook_model_id hooks.
Proof.
  intros Hid. apply dict_get_is_Some in Hid as [v Hv].
  rewrite build_module_sizes_sorted_desc in Hv.
  rewrite (dict_get_Permutation _ _ _ (sorted_desc_Permutation _)) in Hv.
  2:{ unfold keys. rewrite sorted_desc_Permutation. apply dict_of_items_NoDup. }
  rewrite dict_get_dict_of_items in Hv.
  assert (id ∈ keys (reverse (map (fun hook => (hook_model_id hook, hook_footprint hook))
                                  hooks))) as Hin.
  { destruct (decide (id ∈ keys (reverse (map (fun hook =>
        (hook_model_id hook, hook_footprint hook)) hooks)))) as [|Hn]; [done|].
    apply dict_get_None in Hn. congruence. }
  unfold keys in Hin. apply list_elem_of_fmap in Hin as ([k v'] & -> & Hin).
  apply elem_of_reverse, list_elem_of_fmap in Hin as (h & [= -> ->] & Hh).
  by apply (list_elem_of_fmap_2 hook_model_id).
Qed.

Lemma call_sublist self hooks id model dev :
  sublist (AutoOffloadStrategy_call hook_model_id hook_footprint fl mem_get_info
             self hooks id model dev).1 hooks.
Proof.
  unfold AutoOffloadStrategy_call, select_hooks_to_offload.
  repeat case_match; simpl; try apply sublist_nil_l; try done.
  apply sublist_filter.
Qed.

(** X4.  The strategy returns hooks it was given, each at most once and in
    the order it was given them; and when there is a candidate and the
    footprint with margin is not below the free memory, it returns at least
    one. *)
Theorem strategy_selection_shape self hooks id model dev :
  let selected :=
    (AutoOffloadStrategy_call hook_model_id hook_footprint fl mem_get_info
       self hooks id model dev).1 in
  sublist selected hooks /\
  (hooks <> [] ->
   (QofN (mem_get_info (dev_index dev)) <= current_module_size fl self model)%Q ->
   selected <> []).
Proof.
  simpl. split; [apply call_sublist|].
  intros Hne Hpast. rewrite call_search by done. unfold select_hooks_to_offload.
  pose proof (search_best_candidate_spec
                (build_module_sizes hook_model_id hook_footprint hooks)
                (min_memory_offload_of fl mem_get_info self model dev)) as Hspec.
  destruct (search_best_candidate _ _) as [b|]; [|done]. simpl.
  destruct Hspec as (Hb & Hbne & _). destruct b as [|k b]; [done|].
  assert (k ∈ map hook_model_id hooks) as Hk.
  { apply keys_build_module_sizes_elem. eapply elem_of_sublist; [|exact Hb]. left. }
  apply list_elem_of_fmap in Hk as (h & -> & Hh). intros Hnil.
  assert (h ∈ filter (fun hook => hook_model_id hook ∈ hook_model_id h :: b) hooks)
    as Hin by (apply list_elem_of_filter; split; [left|done]).
  rewrite Hnil in Hin. by apply elem_of_nil in Hin.
Qed.

(** X5.  With distinct ids, a candidate and a call that reaches the search,
    the warning of line 222 is logged, and all candidates are returned,
    exactly when the total footprint of the candidates is below the deficit
    of line 183. *)
Theorem fallback_iff_total_below_deficit self hooks id model dev :
  hooks <> [] ->
  NoDup (map hook_model_id hooks) ->
  (QofN (mem_get_info (dev_index dev)) <= current_module_size fl self model)%Q ->
  let deficit := min_memory_offload_of fl mem_get_info self model dev in
  (QofN (total_footprint hook_footprint hooks) < deficit)%Q <->
  AutoOffloadStrategy_call hook_model_id hook_footprint fl mem_get_info
    self hooks id model dev
  = (hooks, [InfoSearch deficit; WarnOffloadAll]).
Proof.
  intros Hne Hnd Hpast deficit. rewrite call_search by done. fold deficit. split.
  - apply select_fallback.
  - intros Hsel. apply Qnot_le_lt. intros Hle.
    destruct (candidate_of_submseteq hook_model_id hook_footprint hooks hooks Hnd)
      as (c & Hc & Hcne & Hsz); [done..|].
    unfold select_hooks_to_offload in Hsel.
    pose proof (search_best_candidate_spec
                  (build_module_sizes hook_model_id hook_footprint hooks) deficit) as Hspec.
    destruct (search_best_candidate _ _) as [b|]; [by injection Hsel|].
    destruct (Hspec c Hc Hcne). by rewrite Hsz.
Qed.
End StrategyShape.

(* ===================================================================== *)
(** * Further properties of the interceptor *)

Lemma resolve_peers_spec w hs peers :
  resolve_peers w hs = Some peers ->
  forall p, p ∈ peers ->
    user_hooks w !! peer_ref p = Some p.1.2 /\ modules w !! model p.1.2 = Some p.2.
Proof.
  revert peers. induction hs as [|h hs IH]; intros peers; simpl.
  - intros [= <-] p Hp. by apply elem_of_nil in Hp.
  - unfold resolve_peer at 1.
    destruct (user_hooks w !! h) as [uh|] eqn:Huh; [|done].
    destruct (modules w !! model uh) as [m|] eqn:Hm; [|done].
    destruct (resolve_peers w hs) as [ps|]; [|done].
    intros [= <-] p [->|Hp]%elem_of_cons; [done|]. by apply (IH ps).
Qed.

Lemma module_on_idemp dev (o : option Module) :
  module_on dev <$> (module_on dev <$> o) = module_on dev <$> o.
Proof. by destruct o. Qed.

(** The loop of lines 113-117: the modules of the hooks are put on the CPU,
    one record is logged per hook, nothing else changes. *)
Lemma offload_all_spec id dev sel w :
  (forall p, p ∈ sel -> user_hooks w !! peer_ref p = Some p.1.2) ->
  let w' := offload_all id dev sel w in
  user_hooks w' = user_hooks w /\
  default_device w' = default_device w /\
  current_device w' = current_device w /\
  cache_clears w' = cache_clears w /\
  log w' = log w ++ map (fun p => InfoMoving id dev (peer_model_id p)) sel /\
  forall j,
    modules w' !! j
    = if decide (j ∈ map (fun p : Peer => model p.1.2) sel)
      then module_on cpu <$> modules w !! j
      else modules w !! j.
Proof.
  revert w. induction sel as [|p sel IH]; intros w Hsel; simpl.
  - split_and!; [done..|by rewrite app_nil_r|]. intros j.
    first [done | case_decide as Hj; [by apply elem_of_nil in Hj|done]].
  - unfold offload_all in *. cbn [foldl].
    set (w1 := offload (peer_ref p) (logger [InfoMoving id dev (peer_model_id p)] w)).
    assert (user_hooks w1 = user_hooks w /\ default_device w1 = default_device w /\
            current_device w1 = current_device w /\
            cache_clears w1 = cache_clears w /\
            log w1 = log w ++ [InfoMoving id dev (peer_model_id p)] /\
            modules w1 = alter (module_on cpu) (model p.1.2) (modules w))
      as (Hu & Hd & Hcur & Hc & Hl & Hm).
    { unfold w1, offload. simpl. rewrite (Hsel p) by left. done. }
    destruct (IH w1) as (IHu & IHd & IHcur & IHc & IHl & IHm).
    { intros q Hq. rewrite Hu. apply Hsel. by right. }
    split_and!; [congruence..| |].
    + rewrite IHl, Hl, <- app_assoc. done.
    + intros j. rewrite IHm, Hm.
      destruct (decide (j = model p.1.2)) as [->|Hne].
      * rewrite list_lookup_alter_eq. rewrite (decide_True (P := _ ∈ _ :: _)) by left.
        case_decide; [apply module_on_idemp|done].
      * rewrite list_lookup_alter_ne by done.
        apply decide_ext. rewrite elem_of_cons.
        split; [by right|by intros [?|?]].
Qed.

Lemma hooks_to_offload_of_sublist fl mem_get_info hk m peers :
  sublist (hooks_to_offload_of fl mem_get_info hk m peers).1
          (filter (fun p : Peer => device p.2 = execution_device hk) peers).
Proof.
  unfold hooks_to_offload_of. destruct (offload_strategy hk); [|done].
  apply call_sublist.
Qed.

Lemma hooks_to_offload_of_elem fl mem_get_info hk m peers p :
  p ∈ (hooks_to_offload_of fl mem_get_info hk m peers).1 ->
  p ∈ peers /\ device p.2 = execution_device hk.
Proof.
  intros Hp. eapply elem_of_sublist in Hp; [|apply hooks_to_offload_of_sublist].
  apply list_elem_of_filter in Hp as [? ?]. done.
Qed.

Lemma module_on_module_on dev dev' (o : option Module) :
  module_on dev <$> (module_on dev' <$> o) = module_on dev <$> o.
Proof. by destruct o. Qed.

Lemma lookup_module_to module dev w j :
  modules (module_to module dev w) !! j
  = if decide (j = module)
    then module_on (placed_on (current_device w) dev) <$> modules w !! j
    else modules w !! j.
Proof.
  unfold module_to. simpl. case_decide as Hj.
  - subst j. by rewrite list_lookup_alter_eq.
  - by rewrite list_lookup_alter_ne.
Qed.

(** [pre_forward] for a module that is not on the execution device and a
    hook that has peers: the result, the log and every module afterwards. *)
Lemma pre_forward_off_device fl mem_get_info self module args kwargs w uh m others peers :
  user_hooks w !! self = Some uh ->
  modules w !! module = Some m ->
  device m <> execution_device (hook uh) ->
  other_hooks (hook uh) = Some others ->
  resolve_peers w others = Some peers ->
  let dev := execution_device (hook uh) in
  let id := owner_model_id (hook uh) in
  let sel := hooks_to_offload_of fl mem_get_info (hook uh) m peers in
  exists w',
    pre_forward fl mem_get_info self module args kwargs w
    = Some ((send_to_device (current_device w) args dev,
             send_kwargs_to_device (current_device w) kwargs dev), w') /\
    user_hooks w' = user_hooks w /\
    default_device w' = default_device w /\
    current_device w' = current_device w /\
    cache_clears w' = (cache_clears w + if bool_decide (sel.1 <> []) then 1 else 0)%nat /\
    log w' = log w ++ sel.2 ++ [InfoStrategyTime id]
             ++ map (fun p => InfoMoving id dev (peer_model_id p)) sel.1 /\
    forall j,
      modules w' !! j
      = if decide (j = module) then Some (module_on (placed_on (current_device w) dev) m)
        else if decide (j ∈ map (fun p : Peer => model p.1.2) sel.1)
             then module_on cpu <$> modules w !! j
             else modules w !! j.
Proof.
  intros Hself Hmod Hdev Hothers Hpeers dev id sel.
  assert (forall p, p ∈ sel.1 -> user_hooks w !! peer_ref p = Some p.1.2) as Hsel.
  { intros p [Hp _]%hooks_to_offload_of_elem.
    by destruct (resolve_peers_spec w others peers Hpeers p Hp). }
  set (w1 := logger (sel.2 ++ [InfoStrategyTime id]) w).
  destruct (offload_all_spec id dev sel.1 w1 Hsel) as (Hu & Hd & Hcur & Hc & Hl & Hm).
  set (w2 := offload_all id dev sel.1 w1) in *.
  set (w3 := if bool_decide (sel.1 <> []) then clear_device_cache w2 else w2).
  exists (module_to module dev w3). split_and!.
  - unfold pre_forward. rewrite Hself, Hmod. rewrite decide_True by done.
    rewrite Hothers, Hpeers. fold dev id.
    unfold w3, w2, w1, sel, hooks_to_offload_of. fold dev id.
    destruct (offload_strategy (hook uh)); [|done].
    by destruct (AutoOffloadStrategy_call _ _ _ _ _ _ _ _ _).
  - unfold w3. by case_bool_decide.
  - unfold w3. by case_bool_decide.
  - unfold w3. by case_bool_decide.
  - unfold w3. case_bool_decide; simpl; rewrite Hc; simpl; lia.
  - transitivity (log w2); [unfold w3; by case_bool_decide|].
    rewrite Hl. unfold w1. simpl. by rewrite <- !app_assoc.
  - intros j. rewrite lookup_module_to.
    assert (current_device w3 = current_device w) as ->
      by (unfold w3; by case_bool_decide).
    assert (modules w3 = modules w2) as -> by (unfold w3; by case_bool_decide).
    change (modules w1) with (modules w) in Hm.
    case_decide as Hj; [|apply Hm]. subst j. rewrite Hm.
    case_decide; rewrite ?module_on_module_on, Hmod; done.
Qed.

(** [pre_forward] for a module that is on the execution device. *)
Lemma pre_forward_on_device fl mem_get_info self module args kwargs w uh m :
  user_hooks w !! self = Some uh ->
  modules w !! module = Some m ->
  device m = execution_device (hook uh) ->
  pre_forward fl mem_get_info self module args kwargs w
  = Some ((send_to_device (current_device w) args (execution_device (hook uh)),
           send_kwargs_to_device (current_device w) kwargs (execution_device (hook uh))),
          w).
Proof.
  intros Hself Hmod Hdev. unfold pre_forward. rewrite Hself, Hmod.
  by rewrite decide_False by (by intros []).
Qed.

(** [pre_forward] for a hook without peers. *)
Lemma pre_forward_no_peers fl mem_get_info self module args kwargs w uh m :
  user_hooks w !! self = Some uh ->
  modules w !! module = Some m ->
  device m <> execution_device (hook uh) ->
  other_hooks (hook uh) = None ->
  pre_forward fl mem_get_info self module args kwargs w
  = Some ((send_to_device (current_device w) args (execution_device (hook uh)),
           send_kwargs_to_device (current_device w) kwargs (execution_device (hook uh))),
          module_to module (execution_device (hook uh)) w).
Proof.
  intros Hself Hmod Hdev Hothers. unfold pre_forward. rewrite Hself, Hmod.
  rewrite decide_True by done. by rewrite Hothers.
Qed.

(** Whenever the references are good [pre_forward] returns, with the handles
    as they were.  A module that reports the execution device is left as it
    is; any other is moved, and then reports the device torch gives for the
    execution device, which need not be equal to it. *)
Lemma pre_forward_returns fl mem_get_info self module args kwargs w uh m :
  user_hooks w !! self = Some uh ->
  modules w !! module = Some m ->
  (forall others, other_hooks (hook uh) = Some others -> is_Some (resolve_peers w others)) ->
  let dev := execution_device (hook uh) in
  exists w',
    pre_forward fl mem_get_info self module args kwargs w
    = Some ((send_to_device (current_device w) args dev,
             send_kwargs_to_device (current_device w) kwargs dev), w') /\
    modules w' !! module
    = Some (if decide (device m = dev) then m
            else module_on (placed_on (current_device w) dev) m) /\
    user_hooks w' = user_hooks w /\
    current_device w' = current_device w.
Proof.
  intros Hself Hmod Hres dev. unfold dev.
  destruct (decide (device m = execution_device (hook uh))) as [Hdev|Hdev].
  - exists w. split_and!; [by eapply pre_forward_on_device|done..].
  - destruct (other_hooks (hook uh)) as [others|] eqn:Hothers.
    + destruct (Hres others eq_refl) as [peers Hpeers].
      destruct (pre_forward_off_device fl mem_get_info self module args kwargs w uh m
                  others peers) as (w' & Hpre & Hu & _ & Hcur & _ & _ & Hm); [done..|].
      exists w'. split_and!; [done| |done..]. rewrite Hm. by rewrite decide_True.
    + exists (module_to module (execution_device (hook uh)) w).
      split_and!; [by eapply pre_forward_no_peers| |done..].
      by rewrite lookup_module_to, decide_True, Hmod.
Qed.

Lemma Forall2_of_lookups {A} (R : A -> A -> Prop) (l k : list A) :
  (forall j, match l !! j, k !! j with
             | Some x, Some y => R x y
             | None, None => True
             | _, _ => False
             end) ->
  Forall2 R l k.
Proof.
  intros Hlk. apply Forall2_same_length_lookup_2.
  - destruct (decide (length l = length k)) as [|Hne]; [done|]. exfalso.
    destruct (decide (length l < length k)%nat) as [Hlt|Hge].
    + specialize (Hlk (length l)). rewrite (lookup_ge_None_2 l) in Hlk by lia.
      destruct (lookup_lt_is_Some_2 k (length l) Hlt) as [y Hy]. by rewrite Hy in Hlk.
    + specialize (Hlk (length k)). rewrite (lookup_ge_None_2 k) in Hlk by lia.
      destruct (lookup_lt_is_Some_2 l (length k)) as [x Hx]; [lia|]. by rewrite Hx in Hlk.
  - intros j x y Hx Hy. specialize (Hlk j). by rewrite Hx, Hy in Hlk.
Qed.

(** An execution device that torch does not report: no peer is on it, so
    no hook is selected and no search is logged. *)
Lemma hooks_to_offload_of_unreported fl mem_get_info w hk m others peers :
  devices_as_reported w ->
  placed_on (current_device w) (execution_device hk) <> execution_device hk ->
  resolve_peers w others = Some peers ->
  hooks_to_offload_of fl mem_get_info hk m peers = ([], []).
Proof.
  intros Hrep Hdev Hpeers. unfold hooks_to_offload_of. cbv zeta.
  match goal with
  | |- context [@filter ?A ?B ?I ?P ?D peers] =>
      assert (@filter A B I P D peers = []) as ->
  end.
  { match goal with |- ?l = [] => destruct l as [|p l'] eqn:Hf end; [done|]. exfalso.
    assert (p ∈ p :: l') as Hp by left. rewrite <- Hf in Hp.
    apply list_elem_of_filter in Hp as [Hon Hp].
    destruct (resolve_peers_spec w others peers Hpeers p Hp) as [_ Hm].
    apply Hdev. rewrite <- Hon. by apply (proj1 (Forall_lookup _ _) Hrep _ _ Hm). }
  by destruct (offload_strategy hk).
Qed.

(** The peers resolve in every store with the same handles and modules at the
    same references. *)
Lemma resolve_peers_transfer w w' hs :
  user_hooks w' = user_hooks w ->
  (forall j, is_Some (modules w !! j) -> is_Some (modules w' !! j)) ->
  is_Some (resolve_peers w hs) -> is_Some (resolve_peers w' hs).
Proof.
  intros Hu Hm. induction hs as [|h hs IH]; simpl; [by eexists|].
  unfold resolve_peer. rewrite Hu.
  destruct (user_hooks w !! h) as [uh|]; [|by intros [? ?]].
  destruct (modules w !! model uh) as [m|] eqn:Hmod; [|by intros [? ?]].
  destruct (Hm (model uh)) as [m' ->]; [by eexists|].
  destruct (resolve_peers w hs) as [ps|]; [|by intros [? ?]].
  destruct IH as [ps' ->]; by eexists.
Qed.

Section InterceptorShape.
Variable fl : Q -> Q.
Variable mem_get_info : option nat -> N.

(** X6.  Placement: with good references [pre_forward] returns and the
    arguments are sent to the execution device; a module that reports the
    execution device is left as it is, any other is moved and then reports
    the device torch gives for the execution device ([cpu] for [cpu:0], the
    current device for an accelerator named without index), otherwise it is
    as it was; no handle is changed. *)
Theorem pre_forward_places_module self module args kwargs w uh m :
  user_hooks w !! self = Some uh ->
  modules w !! module = Some m ->
  (forall others, other_hooks (hook uh) = Some others -> is_Some (resolve_peers w others)) ->
  let dev := execution_device (hook uh) in
  exists w',
    pre_forward fl mem_get_info self module args kwargs w
    = Some ((send_to_device (current_device w) args dev,
             send_kwargs_to_device (current_device w) kwargs dev), w') /\
    modules w' !! module
    = Some (if decide (device m = dev) then m
            else module_on (placed_on (current_device w) dev) m) /\
    user_hooks w' = user_hooks w /\
    current_device w' = current_device w.
Proof. apply pre_forward_returns. Qed.

(** X7.  When the execution device is one that torch reports (as [cuda:0]
    is), or the module reports it already, a second call right after a first
    one moves nothing: it returns the world of the first call unchanged,
    whatever its arguments. *)
Theorem second_call_moves_nothing self module args kwargs w uh m :
  user_hooks w !! self = Some uh ->
  modules w !! module = Some m ->
  (forall others, other_hooks (hook uh) = Some others -> is_Some (resolve_peers w others)) ->
  let dev := execution_device (hook uh) in
  device m = dev \/ placed_on (current_device w) dev = dev ->
  exists res w',
    pre_forward fl mem_get_info self module args kwargs w = Some (res, w') /\
    forall args2 kwargs2,
      pre_forward fl mem_get_info self module args2 kwargs2 w'
      = Some ((send_to_device (current_device w) args2 dev,
               send_kwargs_to_device (current_device w) kwargs2 dev), w').
Proof.
  intros Hself Hmod Hres dev Hrep.
  destruct (pre_forward_returns fl mem_get_info self module args kwargs w uh m)
    as (w' & Hpre & Hm' & Hu & Hcur); [done..|].
  eexists _, w'. split; [exact Hpre|]. intros args2 kwargs2. rewrite <- Hcur.
  eapply pre_forward_on_device; [by rewrite Hu|exact Hm'|].
  destruct (decide (device m = execution_device (hook uh))) as [Hdev|Hdev]; [exact Hdev|].
  destruct Hrep as [?|Hrep]; [done|]. exact Hrep.
Qed.

(** X23.  An execution device that torch never reports, as [cpu:0] (what
    [enable_auto_cpu_offload("cpu")] sets) or an accelerator without index:
    no module is ever found on it.  So every call of [pre_forward] on a hook
    with peers takes the branch of line 93: it offloads no peer and clears
    no cache, moves the module to the device torch reports instead, and
    logs one timing record; a second call right after does the same again,
    and logs again. *)
Theorem unreported_device_is_never_reached self module args kwargs w uh m others :
  user_hooks w !! self = Some uh ->
  modules w !! module = Some m ->
  other_hooks (hook uh) = Some others ->
  is_Some (resolve_peers w others) ->
  devices_as_reported w ->
  let dev := execution_device (hook uh) in
  let id := owner_model_id (hook uh) in
  placed_on (current_device w) dev <> dev ->
  exists res w',
    pre_forward fl mem_get_info self module args kwargs w = Some (res, w') /\
    modules w' !! module = Some (module_on (placed_on (current_device w) dev) m) /\
    (forall j, j <> module -> modules w' !! j = modules w !! j) /\
    cache_clears w' = cache_clears w /\
    log w' = log w ++ [InfoStrategyTime id] /\
    forall args2 kwargs2,
      exists res2 w'',
        pre_forward fl mem_get_info self module args2 kwargs2 w' = Some (res2, w'') /\
        modules w'' = modules w' /\
        cache_clears w'' = cache_clears w' /\
        log w'' = log w' ++ [InfoStrategyTime id].
Proof.
  intros Hself Hmod Hothers [peers Hpeers] Hrep dev id Hdev.
  assert (device m <> dev) as Hoff.
  { intros Heq. apply Hdev. rewrite <- Heq.
    by apply (proj1 (Forall_lookup _ _) Hrep module m). }
  destruct (pre_forward_off_device fl mem_get_info self module args kwargs w uh m
              others peers) as (w' & Hpre & Hu & _ & Hcur & Hc & Hl & Hm); [done..|].
  rewrite (hooks_to_offload_of_unreported fl mem_get_info w (hook uh) m others peers)
    in Hc, Hl, Hm by done.
  simpl in Hc, Hl, Hm.
  assert (forall j, j <> module -> modules w' !! j = modules w !! j) as Hother.
  { intros j Hj. rewrite Hm. by rewrite decide_False. }
  assert (modules w' !! module = Some (module_on (placed_on (current_device w) dev) m))
    as Hmod'.
  { rewrite Hm. by rewrite decide_True. }
  assert (devices_as_reported w') as Hrep'.
  { apply Forall_lookup. intros j mj Hj. rewrite Hcur.
    destruct (decide (j = module)) as [->|Hne].
    - rewrite Hmod' in Hj. injection Hj as <-. simpl. apply placed_on_idemp.
    - rewrite Hother in Hj by done. by apply (proj1 (Forall_lookup _ _) Hrep j mj). }
  eexists _, w'. split_and!; [exact Hpre|done|done|lia|done|].
  intros args2 kwargs2.
  destruct (resolve_peers_transfer w w' others) as [peers' Hpeers']; [done| |by eexists|].
  { intros j [mj Hj]. destruct (decide (j = module)) as [->|Hne]; [by eexists|].
    rewrite Hother by done. by eexists. }
  destruct (pre_forward_off_device fl mem_get_info self module args2 kwargs2 w' uh
              (module_on (placed_on (current_device w) dev) m) others peers')
    as (w'' & Hpre2 & _ & _ & _ & Hc2 & Hl2 & Hm2); [by rewrite Hu|done| |done..|].
  { simpl. exact Hdev. }
  rewrite (hooks_to_offload_of_unreported fl mem_get_info w' (hook uh) _ others peers')
    in Hc2, Hl2, Hm2 by (done || by rewrite Hcur).
  simpl in Hc2, Hl2, Hm2.
  eexists _, w''. split_and!; [exact Hpre2| |lia|done].
  apply list_eq. intros j. rewrite Hm2, Hcur.
  case_decide as Hj; [|done]. subst j. by rewrite Hmod'.
Qed.

(** X8.  What [pre_forward] never does: it changes no handle, and of a module
    nothing but the device, which stays or becomes the CPU or the device
    torch reports for the execution device (so no footprint changes); it
    clears the device cache at most once. *)
Theorem pre_forward_only_moves_modules self module args kwargs w uh res w' :
  user_hooks w !! self = Some uh ->
  pre_forward fl mem_get_info self module args kwargs w = Some (res, w') ->
  Forall2 (moved_only (placed_on (current_device w) (execution_device (hook uh))))
          (modules w) (modules w') /\
  user_hooks w' = user_hooks w /\
  default_device w' = default_device w /\
  current_device w' = current_device w /\
  (cache_clears w <= cache_clears w' <= S (cache_clears w))%nat.
Proof.
  intros Hself Hpre.
  destruct (modules w !! module) as [m|] eqn:Hmod;
    [|unfold pre_forward in Hpre; by rewrite Hself, Hmod in Hpre].
  destruct (decide (device m = execution_device (hook uh))) as [Hdev|Hdev].
  { rewrite (pre_forward_on_device _ _ _ _ _ _ _ uh m) in Hpre by done.
    injection Hpre as _ <-. split; [|split; [done|split; [done|split; [done|lia]]]].
    apply Forall2_of_lookups. intros j. destruct (modules w !! j); [by left|done]. }
  destruct (other_hooks (hook uh)) as [others|] eqn:Hothers.
  - destruct (resolve_peers w others) as [peers|] eqn:Hpeers.
    2:{ unfold pre_forward in Hpre. rewrite Hself, Hmod, decide_True in Hpre by done.
        by rewrite Hothers, Hpeers in Hpre. }
    destruct (pre_forward_off_device fl mem_get_info self module args kwargs w uh m
                others peers) as (w'' & Hpre' & Hu & Hd & Hcur & Hc & _ & Hm); [done..|].
    rewrite Hpre' in Hpre. injection Hpre as _ <-.
    split; [|split; [done|split; [done|split; [done|case_bool_decide; lia]]]].
    apply Forall2_of_lookups. intros j. rewrite Hm.
    destruct (decide (j = module)) as [->|Hne].
    + rewrite Hmod. by right; right.
    + case_decide; destruct (modules w !! j); simpl; try done; [by right; left|by left].
  - rewrite (pre_forward_no_peers _ _ _ _ _ _ _ uh m) in Hpre by done.
    injection Hpre as _ <-. split; [|split; [done|split; [done|split; [done|simpl; lia]]]].
    apply Forall2_of_lookups. intros j. rewrite lookup_module_to.
    case_decide as Hj; [subst j; rewrite Hmod; by right; right|].
    destruct (modules w !! j); [by left|done].
Qed.

(** X9.  The eviction path of [pre_forward]: every selected peer is on the
    CPU afterwards (unless its module is the invoked one), a module that is
    neither the invoked one nor that of a selected peer is untouched, the
    cache is cleared once exactly when a peer was selected, and the log gets
    the records of the strategy, the timing record and one record per
    selected peer, in this order. *)
Theorem pre_forward_offloads_selected self module args kwargs w uh m others peers :
  user_hooks w !! self = Some uh ->
  modules w !! module = Some m ->
  device m <> execution_device (hook uh) ->
  other_hooks (hook uh) = Some others ->
  resolve_peers w others = Some peers ->
  let dev := execution_device (hook uh) in
  let id := owner_model_id (hook uh) in
  let sel := hooks_to_offload_of fl mem_get_info (hook uh) m peers in
  exists res w',
    pre_forward fl mem_get_info self module args kwargs w = Some (res, w') /\
    (forall p, p ∈ sel.1 -> model p.1.2 <> module ->
       modules w' !! model p.1.2 = Some (module_on cpu p.2)) /\
    (forall j, j <> module -> j ∉ map (fun p : Peer => model p.1.2) sel.1 ->
       modules w' !! j = modules w !! j) /\
    cache_clears w' = (cache_clears w + if bool_decide (sel.1 <> []) then 1 else 0)%nat /\
    log w' = log w ++ sel.2 ++ [InfoStrategyTime id]
             ++ map (fun p => InfoMoving id dev (peer_model_id p)) sel.1.
Proof.
  intros Hself Hmod Hdev Hothers Hpeers dev id sel.
  destruct (pre_forward_off_device fl mem_get_info self module args kwargs w uh m
              others peers) as (w' & Hpre & _ & _ & _ & Hc & Hl & Hm); [done..|].
  eexists _, w'. split_and!; [exact Hpre| | |done|done].
  - intros p Hp Hne. rewrite Hm, decide_False by done.
    rewrite decide_True by (by apply (list_elem_of_fmap_2 (fun p : Peer => model p.1.2))).
    apply hooks_to_offload_of_elem in Hp as [Hp _].
    destruct (resolve_peers_spec w others peers Hpeers p Hp) as [_ ->]. done.
  - intros j Hne Hj. rewrite Hm. by rewrite !decide_False.
Qed.

(** X10.  A hook without strategy offloads every peer that is on its
    execution device, and logs no record of a search. *)
Theorem pre_forward_without_strategy_offloads_all
    self module args kwargs w uh m others peers :
  user_hooks w !! self = Some uh ->
  modules w !! module = Some m ->
  device m <> execution_device (hook uh) ->
  other_hooks (hook uh) = Some others ->
  resolve_peers w others = Some peers ->
  offload_strategy (hook uh) = None ->
  let dev := execution_device (hook uh) in
  let id := owner_model_id (hook uh) in
  let on_device := filter (fun p : Peer => device p.2 = dev) peers in
  exists res w',
    pre_forward fl mem_get_info self module args kwargs w = Some (res, w') /\
    (forall p, p ∈ peers -> device p.2 = dev -> model p.1.2 <> module ->
       modules w' !! model p.1.2 = Some (module_on cpu p.2)) /\
    log w' = log w ++ [InfoStrategyTime id]
             ++ map (fun p => InfoMoving id dev (peer_model_id p)) on_device.
Proof.
  intros Hself Hmod Hdev Hothers Hpeers Hnone dev id on_device.
  destruct (pre_forward_off_device fl mem_get_info self module args kwargs w uh m
              others peers) as (w' & Hpre & _ & _ & _ & _ & Hl & Hm); [done..|].
  unfold hooks_to_offload_of in Hl, Hm. rewrite Hnone in Hl, Hm. simpl in Hl, Hm.
  eexists _, w'. split_and!; [exact Hpre| |exact Hl].
  intros p Hp Hon Hne. rewrite Hm, decide_False by done.
  rewrite decide_True.
  - destruct (resolve_peers_spec w others peers Hpeers p Hp) as [_ ->]. done.
  - apply (list_elem_of_fmap_2 (fun p : Peer => model p.1.2)).
    by apply list_elem_of_filter.
Qed.
End InterceptorShape.

(* ===================================================================== *)
(** * Further properties of the registry *)

Lemma manager_inv_init : manager_inv ModelManager_init.
Proof.
  unfold manager_inv. simpl. split_and!; [constructor| |done|done].
  split; [done|]. by intros [? ?].
Qed.

Lemma manager_inv_enable self dev margin w :
  NoDup (keys (models self)) ->
  manager_inv (enable_auto_cpu_offload self dev margin w).1.
Proof.
  intros Hnd. destruct (enable_spec self dev margin w) as (base & Hr & _). simpl in Hr.
  rewrite Hr. unfold manager_inv. simpl. split_and!; [done| |by eexists|].
  - split; [by eexists|done].
  - intros hs [= <-]. apply length_seq.
Qed.

Lemma manager_inv_disable self w :
  NoDup (keys (models self)) ->
  manager_inv (disable_auto_cpu_offload self w).1.
Proof.
  intros Hnd. unfold disable_auto_cpu_offload, manager_inv.
  destruct (model_hooks self) as [hs|] eqn:Hhs; simpl; rewrite ?Hhs;
    (split_and!; [done| |done|done]); (split; [done|by intros [? ?]]).
Qed.

Lemma keys_filter_ne (d : dict nat) id :
  sublist (keys (filter (fun kv => kv.1 <> id) d)) (keys d).
Proof. apply (fmap_sublist fst). apply sublist_filter. Qed.

(** [add] and [remove] re-enable a manager that is enabled; what they pass
    to [reenable] differs from a manager of the invariant in its models
    only, which [enable_auto_cpu_offload] pairs with new handles. *)
Lemma reenable_new_models self (models' : list (string * nat)) w :
  manager_inv self -> NoDup (keys models') ->
  let self' := mkManager models' (model_hooks self) (_auto_offload_enabled self)
                         (_auto_offload_device self) in
  (reenable self' w).1 = Return tt /\ manager_inv (reenable self' w).2.1 /\
  models (reenable self' w).2.1 = models'.
Proof.
  intros (Hnd & Hiff & Hdev & Hlen) Hnd'. simpl. unfold reenable. simpl.
  destruct (_auto_offload_enabled self) eqn:He.
  - destruct (Hdev eq_refl) as [d ->]. simpl.
    split_and!; [done|by apply manager_inv_enable|].
    match goal with
    | |- context [enable_auto_cpu_offload ?s ?d ?m ?w'] =>
        destruct (enable_spec s d m w') as (base & Hr & _)
    end.
    simpl in Hr. by rewrite Hr.
  - simpl. split_and!; [done| |done]. unfold manager_inv. simpl.
    assert (model_hooks self = None) as Hnone.
    { destruct (model_hooks self) eqn:Hh; [|done].
      destruct Hiff as [_ Hiff]. by discriminate Hiff. }
    rewrite Hnone. split_and!; [done| |done|done].
    split; [done|by intros [? ?]].
Qed.

Lemma filter_all {A} (P : A -> Prop) `{!forall x, Decision (P x)} (l : list A) :
  Forall P l -> filter P l = l.
Proof.
  induction 1 as [|x l Hx _ IH]; [done|].
  rewrite filter_cons, decide_True by done. by rewrite IH.
Qed.

Lemma dict_get_filter_ne {V} (d : dict V) id id' :
  dict_get (filter (fun kv => kv.1 <> id) d) id'
  = if decide (id' = id) then None else dict_get d id'.
Proof.
  induction d as [|[k v] d IH]; [by case_decide|].
  rewrite filter_cons. simpl. destruct (decide (k <> id)) as [Hk|Hk]; simpl; rewrite IH.
  - repeat case_decide; congruence.
  - apply dec_stable in Hk. repeat case_decide; congruence.
Qed.

Lemma length_filter_key (d : dict nat) id :
  NoDup (keys d) -> id ∈ keys d ->
  length (filter (fun kv => kv.1 <> id) d) = (length d - 1)%nat.
Proof.
  induction d as [|[k v] d IH]; [by intros _ ?%elem_of_nil|].
  intros [Hk Hnd]%NoDup_cons. rewrite filter_cons. simpl.
  intros [->|Hin]%elem_of_cons.
  - rewrite decide_False by (by intros ?). 
    rewrite (filter_all _ d).
    + simpl. lia.
    + apply Forall_forall. intros [k' v'] Hin Heq. simpl in Heq. subst k'.
      destruct Hk. by apply (list_elem_of_fmap_2 fst) in Hin.
  - rewrite decide_True by (intros ->; done). simpl. rewrite IH by done.
    destruct d; [by apply elem_of_nil in Hin|]. simpl. lia.
Qed.

Lemma manager_inv_add self id module w :
  manager_inv self ->
  (add self id module w).1 = Return tt /\ manager_inv (add self id module w).2.1.
Proof.
  intros Hinv. pose proof Hinv as (Hnd & _).
  unfold add. case_bool_decide as Hid; [|done].
  destruct (reenable_new_models self (models self ++ [(id, module)]) w Hinv)
    as (? & ? & _); [|done].
  unfold keys. rewrite map_app. apply NoDup_app. split_and!; [done| |apply NoDup_singleton].
  intros k Hk ->%list_elem_of_singleton. done.
Qed.

Lemma manager_inv_remove self id w :
  manager_inv self ->
  ((remove self id w).1 = Return tt <-> id ∈ keys (models self)) /\
  manager_inv (remove self id w).2.1.
Proof.
  intros Hinv. pose proof Hinv as (Hnd & _).
  unfold remove, dict_pop. destruct (dict_get (models self) id) as [v|] eqn:Hget.
  - destruct (reenable_new_models self (filter (fun kv => kv.1 <> id) (models self)) w Hinv)
      as (Hr & Hi & _).
    { exact (sublist_NoDup _ _ Hnd (keys_filter_ne _ _)). }
    split; [|done]. split; [|done]. intros _.
    destruct (decide (id ∈ keys (models self))) as [|Hn]; [done|].
    apply dict_get_None in Hn. congruence.
  - split; [|done]. apply dict_get_None in Hget. split; [done|]. by intros ?.
Qed.

(** X11.  The invariant of the registry is kept by every operation; on a
    manager of the invariant [add] never raises and [remove] raises only
    for an id that is not registered. *)
Theorem manager_inv_preserved self w id module dev margin :
  manager_inv self ->
  (add self id module w).1 = Return tt /\
  manager_inv (add self id module w).2.1 /\
  (id ∈ keys (models self) -> (remove self id w).1 = Return tt) /\
  manager_inv (remove self id w).2.1 /\
  manager_inv (enable_auto_cpu_offload self dev margin w).1 /\
  manager_inv (disable_auto_cpu_offload self w).1.
Proof.
  intros Hinv. pose proof Hinv as (Hnd & _).
  destruct (manager_inv_add self id module w Hinv) as [Ha Hia].
  destruct (manager_inv_remove self id w Hinv) as [Hr Hir].
  split_and!; [done|done|by apply Hr|done| |].
  - by apply manager_inv_enable.
  - by apply manager_inv_disable.
Qed.

(** X22.  Whatever sequence of [add], [remove], [enable_auto_cpu_offload]
    and [disable_auto_cpu_offload] a client calls on a new manager, the
    manager satisfies the invariant afterwards: its ids are distinct, it is
    enabled exactly when it holds handles, one per model; the next [add]
    does not raise, and the next [remove] raises exactly for an id that is
    not registered. *)
Theorem calls_keep_manager_inv cs w :
  let r := calls cs (ModelManager_init, w) in
  manager_inv r.1 /\
  (forall id module, (add r.1 id module r.2).1 = Return tt) /\
  (forall id, (remove r.1 id r.2).1 = Return tt <-> id ∈ keys (models r.1)).
Proof.
  simpl.
  assert (forall s, manager_inv s.1 -> manager_inv (calls cs s).1) as Hcalls.
  { unfold calls. induction cs as [|c cs IH]; intros s Hinv; simpl; [done|].
    apply IH. pose proof Hinv as (Hnd & _). destruct c; simpl.
    - by apply manager_inv_add.
    - by apply manager_inv_remove.
    - by apply manager_inv_enable.
    - by apply manager_inv_disable. }
  pose proof (Hcalls (ModelManager_init, w) manager_inv_init) as Hinv.
  split_and!; [done| |].
  - intros id module. by apply manager_inv_add.
  - intros id. by apply manager_inv_remove.
Qed.

(** X12.  [add] of a new id: the entry goes to the end of the models, the id
    is then bound to the module and every other id is bound as before,
    whether the manager is enabled or not. *)
Theorem add_binds_new_id self w id module :
  manager_inv self ->
  id ∉ keys (models self) ->
  let added := add self id module w in
  added.1 = Return tt /\
  models added.2.1 = models self ++ [(id, module)] /\
  dict_get (models added.2.1) id = Some module /\
  forall id', id' <> id -> dict_get (models added.2.1) id' = dict_get (models self) id'.
Proof.
  intros Hinv Hid. pose proof Hinv as (Hnd & _). simpl.
  assert (NoDup (keys (models self ++ [(id, module)]))) as Hnd'.
  { unfold keys. rewrite map_app. apply NoDup_app. split_and!; [done| |apply NoDup_singleton].
    intros k Hk ->%list_elem_of_singleton. done. }
  destruct (reenable_new_models self (models self ++ [(id, module)]) w Hinv Hnd')
    as (Hret & _ & Hmodels).
  unfold add. rewrite bool_decide_eq_true_2 by done.
  rewrite Hmodels. split_and!; [done|done| |].
  - rewrite dict_get_app. apply dict_get_None in Hid. rewrite Hid. simpl.
    by rewrite decide_True.
  - intros id' Hne. rewrite dict_get_app. destruct (dict_get (models self) id'); [done|].
    simpl. by rewrite decide_False.
Qed.

(** X13.  [remove] of a registered id: the id is bound no more, every other
    id is bound as before and keeps its place, and there is one model less,
    whether the manager is enabled or not. *)
Theorem remove_unbinds_id self w id :
  manager_inv self ->
  id ∈ keys (models self) ->
  let removed := remove self id w in
  removed.1 = Return tt /\
  models removed.2.1 = filter (fun kv => kv.1 <> id) (models self) /\
  dict_get (models removed.2.1) id = None /\
  (forall id', id' <> id ->
     dict_get (models removed.2.1) id' = dict_get (models self) id') /\
  length (models removed.2.1) = (length (models self) - 1)%nat.
Proof.
  intros Hinv Hid. pose proof Hinv as (Hnd & _). simpl.
  assert (NoDup (keys (filter (fun kv => kv.1 <> id) (models self)))) as Hnd'
    by exact (sublist_NoDup _ _ Hnd (keys_filter_ne _ _)).
  destruct (reenable_new_models self _ w Hinv Hnd') as (Hret & _ & Hmodels).
  unfold remove, dict_pop. destruct (dict_get_is_Some _ _ Hid) as [v ->].
  rewrite Hmodels. split_and!; [done|done| | |].
  - rewrite dict_get_filter_ne. by rewrite decide_True.
  - intros id' Hne. rewrite dict_get_filter_ne. by rewrite decide_False.
  - by apply length_filter_key.
Qed.

(** X14.  On a manager that is not enabled, [remove] undoes [add] of a new
    id: manager and store are as before. *)
Theorem remove_undoes_add self w id module :
  _auto_offload_enabled self = false ->
  id ∉ keys (models self) ->
  let added := add self id module w in
  remove added.2.1 id added.2.2 = (Return tt, (self, w)).
Proof.
  intros He Hid. simpl. unfold add. rewrite bool_decide_eq_true_2 by done.
  unfold reenable. simpl. rewrite He. simpl.
  unfold remove, dict_pop. simpl. rewrite dict_get_app.
  apply dict_get_None in Hid as Hget. rewrite Hget. simpl. rewrite decide_True by done.
  do 2 f_equal.
  rewrite filter_app, filter_cons. simpl. rewrite decide_False by (by intros ?).
  rewrite filter_nil, app_nil_r. rewrite filter_all.
  - unfold reenable. simpl. destruct self. simpl in He. by subst.
  - apply Forall_forall. intros [k v] Hin Heq. simpl in Heq. subst k.
    apply Hid. by apply (list_elem_of_fmap_2 fst) in Hin.
Qed.

(** ** Handles and modules after [enable_auto_cpu_offload] *)

(** X15.  [enable_auto_cpu_offload] builds one handle per model, in the
    order of the models: the handle of an entry carries its id and its
    module, records the id on the hook, decides with a strategy of the given
    margin, and targets the given device, index 0 standing in for no
    index. *)
Theorem enable_builds_one_handle_per_model self dev margin w :
  let r := enable_auto_cpu_offload self dev margin w in
  let target := normalize_device dev in
  dev_type target = dev_type dev /\
  dev_index target = Some (default O (dev_index dev)) /\
  _auto_offload_device r.1 = Some target /\
  exists hs,
    model_hooks r.1 = Some hs /\
    length hs = length (models self) /\
    forall k entry,
      models self !! k = Some entry ->
      exists h uh,
        hs !! k = Some h /\
        user_hooks r.2 !! h = Some uh /\
        model_id uh = entry.1 /\
        model uh = entry.2 /\
        owner_model_id (hook uh) = Some entry.1 /\
        execution_device (hook uh) = target /\
        offload_strategy (hook uh) = Some (mkStrategy margin).
Proof.
  simpl. destruct (enable_spec self dev margin w) as (base & Hr & Hh & _). simpl in *.
  split_and!.
  - unfold normalize_device. by destruct (dev_index dev).
  - unfold normalize_device. by destruct (dev_index dev) eqn:Hi.
  - by rewrite Hr.
  - exists (seq base (length (models self))). rewrite Hr. simpl.
    split_and!; [done|apply length_seq|].
    intros k entry Hk. pose proof (lookup_lt_Some _ _ _ Hk) as Hlt.
    destruct (Hh (base + k)%nat) as (entry' & uh & Hentry' & Huh & Hstrip & _).
    { apply elem_of_seq. lia. }
    replace (base + k - base)%nat with k in Hentry' by lia.
    rewrite Hk in Hentry'. injection Hentry' as <-.
    exists (base + k)%nat, uh. split_and!; [by apply lookup_seq_lt|done|..].
    + change (model_id (strip_peers uh) = entry.1). by rewrite Hstrip.
    + change (model (strip_peers uh) = entry.2). by rewrite Hstrip.
    + change (owner_model_id (hook (strip_peers uh)) = Some entry.1). by rewrite Hstrip.
    + rewrite <- strip_peers_execution_device. by rewrite Hstrip.
    + rewrite <- strip_peers_offload_strategy. by rewrite Hstrip.
Qed.

Lemma contents_alter (f : Module -> Module) i (l : list Module) :
  (forall m, module_contents (f m) = module_contents m) ->
  map module_contents (alter f i l) = map module_contents l.
Proof. apply map_alter_absorb. Qed.

Lemma contents_module_to i dev w :
  map module_contents (modules (module_to i dev w)) = map module_contents (modules w).
Proof. simpl. by apply contents_alter. Qed.

Lemma contents_set_hf_hook i h w :
  map module_contents (modules (set_hf_hook i h w)) = map module_contents (modules w).
Proof. simpl. by apply contents_alter. Qed.

Lemma contents_offload h w :
  map module_contents (modules (offload h w)) = map module_contents (modules w).
Proof.
  unfold offload. destruct (user_hooks w !! h); [|done]. apply contents_module_to.
Qed.

Lemma contents_remove_hook h w :
  map module_contents (modules (remove_hook h w)) = map module_contents (modules w).
Proof.
  unfold remove_hook. destruct (user_hooks w !! h); [|done].
  simpl. by apply contents_alter.
Qed.

Lemma contents_custom_offload_with_hook id module dev strategy w :
  map module_contents (modules (custom_offload_with_hook id module dev strategy w).2)
  = map module_contents (modules w).
Proof.
  unfold custom_offload_with_hook, attach. cbn [snd user_hooks with_user_hooks].
  rewrite list_lookup_middle by done.
  unfold set_owner_model_id, add_hook_to_module, init_hook.
  cbn [modules with_user_hooks user_hooks model].
  by rewrite contents_set_hf_hook, contents_module_to.
Qed.

Lemma contents_create_hooks dev strategy entries all_hooks w :
  map module_contents (modules (create_hooks dev strategy entries (all_hooks, w)).2)
  = map module_contents (modules w).
Proof.
  revert all_hooks w. induction entries as [|[id module] entries IH]; intros all_hooks w.
  - done.
  - unfold create_hooks in *. cbn [foldl].
    pose proof (contents_custom_offload_with_hook id module (Some dev) (Some strategy) w)
      as Hstep.
    destruct (custom_offload_with_hook (id, module).1 (id, module).2 (Some dev)
                (Some strategy) w) as [h w1] eqn:Hc.
    simpl in Hc. rewrite Hc in Hstep. simpl in Hstep. by rewrite IH.
Qed.

Lemma contents_strip (entries : list (string * nat)) w :
  map module_contents
      (modules (foldl (fun w entry =>
                         if has_hf_hook w entry.2
                         then remove_hook_from_module entry.2 w else w) w entries))
  = map module_contents (modules w).
Proof.
  revert w. induction entries as [|entry entries IH]; intros w; simpl; [done|].
  rewrite IH. destruct (has_hf_hook w entry.2); [|done].
  apply contents_set_hf_hook.
Qed.

Lemma contents_disable self w :
  map module_contents (modules (disable_auto_cpu_offload self w).2)
  = map module_contents (modules w).
Proof.
  unfold disable_auto_cpu_offload. destruct (model_hooks self) as [hs|]; [|done]. simpl.
  transitivity (map module_contents
                    (modules (foldl (fun w h => remove_hook h (offload h w)) w hs))).
  { by case_bool_decide. }
  clear. revert w. induction hs as [|h hs IH]; intros w; simpl; [done|].
  by rewrite IH, contents_remove_hook, contents_offload.
Qed.

Lemma contents_enable self dev margin w :
  map module_contents (modules (enable_auto_cpu_offload self dev margin w).2)
  = map module_contents (modules w).
Proof.
  unfold enable_auto_cpu_offload.
  set (w1 := foldl _ w (models self)).
  assert (map module_contents (modules w1) = map module_contents (modules w)) as H1
    by apply contents_strip.
  pose proof (contents_disable self w1) as H2.
  destruct (disable_auto_cpu_offload self w1) as [self1 w2]. simpl in H2.
  pose proof (contents_create_hooks (normalize_device dev) (mkStrategy margin)
                (models self1) [] w2) as H3.
  destruct (create_hooks _ _ _ _) as [all_hooks w3]. simpl in H3. simpl.
  assert (modules (wire_peers all_hooks w3) = modules w3) as ->.
  { unfold wire_peers. clear. generalize all_hooks at 1. intros l. revert w3.
    induction all_hooks as [|h hs IH]; intros w3; simpl; [done|].
    rewrite IH. unfold wire_one. generalize (filter (fun h' => h' <> h) l).
    clear. intros others. revert w3.
    induction others as [|o others IH]; intros w3; simpl; [done|].
    rewrite IH. by case_bool_decide. }
  congruence.
Qed.

Lemma contents_lookup (l k : list Module) j m m' :
  map module_contents l = map module_contents k ->
  l !! j = Some m -> k !! j = Some m' -> module_contents m = module_contents m'.
Proof.
  intros Heq Hm Hm'.
  assert (map module_contents l !! j = map module_contents k !! j) as Hj by (by rewrite Heq).
  change (map ?f ?x) with (f <$> x) in Hj. rewrite !list_lookup_fmap, Hm, Hm' in Hj.
  by apply (inj Some) in Hj.
Qed.


(** After the loop of lines 257-260 the module of an entry is on the CPU and
    carries the hook of the handle of an entry with the same module. *)
Lemma create_hooks_module_state dev strategy entries all_hooks w entry m :
  entry ∈ entries ->
  modules (create_hooks dev strategy entries (all_hooks, w)).2 !! entry.2 = Some m ->
  exists h entry',
    h ∈ seq (length (user_hooks w)) (length entries) /\
    entries !! (h - length (user_hooks w))%nat = Some entry' /\
    entry'.2 = entry.2 /\
    device m = cpu /\
    _hf_hook m = Some (OffloadHook h).
Proof.
  revert all_hooks w entry.
  induction entries as [|[id module] entries IH]; intros all_hooks w entry Hin.
  - by apply elem_of_nil in Hin.
  - unfold create_hooks in *. cbn [foldl].
    pose proof (modules_custom_offload_with_hook id module (Some dev) (Some strategy) w
                  entry.2) as Hstep.
    destruct (custom_offload_with_hook_spec id module dev strategy w) as [Hh Hw].
    destruct (custom_offload_with_hook (id, module).1 (id, module).2 (Some dev)
                (Some strategy) w) as [h w1] eqn:Hc.
    simpl in Hc. rewrite Hc in Hstep, Hh, Hw. simpl in Hstep, Hh, Hw. subst h.
    intros Hm. destruct (decide (entry.2 ∈ map snd entries)) as [Hlater|Hnot].
    + apply list_elem_of_fmap in Hlater as (entry1 & Heq & Hin1).
      rewrite Heq in Hm. destruct (IH _ _ _ Hin1 Hm) as (h & entry' & Hh & He' & H2 & Hd & Hk).
      rewrite Hw, length_app in Hh, He'. simpl in Hh, He'.
      apply elem_of_seq in Hh. exists h, entry'. split_and!; [|  |congruence|done|done].
      * apply elem_of_seq. simpl. lia.
      * replace (h - length (user_hooks w))%nat
          with (S (h - (length (user_hooks w) + 1)))%nat by lia. done.
    + fold (create_hooks dev strategy entries (all_hooks ++ [length (user_hooks w)], w1)) in Hm.
      rewrite create_hooks_modules_notin in Hm by done.
      apply elem_of_cons in Hin as [->|Hin].
      * simpl in *. rewrite decide_True in Hstep by done. rewrite Hstep in Hm.
        destruct (modules w !! module); [|done]. simpl in Hm.
        injection Hm as <-. exists (length (user_hooks w)), (id, module).
        rewrite Nat.sub_diag. split_and!; [left|done..].
      * destruct Hnot. by apply (list_elem_of_fmap_2 snd).
Qed.

Lemma enable_module_state self dev margin w entry m :
  let r := enable_auto_cpu_offload self dev margin w in
  entry ∈ models self ->
  modules r.2 !! entry.2 = Some m ->
  exists hs h uh,
    model_hooks r.1 = Some hs /\ h ∈ hs /\
    device m = cpu /\
    _hf_hook m = Some (OffloadHook h) /\
    user_hooks r.2 !! h = Some uh /\
    model uh = entry.2 /\
    execution_device (hook uh) = normalize_device dev /\
    offload_strategy (hook uh) = Some (mkStrategy margin).
Proof.
  unfold enable_auto_cpu_offload.
  set (w1 := foldl _ w (models self)).
  pose proof (models_disable self w1) as Hmodels.
  destruct (disable_auto_cpu_offload self w1) as [self1 w2]. simpl in Hmodels.
  rewrite Hmodels.
  destruct (create_hooks_spec (normalize_device dev) (mkStrategy margin) (models self) [] w2)
    as [Hall Hstore].
  pose proof (create_hooks_module_state (normalize_device dev) (mkStrategy margin)
                (models self) [] w2 entry m) as Hstate.
  destruct (create_hooks _ _ _ _) as [all_hooks w3]. simpl in Hall, Hstore, Hstate.
  subst all_hooks. simpl.
  set (all_hooks := seq (length (user_hooks w2)) (length (models self))).
  destruct (wire_peers_spec all_hooks (normalize_device dev) w3) as (Hstrip & _ & Hmods).
  { apply NoDup_seq. }
  { intros h Hh. unfold hook_execution_device. rewrite Hstore.
    destruct (lookup_created_handle (user_hooks w2) (normalize_device dev)
                (mkStrategy margin) (models self) h Hh) as (e & _ & ->). done. }
  intros Hin Hm. rewrite Hmods in Hm.
  destruct (Hstate Hin Hm) as (h & entry' & Hh & He' & H2 & Hd & Hk).
  destruct (lookup_created_handle (user_hooks w2) (normalize_device dev)
              (mkStrategy margin) (models self) h Hh) as (e & He & Hlookup).
  rewrite He' in He. injection He as <-. rewrite <- Hstore in Hlookup.
  assert (map strip_peers (user_hooks (wire_peers all_hooks w3)) !! h
          = Some (strip_peers (fresh_handle (normalize_device dev) (mkStrategy margin)
                                            entry'))) as Hl.
  { rewrite Hstrip. change (map ?f ?l) with (f <$> l).
    by rewrite list_lookup_fmap, Hlookup. }
  change (map ?f ?l) with (f <$> l) in Hl. rewrite list_lookup_fmap in Hl.
  destruct (user_hooks (wire_peers all_hooks w3) !! h) as [uh|] eqn:Huh; [|done].
  simpl in Hl. apply (inj Some) in Hl.
  exists all_hooks, h, uh. split_and!; [done..| | |].
  - change (model (strip_peers uh) = entry.2). by rewrite Hl.
  - rewrite <- strip_peers_execution_device. by rewrite Hl.
  - rewrite <- strip_peers_offload_strategy. by rewrite Hl.
Qed.

(** X17.  After [enable_auto_cpu_offload] every module of the manager is on
    the CPU and carries the hook of one of the new handles; that handle
    points back to the module, targets the device of the manager and decides
    with the strategy of the given margin. *)
Theorem enable_hooks_every_module self dev margin w entry m :
  let r := enable_auto_cpu_offload self dev margin w in
  entry ∈ models self ->
  modules r.2 !! entry.2 = Some m ->
  exists hs h uh,
    model_hooks r.1 = Some hs /\ h ∈ hs /\
    device m = cpu /\
    _hf_hook m = Some (OffloadHook h) /\
    user_hooks r.2 !! h = Some uh /\
    model uh = entry.2 /\
    execution_device (hook uh) = normalize_device dev /\
    offload_strategy (hook uh) = Some (mkStrategy margin).
Proof. apply enable_module_state. Qed.

(** ** [disable_auto_cpu_offload] *)

Lemma alter_lookup_None {A} (f : A -> A) (l : list A) i :
  l !! i = None -> alter f i l = l.
Proof.
  intros Hi. apply list_eq. intros j. rewrite list_lookup_alter.
  case_decide; [|done]. subst. by rewrite Hi.
Qed.

(** One round of the loop of lines 277-279. *)
Lemma disable_step_spec h w :
  let w' := remove_hook h (offload h w) in
  user_hooks w'
  = alter (with_hook (fun hk => mkHook (execution_device hk) (other_hooks hk)
                                       (offload_strategy hk) None)) h (user_hooks w) /\
  cache_clears w' = cache_clears w /\
  forall j,
    modules w' !! j
    = match user_hooks w !! h with
      | Some uh =>
          if decide (j = model uh)
          then (fun m => mkModule (class_name m) cpu (dtype m) (parameters m) (buffers m)
                                  None) <$> modules w !! j
          else modules w !! j
      | None => modules w !! j
      end.
Proof.
  unfold remove_hook, offload. simpl.
  destruct (user_hooks w !! h) as [uh|] eqn:Huh; simpl; rewrite Huh; simpl.
  - split_and!; [done..|]. intros j. case_decide as Hj.
    + subst j. rewrite !list_lookup_alter_eq. by destruct (modules w !! model uh).
    + by rewrite !list_lookup_alter_ne.
  - split_and!; [|done..]. by rewrite alter_lookup_None.
Qed.

Lemma disable_fold_spec hs w :
  let w' := foldl (fun w h => remove_hook h (offload h w)) w hs in
  map model (user_hooks w') = map model (user_hooks w) /\
  cache_clears w' = cache_clears w /\
  (forall j, (forall m, modules w !! j = Some m -> detached m) ->
             forall m, modules w' !! j = Some m -> detached m) /\
  (forall h, (forall uh, user_hooks w !! h = Some uh -> owner_model_id (hook uh) = None) ->
             forall uh, user_hooks w' !! h = Some uh -> owner_model_id (hook uh) = None) /\
  forall h uh, h ∈ hs -> user_hooks w !! h = Some uh ->
    (forall m, modules w' !! model uh = Some m -> detached m) /\
    (forall uh', user_hooks w' !! h = Some uh' -> owner_model_id (hook uh') = None).
Proof.
  revert w. induction hs as [|h hs IH]; intros w; simpl.
  - split_and!; [done..|]. by intros h uh ?%elem_of_nil.
  - destruct (disable_step_spec h w) as (Hu & Hc & Hm).
    set (w1 := remove_hook h (offload h w)) in *.
    destruct (IH w1) as (IHu & IHc & IHp & IHq & IHall).
    assert (map model (user_hooks w1) = map model (user_hooks w)) as Hmodel
      by (rewrite Hu; by apply map_alter_absorb).
    assert (forall j, (forall m, modules w !! j = Some m -> detached m) ->
                      forall m, modules w1 !! j = Some m -> detached m) as Hp1.
    { intros j Hj m. rewrite Hm. destruct (user_hooks w !! h) as [uh|]; [|apply Hj].
      case_decide; [|apply Hj]. destruct (modules w !! _); simpl; [|done].
      by intros [= <-]. }
    assert (forall h', (forall uh, user_hooks w !! h' = Some uh ->
                                   owner_model_id (hook uh) = None) ->
                       forall uh, user_hooks w1 !! h' = Some uh ->
                                  owner_model_id (hook uh) = None) as Hq1.
    { intros h' Hh' uh. rewrite Hu, list_lookup_alter. case_decide; [|apply Hh'].
      destruct (user_hooks w !! _); simpl; [|done]. by intros [= <-]. }
    split_and!.
    + congruence.
    + congruence.
    + intros j Hj. apply IHp. by apply Hp1.
    + intros h' Hh'. apply IHq. by apply Hq1.
    + intros h' uh [->|Hin]%elem_of_cons Huh.
      * split.
        -- apply IHp. intros m. rewrite Hm, Huh, decide_True by done.
           destruct (modules w !! model uh); simpl; [|done]. by intros [= <-].
        -- apply IHq. intros uh1. rewrite Hu, list_lookup_alter_eq, Huh. simpl.
           by intros [= <-].
      * assert (exists uh1, user_hooks w1 !! h' = Some uh1 /\ model uh1 = model uh)
          as (uh1 & Huh1 & Heq).
        { assert (map model (user_hooks w1) !! h' = map model (user_hooks w) !! h') as Hl
            by (by rewrite Hmodel).
          change (map ?f ?l) with (f <$> l) in Hl.
          rewrite !list_lookup_fmap, Huh in Hl.
          destruct (user_hooks w1 !! h') as [uh1|]; [|done].
          exists uh1. split; [done|]. by injection Hl. }
        destruct (IHall h' uh1 Hin Huh1) as [Hd Ho]. by rewrite Heq in Hd.
Qed.

(** X18.  [disable_auto_cpu_offload] on a manager with handles: the manager
    keeps its models and is inactive without handles; the module of every
    handle is on the CPU without hook, the hook of every handle has lost its
    owner id, and the device cache is cleared once if there was a handle. *)
Theorem disable_detaches_every_handle self w hs h uh :
  model_hooks self = Some hs ->
  h ∈ hs ->
  user_hooks w !! h = Some uh ->
  let r := disable_auto_cpu_offload self w in
  r.1 = mkManager (models self) None false (_auto_offload_device self) /\
  cache_clears r.2 = S (cache_clears w) /\
  (forall m, modules r.2 !! model uh = Some m -> detached m) /\
  (forall uh', user_hooks r.2 !! h = Some uh' ->
     model uh' = model uh /\ owner_model_id (hook uh') = None).
Proof.
  intros Hhs Hin Huh. unfold disable_auto_cpu_offload. rewrite Hhs. simpl.
  destruct (disable_fold_spec hs w) as (Hmodel & Hc & _ & _ & Hall).
  destruct (Hall h uh Hin Huh) as [Hd Ho].
  rewrite bool_decide_eq_true_2 by (intros ->; by apply elem_of_nil in Hin).
  simpl. split_and!; [done|by rewrite Hc|done|].
  intros uh' Huh'. split; [|by apply Ho].
  assert (map model (user_hooks (foldl (fun w h => remove_hook h (offload h w)) w hs)) !! h
          = map model (user_hooks w) !! h) as Hl by (by rewrite Hmodel).
  change (map ?f ?l) with (f <$> l) in Hl.
  rewrite !list_lookup_fmap, Huh, Huh' in Hl. by injection Hl.
Qed.

(** X19.  Enabling and then disabling leaves the manager inactive with its
    models, and every module of the manager as it was before, but on the CPU
    and without hook. *)
Theorem disable_after_enable self dev margin w entry m :
  let enabled := enable_auto_cpu_offload self dev margin w in
  let r := disable_auto_cpu_offload enabled.1 enabled.2 in
  entry ∈ models self ->
  modules w !! entry.2 = Some m ->
  models r.1 = models self /\
  model_hooks r.1 = None /\
  _auto_offload_enabled r.1 = false /\
  modules r.2 !! entry.2
  = Some (mkModule (class_name m) cpu (dtype m) (parameters m) (buffers m) None).
Proof.
  simpl. intros Hin Hm.
  destruct (enable_spec self dev margin w) as (base & Hr & Hh & _). simpl in Hr, Hh.
  pose proof (contents_enable self dev margin w) as Hce.
  pose proof (contents_disable (enable_auto_cpu_offload self dev margin w).1
                (enable_auto_cpu_offload self dev margin w).2) as Hcd.
  destruct (enable_auto_cpu_offload self dev margin w) as [self1 w1]. simpl in *. subst self1.
  unfold disable_auto_cpu_offload in *. simpl in *.
  split_and!; [done..|].
  apply list_elem_of_lookup in Hin as [k Hk].
  pose proof (lookup_lt_Some _ _ _ Hk) as Hlt.
  destruct (Hh (base + k)%nat) as (entry' & uh & Hentry' & Huh & Hstrip & _).
  { apply elem_of_seq. lia. }
  replace (base + k - base)%nat with k in Hentry' by lia.
  rewrite Hk in Hentry'. injection Hentry' as <-.
  assert (model uh = entry.2) as Hmodel
    by (change (model (strip_peers uh) = entry.2); by rewrite Hstrip).
  destruct (disable_fold_spec (seq base (length (models self))) w1) as (_ & _ & _ & _ & Hall).
  destruct (Hall (base + k)%nat uh) as [Hd _]; [apply elem_of_seq; lia|done|].
  rewrite Hmodel in Hd.
  set (w2 := foldl (fun w h => remove_hook h (offload h w)) w1
                   (seq base (length (models self)))) in *.
  assert (modules (if bool_decide (seq base (length (models self)) <> [])
                   then clear_device_cache w2 else w2) = modules w2) as Hmods
    by (by case_bool_decide).
  rewrite Hmods in *.
  assert (map module_contents (modules w2) = map module_contents (modules w)) as Hc
    by congruence.
  destruct (modules w2 !! entry.2) as [m'|] eqn:Hm'.
  - destruct (Hd m' eq_refl) as [Hdev Hhook].
    pose proof (contents_lookup _ _ _ _ _ Hc Hm' Hm) as Hcont.
    unfold module_contents in Hcont. injection Hcont as H1 H2 H3 H4.
    destruct m'. simpl in *. by subst.
  - exfalso. apply lookup_ge_None in Hm'. apply lookup_lt_Some in Hm.
    assert (length (modules w2) = length (modules w)) as Hlen
      by (by rewrite <- (length_map module_contents), Hc, length_map).
    lia.
Qed.

Lemma length_user_hooks_disable self w :
  length (user_hooks (disable_auto_cpu_offload self w).2) = length (user_hooks w).
Proof.
  unfold disable_auto_cpu_offload. destruct (model_hooks self) as [hs|]; [|done]. simpl.
  transitivity (length (user_hooks (foldl (fun w h => remove_hook h (offload h w)) w hs))).
  { by case_bool_decide. }
  clear. revert w. induction hs as [|h hs IH]; intros w; simpl; [done|].
  rewrite IH. destruct (disable_step_spec h w) as (-> & _). apply length_alter.
Qed.

Lemma user_hooks_strip (entries : list (string * nat)) w :
  user_hooks (foldl (fun w entry =>
                       if has_hf_hook w entry.2
                       then remove_hook_from_module entry.2 w else w) w entries)
  = user_hooks w.
Proof.
  revert w. induction entries as [|entry entries IH]; intros w; simpl; [done|].
  rewrite IH. by destruct (has_hf_hook w entry.2).
Qed.

(** X20.  The handles of [enable_auto_cpu_offload] are new objects: they are
    the next references of the store, one per model, so none of them is a
    handle that existed before, also when the manager was enabled already. *)
Theorem enable_allocates_new_handles self dev margin w :
  let r := enable_auto_cpu_offload self dev margin w in
  model_hooks r.1 = Some (seq (length (user_hooks w)) (length (models self))) /\
  length (user_hooks r.2) = (length (user_hooks w) + length (models self))%nat /\
  forall h hs, model_hooks r.1 = Some hs -> h ∈ hs -> user_hooks w !! h = None.
Proof.
  assert (let r := enable_auto_cpu_offload self dev margin w in
          model_hooks r.1 = Some (seq (length (user_hooks w)) (length (models self))) /\
          length (user_hooks r.2) = (length (user_hooks w) + length (models self))%nat)
    as [H1 H2].
  { unfold enable_auto_cpu_offload.
    set (w1 := foldl _ w (models self)).
    assert (user_hooks w1 = user_hooks w) as Hw1 by apply user_hooks_strip.
    pose proof (models_disable self w1) as Hmodels.
    pose proof (length_user_hooks_disable self w1) as Hlen.
    destruct (disable_auto_cpu_offload self w1) as [self1 w2]. simpl in Hmodels, Hlen.
    rewrite Hmodels.
    destruct (create_hooks_spec (normalize_device dev) (mkStrategy margin) (models self)
                [] w2) as [Hall Hstore].
    destruct (create_hooks _ _ _ _) as [all_hooks w3]. simpl in Hall, Hstore.
    subst all_hooks. simpl.
    destruct (wire_peers_spec (seq (length (user_hooks w2)) (length (models self)))
                (normalize_device dev) w3) as (Hstrip & _ & _).
    { apply NoDup_seq. }
    { intros h Hh. unfold hook_execution_device. rewrite Hstore.
      destruct (lookup_created_handle (user_hooks w2) (normalize_device dev)
                  (mkStrategy margin) (models self) h Hh) as (e & _ & ->). done. }
    split; [by rewrite Hlen, Hw1|].
    rewrite <- (length_map strip_peers), Hstrip, length_map, Hstore.
    rewrite length_app, length_map. congruence. }
  simpl in *. split_and!; [done..|].
  intros h hs Hhs Hin. rewrite H1 in Hhs. injection Hhs as <-.
  apply elem_of_seq in Hin. apply lookup_ge_None. lia.
Qed.

(* ===================================================================== *)
(** * The margin after [add] and [remove] *)





(* ===================================================================== *)
(** * Further properties of the table *)

Lemma string_length_append (s1 s2 : string) :
  String.length (s1 +:+ s2) = (String.length s1 + String.length s2)%nat.
Proof. induction s1 as [|c s1 IH]; simpl; [done|]. by rewrite IH. Qed.

Lemma length_str_repeat_space n : String.length (str_repeat " " n) = n.
Proof.
  induction n as [|n IH]; [done|].
  cbn [str_repeat]. by rewrite string_length_append, IH.
Qed.

Lemma length_ljust s width :
  (String.length s <= width)%nat -> String.length (ljust s width) = width.
Proof.
  intros Hle. unfold ljust. rewrite string_length_append, length_str_repeat_space. lia.
Qed.

Lemma foldl_max_bound x (l : list nat) :
  (x <= foldl Nat.max x l)%nat /\ forall y, y ∈ l -> (y <= foldl Nat.max x l)%nat.
Proof.
  revert x. induction l as [|z l IH]; intros x; simpl.
  - split; [done|]. by intros y ?%elem_of_nil.
  - destruct (IH (Nat.max x z)) as [H1 H2]. split; [lia|].
    intros y [->|Hy]%elem_of_cons; [lia|by apply H2].
Qed.

Lemma py_max_bound l m : py_max l = Return m -> forall x, x ∈ l -> (x <= m)%nat.
Proof.
  destruct l as [|x l]; [done|]. simpl. intros [= <-] y.
  destruct (foldl_max_bound x l) as [H1 H2].
  intros [->|Hy]%elem_of_cons; [done|by apply H2].
Qed.

Lemma py_max_max_list x l : py_max (x :: l) = Return (Nat.max x (max_list l)).
Proof.
  simpl. f_equal. revert x. induction l as [|y l IH]; intros x; simpl; [lia|].
  rewrite IH. lia.
Qed.

Lemma max_list_bound (l : list nat) x : x ∈ l -> (x <= max_list l)%nat.
Proof.
  induction l as [|y l IH]; [by intros ?%elem_of_nil|].
  simpl. intros [->|Hx]%elem_of_cons; [lia|]. specialize (IH Hx). lia.
Qed.

Lemma append_cons c (a b : string) : String c a +:+ b = String c (a +:+ b).
Proof. reflexivity. Qed.

Lemma append_empty (b : string) : "" +:+ b = b.
Proof. reflexivity. Qed.

Lemma string_append_assoc (a b c : string) : (a +:+ b) +:+ c = a +:+ (b +:+ c).
Proof.
  induction a as [|x a IH]; [by rewrite !append_empty|].
  by rewrite !append_cons, IH.
Qed.

Lemma substring_append_prefix (s1 s2 : string) :
  String.substring 0 (String.length s1) (s1 +:+ s2) = s1.
Proof.
  induction s1 as [|c s1 IH]; [rewrite append_empty; by destruct s2|].
  rewrite append_cons. cbn [String.length String.substring]. by rewrite IH.
Qed.

Lemma substring_append_skip (s1 s2 : string) n m :
  String.substring (String.length s1 + n) m (s1 +:+ s2) = String.substring n m s2.
Proof.
  induction s1 as [|c s1 IH]; [by rewrite append_empty|].
  rewrite append_cons. cbn [String.length Nat.add String.substring]. by rewrite IH.
Qed.

Lemma foldl_append_rows {A} (f : A -> string) (l : list A) (init : string) :
  foldl (fun output e => output +:+ f e) init l = init +:+ join_lines (map f l).
Proof.
  revert init. induction l as [|e l IH]; intros init; simpl.
  - induction init as [|c init IHi]; [done|]. by rewrite append_cons, <- IHi.
  - by rewrite IH, string_append_assoc.
Qed.

Lemma resolve_models_length w entries ms :
  resolve_models w entries = Some ms -> length ms = length entries.
Proof.
  revert ms. induction entries as [|[id module] entries IH]; intros ms; simpl.
  - by intros [= <-].
  - destruct (modules w !! module); [|done].
    destruct (resolve_models w entries) as [ms'|]; [|done].
    intros [= <-]. simpl. by rewrite (IH ms').
Qed.

(** Two fields padded to [w1] and [w2] columns and joined by [" | "]: the
    fields start at columns [0] and [w1 + 3], the separators are at columns
    [w1] and [w1 + 3 + w2]. *)
Lemma two_padded_fields (a b rest : string) w1 w2 :
  (String.length a <= w1)%nat -> (String.length b <= w2)%nat ->
  let line := ljust a w1 +:+ " | " +:+ ljust b w2 +:+ " | " +:+ rest in
  String.substring 0 (String.length a) line = a /\
  String.substring w1 3 line = " | " /\
  String.substring (w1 + 3) (String.length b) line = b /\
  String.substring (w1 + 3 + w2) 3 line = " | ".
Proof.
  intros Ha Hb line. unfold line.
  pose proof (length_ljust a w1 Ha) as Hla. pose proof (length_ljust b w2 Hb) as Hlb.
  split_and!.
  - unfold ljust at 1. rewrite string_append_assoc. apply substring_append_prefix.
  - rewrite <- Hla at 1. rewrite <- (Nat.add_0_r (String.length (ljust a w1))).
    rewrite substring_append_skip. apply (substring_append_prefix " | ").
  - rewrite <- Hla at 1. rewrite substring_append_skip.
    rewrite (substring_append_skip " | " _ 0).
    unfold ljust at 1. rewrite string_append_assoc. apply substring_append_prefix.
  - rewrite <- Hla at 1. rewrite <- Nat.add_assoc, substring_append_skip.
    rewrite (substring_append_skip " | " _ w2).
    rewrite <- Hlb at 1. rewrite <- (Nat.add_0_r (String.length (ljust b w2))).
    rewrite substring_append_skip. apply (substring_append_prefix " | ").
Qed.

(** X21.  [__repr__] of a manager with models returns a table: the header
    lines, one row per model in the order of the models, and the closing
    line.  The id column is as wide as the longest id and at least 15, the
    class column as wide as the longest class name and at least 25.  In
    every row, and in the line of the column names, the id starts at column
    0, the class name after the first separator, and the two separators
    are at the same columns, so the columns are aligned. *)
Theorem repr_columns_fit self w entries :
  models self <> [] ->
  resolve_models w (models self) = Some entries ->
  exists cw,
    ModelManager_repr self w
    = Some (Return (repr_header cw +:+ join_lines (map (repr_row cw) entries)
                    +:+ repr_sep_line cw)) /\
    length entries = length (models self) /\
    col_id cw = Nat.max 15 (max_list (map (fun e => String.length e.1) entries)) /\
    col_class cw
    = Nat.max 25 (max_list (map (fun e => String.length (class_name e.2)) entries)) /\
    (forall e, e ∈ entries ->
       let row := repr_row cw e in
       String.substring 0 (String.length e.1) row = e.1 /\
       String.substring (col_id cw) 3 row = " | " /\
       String.substring (col_id cw + 3) (String.length (class_name e.2)) row
       = class_name e.2 /\
       String.substring (col_id cw + 3 + col_class cw) 3 row = " | ") /\
    String.substring (col_id cw) 3 (repr_header_line cw) = " | " /\
    String.substring (col_id cw + 3 + col_class cw) 3 (repr_header_line cw) = " | ".
Proof.
  intros Hne Hres. unfold ModelManager_repr. rewrite Hres.
  pose proof (resolve_models_length _ _ _ Hres) as Hlen.
  destruct entries as [|e0 entries0] eqn:Hentries.
  { destruct (models self); [done|discriminate Hlen]. }
  rewrite <- Hentries in *. clear Hlen.
  set (wi := Nat.max 15 (max_list (map (fun e : string * Module => String.length e.1)
                                       entries))).
  set (wc := Nat.max 25 (max_list (map (fun e : string * Module =>
                                          String.length (class_name e.2)) entries))).
  assert (col_widths_of entries = Return (mkColWidths wi wc 10 15 10)) as Hcw.
  { unfold col_widths_of. rewrite Hentries. cbn [map]. rewrite !py_max_max_list.
    unfold wi, wc. rewrite Hentries. cbn [map max_list]. done. }
  exists (mkColWidths wi wc 10 15 10). split_and!.
  - f_equal. unfold repr_entries. rewrite Hcw. cbv zeta. f_equal.
    rewrite foldl_append_rows.
    unfold repr_header, repr_header_line, repr_sep_line, repr_dash_line, repr_width.
    by rewrite !string_append_assoc.
  - rewrite Hentries. simpl. f_equal.
    apply resolve_models_length in Hres. rewrite Hentries in Hres. simpl in Hres. lia.
  - done.
  - done.
  - intros e He. cbn [col_id col_class]. unfold repr_row. cbn [col_id col_class].
    apply two_padded_fields.
    + unfold wi. etrans; [|apply Nat.le_max_r]. apply max_list_bound.
      by apply (list_elem_of_fmap_2 (fun e : string * Module => String.length e.1)).
    + unfold wc. etrans; [|apply Nat.le_max_r]. apply max_list_bound.
      by apply (list_elem_of_fmap_2
                  (fun e : string * Module => String.length (class_name e.2))).
  - unfold repr_header_line. cbn [col_id col_class].
    apply (two_padded_fields "Model ID" "Class"); simpl; unfold wi, wc; lia.
  - unfold repr_header_line. cbn [col_id col_class].
    apply (two_padded_fields "Model ID" "Class"); simpl; unfold wi, wc; lia.
Qed.

(* ===================================================================== *)
(** * The further properties on the example data *)

(** Sizes 3, 2 and 1 with 3 to free: ["a"] and ["b"; "c"] both weigh 3, and
    the search returns the shorter one. *)
Lemma search_prefers_fewest_ids_example :
  let module_sizes := [("a", 3); ("b", 2); ("c", 1)] in
  search_best_candidate module_sizes (QofN 3) = Some ["a"] /\
  candidate_size_of module_sizes ["a"] <= candidate_size_of module_sizes ["b"; "c"] /\
  (candidate_size_of module_sizes ["b"; "c"] = candidate_size_of module_sizes ["a"] ->
   (length ["a"] <= length ["b"; "c"])%nat).
Proof.
  intros module_sizes.
  assert (search_best_candidate module_sizes (QofN 3) = Some ["a"]) as Hb by by vm_compute.
  split; [exact Hb|].
  pose proof (search_prefers_fewest_ids module_sizes (QofN 3)) as Hspec.
  rewrite Hb in Hspec. destruct Hspec as (_ & _ & _ & Hall).
  apply (Hall ["b"; "c"]).
  - change (sublist ["b"; "c"] ["a"; "b"; "c"]). by apply sublist_cons.
  - done.
  - by vm_compute.
Defined.

(** Candidates of 5, 3 and 2 GiB, an owner of 8 GiB with margin 0.25 and
    6 GiB free: one candidate is returned. *)
Lemma strategy_selection_shape_example :
  let model := module_of_size "UNet2DConditionModel" cpu (8 * GiB) in
  let mem_get_info := fun _ : option nat => 6 * GiB in
  let selected :=
    (AutoOffloadStrategy_call fst snd no_rounding mem_get_info quarter_margin candidates_532
       None model cuda0).1 in
  sublist selected candidates_532 /\ selected <> [].
Proof.
  intros model mem_get_info selected.
  destruct (strategy_selection_shape fst snd no_rounding mem_get_info quarter_margin
              candidates_532 None model cuda0) as [Hsub Hne].
  split; [exact Hsub|]. apply Hne; by vm_compute.
Defined.

(** Two candidates of one byte, an owner of 8 bytes with margin 0.25 and
    nothing free: the total of 2 is below the deficit of 10, and the call
    warns and returns both. *)
Lemma fallback_iff_total_below_deficit_example :
  let model := module_of_size "UNet2DConditionModel" cpu 8 in
  let mem_get_info := fun _ : option nat => 0 in
  let deficit := min_memory_offload_of no_rounding mem_get_info quarter_margin model cuda0 in
  (QofN (total_footprint snd candidates_11) < deficit)%Q /\
  AutoOffloadStrategy_call fst snd no_rounding mem_get_info quarter_margin candidates_11
    None model cuda0
  = (candidates_11, [InfoSearch deficit; WarnOffloadAll]).
Proof.
  intros model mem_get_info deficit.
  assert (QofN (total_footprint snd candidates_11) < deficit)%Q as Hlt by by vm_compute.
  split; [exact Hlt|].
  apply (fallback_iff_total_below_deficit fst snd no_rounding mem_get_info quarter_margin
           candidates_11 None model cuda0); [done| |by vm_compute|exact Hlt].
  refine (bool_decide_unpack _ _). by vm_compute.
Defined.

(** The UNet called while the VAE is on [cuda:0] and nothing is free: the
    UNet ends on [cuda:0]. *)
Lemma pre_forward_places_module_example :
  let mem_get_info := fun _ : option nat => 0 in
  exists w',
    pre_forward no_rounding mem_get_info 0 0 [Tensor 7 cpu] [] world_vae_on_device
    = Some (([Tensor 7 cuda0], []), w') /\
    modules w' !! O = Some (unet_module cuda0) /\
    user_hooks w' = user_hooks world_vae_on_device /\
    current_device w' = current_device world_vae_on_device.
Proof.
  intros mem_get_info.
  apply (pre_forward_places_module no_rounding mem_get_info 0 0 [Tensor 7 cpu] []
           world_vae_on_device unet_handle (unet_module cpu)); [by vm_compute..|].
  intros others [= <-]. eexists. vm_compute. reflexivity.
Defined.

(** The same call, made twice. *)
Lemma second_call_moves_nothing_example :
  let mem_get_info := fun _ : option nat => 0 in
  exists res w',
    pre_forward no_rounding mem_get_info 0 0 [Tensor 7 cpu] [] world_vae_on_device
    = Some (res, w') /\
    forall args2 kwargs2,
      pre_forward no_rounding mem_get_info 0 0 args2 kwargs2 w'
      = Some ((send_to_device 0 args2 cuda0, send_kwargs_to_device 0 kwargs2 cuda0), w').
Proof.
  intros mem_get_info.
  apply (second_call_moves_nothing no_rounding mem_get_info 0 0 [Tensor 7 cpu] []
           world_vae_on_device unet_handle (unet_module cpu));
    [by vm_compute|by vm_compute| |right; by vm_compute].
  intros others [= <-]. eexists. vm_compute. reflexivity.
Defined.

(** The same call: modules only change device, and the cache is cleared at
    most once. *)
Lemma pre_forward_only_moves_modules_example :
  let mem_get_info := fun _ : option nat => 0 in
  let w := world_vae_on_device in
  let r := default (([], []), w)
                   (pre_forward no_rounding mem_get_info 0 0 [Tensor 7 cpu] [] w) in
  Forall2 (moved_only cuda0) (modules w) (modules r.2) /\
  user_hooks r.2 = user_hooks w /\
  default_device r.2 = default_device w /\
  current_device r.2 = current_device w /\
  (cache_clears w <= cache_clears r.2 <= S (cache_clears w))%nat.
Proof.
  intros mem_get_info w r.
  apply (pre_forward_only_moves_modules no_rounding mem_get_info 0 0 [Tensor 7 cpu] [] w
           unet_handle r.1 r.2); by vm_compute.
Defined.

(** The same call: the strategy falls back to the VAE, the only peer on
    [cuda:0]; the VAE goes to the CPU, the text encoder is untouched, the
    cache is cleared once. *)
Lemma pre_forward_offloads_selected_example :
  let mem_get_info := fun _ : option nat => 0 in
  let w := world_vae_on_device in
  let peers := default [] (resolve_peers w [1%nat; 2%nat]) in
  let sel := hooks_to_offload_of no_rounding mem_get_info (hook unet_handle)
                                 (unet_module cpu) peers in
  map peer_model_id sel.1 = ["vae"] /\
  exists res w',
    pre_forward no_rounding mem_get_info 0 0 [Tensor 7 cpu] [] w = Some (res, w') /\
    (forall p, p ∈ sel.1 -> model p.1.2 <> O ->
       modules w' !! model p.1.2 = Some (module_on cpu p.2)) /\
    (forall j, j <> O -> j ∉ map (fun p : Peer => model p.1.2) sel.1 ->
       modules w' !! j = modules w !! j) /\
    cache_clears w' = (cache_clears w + if bool_decide (sel.1 <> []) then 1 else 0)%nat /\
    log w' = log w ++ sel.2 ++ [InfoStrategyTime (Some "unet")]
             ++ map (fun p => InfoMoving (Some "unet") cuda0 (peer_model_id p)) sel.1.
Proof.
  intros mem_get_info w peers sel. split; [by vm_compute|].
  apply (pre_forward_offloads_selected no_rounding mem_get_info 0 0 [Tensor 7 cpu] [] w
           unet_handle (unet_module cpu) [1%nat; 2%nat] peers); by vm_compute.
Defined.

(** The UNet hooked by hand without strategy, called while the VAE is on
    [cuda:0]: the VAE is offloaded without a search. *)
Lemma pre_forward_without_strategy_offloads_all_example :
  let mem_get_info := fun _ : option nat => 64 in
  let w := world_without_strategy in
  let uh := mkUserHook "unet" 0 (mkHook cuda0 (Some [1%nat]) None (Some "unet")) in
  let peers := default [] (resolve_peers w [1%nat]) in
  let on_device := filter (fun p : Peer => device p.2 = cuda0) peers in
  map peer_model_id on_device = ["vae"] /\
  exists res w',
    pre_forward no_rounding mem_get_info 0 0 [] [] w = Some (res, w') /\
    (forall p, p ∈ peers -> device p.2 = cuda0 -> model p.1.2 <> O ->
       modules w' !! model p.1.2 = Some (module_on cpu p.2)) /\
    log w' = log w ++ [InfoStrategyTime (Some "unet")]
             ++ map (fun p => InfoMoving (Some "unet") cuda0 (peer_model_id p)) on_device.
Proof.
  intros mem_get_info w uh peers on_device. split; [by vm_compute|].
  apply (pre_forward_without_strategy_offloads_all no_rounding mem_get_info 0 0 [] [] w
           uh (unet_module cpu) [1%nat] peers); by vm_compute.
Defined.

(** The enabled example manager satisfies the invariant, and keeps it. *)
Lemma manager_inv_preserved_example :
  let self := example_enabled.1 in
  let w := example_enabled.2 in
  manager_inv self /\
  (add self "controlnet" 1 w).1 = Return tt /\
  manager_inv (add self "controlnet" 1 w).2.1 /\
  ("vae" ∈ keys (models self) -> (remove self "vae" w).1 = Return tt) /\
  manager_inv (remove self "vae" w).2.1 /\
  manager_inv (enable_auto_cpu_offload self cuda0 default_margin w).1 /\
  manager_inv (disable_auto_cpu_offload self w).1.
Proof.
  intros self w.
  assert (manager_inv self) as Hinv.
  { apply manager_inv_enable. refine (bool_decide_unpack _ _). by vm_compute. }
  split; [exact Hinv|].
  destruct (manager_inv_preserved self w "controlnet" 1 cuda0 default_margin Hinv)
    as (Ha & Hia & _ & _ & He & Hd).
  destruct (manager_inv_preserved self w "vae" 1 cuda0 default_margin Hinv)
    as (_ & _ & Hr & Hir & _ & _).
  by split_and!.
Defined.

(** A fourth model added to the enabled example manager. *)
Lemma add_binds_new_id_example :
  let added := add example_enabled.1 "controlnet" 1 example_enabled.2 in
  added.1 = Return tt /\
  models added.2.1 = models example_enabled.1 ++ [("controlnet", 1%nat)] /\
  dict_get (models added.2.1) "controlnet" = Some 1%nat /\
  forall id', id' <> "controlnet" ->
              dict_get (models added.2.1) id' = dict_get (models example_enabled.1) id'.
Proof.
  apply (add_binds_new_id example_enabled.1 example_enabled.2 "controlnet" 1).
  - apply manager_inv_enable. refine (bool_decide_unpack _ _). by vm_compute.
  - refine (bool_decide_unpack _ _). by vm_compute.
Defined.

(** The VAE removed from the enabled example manager. *)
Lemma remove_unbinds_id_example :
  let removed := remove example_enabled.1 "vae" example_enabled.2 in
  removed.1 = Return tt /\
  models removed.2.1 = filter (fun kv => kv.1 <> "vae") (models example_enabled.1) /\
  dict_get (models removed.2.1) "vae" = None /\
  (forall id', id' <> "vae" ->
     dict_get (models removed.2.1) id' = dict_get (models example_enabled.1) id') /\
  length (models removed.2.1) = (length (models example_enabled.1) - 1)%nat.
Proof.
  apply (remove_unbinds_id example_enabled.1 example_enabled.2 "vae").
  - apply manager_inv_enable. refine (bool_decide_unpack _ _). by vm_compute.
  - refine (bool_decide_unpack _ _). by vm_compute.
Defined.

(** A fourth model added to the example manager before it is enabled, and
    removed again. *)
Lemma remove_undoes_add_example :
  let added := add example_manager "controlnet" 1 example_world in
  remove added.2.1 "controlnet" added.2.2 = (Return tt, (example_manager, example_world)).
Proof.
  apply (remove_undoes_add example_manager example_world "controlnet" 1); [done|].
  refine (bool_decide_unpack _ _). by vm_compute.
Defined.

(** The handles of the example manager: the second model is the VAE, and
    its handle is the second one. *)
Lemma enable_builds_one_handle_per_model_example :
  exists hs,
    model_hooks example_enabled.1 = Some hs /\
    length hs = length (models example_manager) /\
    exists h uh,
      hs !! 1%nat = Some h /\
      user_hooks example_enabled.2 !! h = Some uh /\
      model_id uh = "vae" /\
      model uh = 1%nat /\
      owner_model_id (hook uh) = Some "vae" /\
      execution_device (hook uh) = cuda0 /\
      offload_strategy (hook uh) = Some quarter_margin.
Proof.
  destruct (enable_builds_one_handle_per_model example_manager (mkDevice "cuda" None)
              (1 # 4) example_world) as (_ & _ & _ & hs & Hhs & Hlen & Hall).
  exists hs. split; [exact Hhs|]. split; [exact Hlen|].
  apply (Hall 1%nat ("vae", 1%nat)). done.
Defined.


(** The VAE of the example manager after enabling. *)
Lemma enable_hooks_every_module_example :
  let m := mkModule "AutoencoderKL" cpu "torch.uint8" [mkTensorMeta 1 1] []
                    (Some (OffloadHook 1)) in
  exists hs h uh,
    model_hooks example_enabled.1 = Some hs /\ h ∈ hs /\
    device m = cpu /\
    _hf_hook m = Some (OffloadHook h) /\
    user_hooks example_enabled.2 !! h = Some uh /\
    model uh = 1%nat /\
    execution_device (hook uh) = cuda0 /\
    offload_strategy (hook uh) = Some quarter_margin.
Proof.
  intros m.
  apply (enable_hooks_every_module example_manager (mkDevice "cuda" None) (1 # 4)
           example_world ("vae", 1%nat) m); [|by vm_compute].
  refine (bool_decide_unpack _ _). by vm_compute.
Defined.

(** The enabled example manager disabled while the VAE is on [cuda:0]: the
    VAE is back on the CPU without hook. *)
Lemma disable_detaches_every_handle_example :
  let uh := mkUserHook "vae" 1
              (mkHook cuda0 (Some [O; 2%nat]) (Some quarter_margin) (Some "vae")) in
  let r := disable_auto_cpu_offload example_enabled.1 world_vae_on_device in
  r.1 = mkManager (models example_manager) None false (Some cuda0) /\
  cache_clears r.2 = S (cache_clears world_vae_on_device) /\
  (forall m, modules r.2 !! 1%nat = Some m -> detached m) /\
  (forall uh', user_hooks r.2 !! 1%nat = Some uh' ->
     model uh' = 1%nat /\ owner_model_id (hook uh') = None).
Proof.
  intros uh.
  apply (disable_detaches_every_handle example_enabled.1 world_vae_on_device
           [O; 1%nat; 2%nat] 1%nat uh); [by vm_compute| |by vm_compute].
  refine (bool_decide_unpack _ _). by vm_compute.
Defined.

(** The example manager enabled and disabled: the VAE is as it was. *)
Lemma disable_after_enable_example :
  let r := disable_auto_cpu_offload example_enabled.1 example_enabled.2 in
  models r.1 = models example_manager /\
  model_hooks r.1 = None /\
  _auto_offload_enabled r.1 = false /\
  modules r.2 !! 1%nat = Some (module_of_size "AutoencoderKL" cpu 1).
Proof.
  apply (disable_after_enable example_manager (mkDevice "cuda" None) (1 # 4) example_world
           ("vae", 1%nat) (module_of_size "AutoencoderKL" cpu 1)); [|by vm_compute].
  refine (bool_decide_unpack _ _). by vm_compute.
Defined.

(** Enabling the enabled example manager again: the three new handles are
    the references 3, 4 and 5, none of them one of the old handles. *)
Lemma enable_allocates_new_handles_example :
  let r := enable_auto_cpu_offload example_enabled.1 cuda0 default_margin
                                   example_enabled.2 in
  model_hooks r.1 = Some [3; 4; 5]%nat /\
  user_hooks example_enabled.2 !! 4%nat = None.
Proof.
  intros r.
  destruct (enable_allocates_new_handles example_enabled.1 cuda0 default_margin
              example_enabled.2) as (Hhs & _ & Hnew).
  split; [exact Hhs|].
  apply (Hnew 4%nat [3; 4; 5]%nat Hhs).
  refine (bool_decide_unpack _ _). by vm_compute.
Defined.

(** The table of the example manager: three rows, columns 15 and 25 wide. *)
Lemma repr_columns_fit_example :
  let entries := default [] (resolve_models example_world (models example_manager)) in
  exists cw,
    ModelManager_repr example_manager example_world
    = Some (Return (repr_header cw +:+ join_lines (map (repr_row cw) entries)
                    +:+ repr_sep_line cw)) /\
    length entries = length (models example_manager) /\
    col_id cw = Nat.max 15 (max_list (map (fun e => String.length e.1) entries)) /\
    col_class cw
    = Nat.max 25 (max_list (map (fun e => String.length (class_name e.2)) entries)) /\
    (forall e, e ∈ entries ->
       let row := repr_row cw e in
       String.substring 0 (String.length e.1) row = e.1 /\
       String.substring (col_id cw) 3 row = " | " /\
       String.substring (col_id cw + 3) (String.length (class_name e.2)) row
       = class_name e.2 /\
       String.substring (col_id cw + 3 + col_class cw) 3 row = " | ") /\
    String.substring (col_id cw) 3 (repr_header_line cw) = " | " /\
    String.substring (col_id cw + 3 + col_class cw) 3 (repr_header_line cw) = " | ".
Proof.
  intros entries.
  apply (repr_columns_fit example_manager example_world entries); by vm_compute.
Defined.

(** The example manager enabled for ["cpu"]: the UNet is called twice; it
    stays on [cpu], which is not [cpu:0], and each call logs. *)
Lemma unreported_device_is_never_reached_example :
  let mem_get_info := fun _ : option nat => 0 in
  let w := example_enabled_on_cpu.2 in
  let cpu0 := mkDevice "cpu" (Some O) in
  exists res w',
    pre_forward no_rounding mem_get_info 0 0 [Tensor 7 cpu] [] w = Some (res, w') /\
    modules w' !! O = Some (unet_module cpu) /\
    (forall j, j <> O -> modules w' !! j = modules w !! j) /\
    cache_clears w' = cache_clears w /\
    log w' = log w ++ [InfoStrategyTime (Some "unet")] /\
    forall args2 kwargs2,
      exists res2 w'',
        pre_forward no_rounding mem_get_info 0 0 args2 kwargs2 w' = Some (res2, w'') /\
        modules w'' = modules w' /\
        cache_clears w'' = cache_clears w' /\
        log w'' = log w' ++ [InfoStrategyTime (Some "unet")].
Proof.
  intros mem_get_info w cpu0.
  apply (unreported_device_is_never_reached no_rounding mem_get_info 0 0 [Tensor 7 cpu] [] w
           (mkUserHook "unet" 0
              (mkHook cpu0 (Some [1%nat; 2%nat]) (Some quarter_margin) (Some "unet")))
           (unet_module cpu) [1%nat; 2%nat]).
  - by vm_compute.
  - by vm_compute.
  - done.
  - eexists. vm_compute. reflexivity.
  - refine (bool_decide_unpack _ _). by vm_compute.
  - by vm_compute.
Defined.

